(** * EvalTreeJit: the subtree-switch code generator of CompiledResolver.cpp

    A shallow embedding of the index arithmetic, the path-bitmap builder,
    the variant enumerator, the switch emitter and the run-time driver of
    [CompiledResolver], with the properties the specification states
    about them; then the tree builder of DecisionTree.h and the
    benchmark registration of main_benchmark.cpp, with properties read
    off the code. *)

From Stdlib Require Import Strings.String Strings.Ascii DecimalString.
From Stdlib Require DecimalPos DecimalZ.
From Stdlib Require Import ZArith Lia List Bool.
From Stdlib Require Import Floats.SpecFloat.
From stdpp Require Import base numbers option list gmap fin_maps.

Local Open Scope Z_scope.

(** ** Machine integers

    C++ values are integers of [Z]; storing one into a variable of a
    fixed-width type keeps its low bits.  [int64_t] and [int] are two's
    complement, [unsigned] is 32 bits wide. *)

Definition wrap_unsigned (bits z : Z) : Z := z mod 2 ^ bits.

Definition wrap_signed (bits z : Z) : Z :=
  (z + 2 ^ (bits - 1)) mod 2 ^ bits - 2 ^ (bits - 1).

Definition to_int64 (z : Z) : Z := wrap_signed 64 z.
Definition to_int (z : Z) : Z := wrap_signed 32 z.
Definition to_unsigned (z : Z) : Z := wrap_unsigned 32 z.

(** ** Utils.h

    Utils.h is not part of the sources; its helpers follow section 3 of
    the specification and return [int64_t], as their callers store
    them. *)

(** Modelled from the spec: PowerOf2 of Utils.h; a level l holds 2^l
    nodes. *)
Definition PowerOf2 (exp : Z) : Z := to_int64 (2 ^ exp).

(** Modelled from the spec: TreeNodes of Utils.h; the first index on
    level l is 2^l - 1, the number of nodes on the levels above it. *)
Definition TreeNodes (levels : Z) : Z := to_int64 (PowerOf2 levels - 1).

(** Modelled from the spec: Log2 of Utils.h; the level of index i is the
    floor of log2 (i + 1). *)
Definition Log2 (n : Z) : Z := Z.log2 n.

(** ** Index arithmetic: CompiledResolver::getNodeIdxForSubtreeBitOffset *)

Definition getNodeIdxForSubtreeBitOffset
    (subtreeRootIdx subtreeLevels bitOffset : Z) : Z :=
  let subtreeRootIdxLevel := to_int (Log2 (to_int64 (subtreeRootIdx + 1))) in
  let nodeLevelInSubtree := to_int (Log2 (to_unsigned (bitOffset + 1))) in
  let firstIdxOnRootLevel := TreeNodes subtreeRootIdxLevel in
  let firstIdxOnNodeLevel :=
    TreeNodes (to_int (subtreeRootIdxLevel + nodeLevelInSubtree)) in
  let subtreeRootIdxOffset := to_int64 (subtreeRootIdx - firstIdxOnRootLevel) in
  let numSubtreeNodesOnLevel := PowerOf2 nodeLevelInSubtree in
  let firstSubtreeIdxOnNodeLevel :=
    to_int64 (firstIdxOnNodeLevel
              + to_int64 (subtreeRootIdxOffset * numSubtreeNodesOnLevel)) in
  let nodeOffsetInSubtreeLevel :=
    to_int (to_int64 (bitOffset
                      - to_int64 (PowerOf2 nodeLevelInSubtree - 1))) in
  to_int64 (firstSubtreeIdxOnNodeLevel + nodeOffsetInSubtreeLevel).

(** The formula of section 4.1 of the specification, over the integers. *)
Definition nodeIdxFormula (R bitOffset : Z) : Z :=
  let l := Z.log2 (bitOffset + 1) in
  let LR := Z.log2 (R + 1) in
  (2 ^ (LR + l) - 1) + (R - (2 ^ LR - 1)) * 2 ^ l + (bitOffset - (2 ^ l - 1)).

(** The global indices of the internal nodes of a subtree, by bit offset. *)
Definition subtreeNodeIdxs (R subtreeLevels : Z) : list Z :=
  getNodeIdxForSubtreeBitOffset R subtreeLevels
    <$> seqZ 0 (2 ^ subtreeLevels - 1).

(** Membership of the subtree of [levels] levels rooted at [root], along
    the child links 2i+1 and 2i+2 of a perfect tree. *)
Fixpoint inSubtree (levels : nat) (root idx : Z) : bool :=
  match levels with
  | O => false
  | S n =>
      (idx =? root) || inSubtree n (2 * root + 1) idx
      || inSubtree n (2 * root + 2) idx
  end.

(** ** Data model: DecisionTree.h *)

Inductive OperationType := Bypass | Sqrt | Ln.

Inductive ComparatorType := LessThan | GreaterThan.

(** [float] values are IEEE 754 binary32 numbers. *)
Definition float_prec : Z := 24.
Definition float_emax : Z := 128.

(** The node of DecisionTree.h, with its child indices under the names
    CompiledResolver.cpp reads them by.  A tree is a map from node index
    to node, [gmap Z TreeNode]. *)
Record TreeNode := mkTreeNode {
  Bias : spec_float;
  Op : OperationType;
  Comp : ComparatorType;
  DataSetFeatureIdx : Z;
  TrueChildNodeIdx : Z;
  FalseChildNodeIdx : Z
}.

(** ** Emitted code

    The emitter's output is kept as data: the condition-vector
    computation with the type of its stack slot, and the switch with the
    typed case constants of every target block. *)

(** An [llvm::ConstantInt]: an integer type [i<intTy>] and a value. *)
Record ConstantInt := mkConstantInt { intTy : Z; intVal : Z }.

(** The code of emitComputeConditionVector: a slot of type [i<cvTy>]
    and, per bit offset, the node evaluated and the shift amount. *)
Record ConditionVectorCode := mkConditionVectorCode {
  cvTy : Z;
  cvBits : list (TreeNode * Z)
}.

(** A switch on the loaded condition vector; each target block comes
    with the case constants added for it.  A block either stores a
    constant leaf index to the result slot, or runs a nested switch and
    stores its result; it then branches to the return block. *)
Inductive SwitchCode :=
| SwitchInst (cv : ConditionVectorCode)
             (targets : list (NodeBlock * list ConstantInt))
with NodeBlock :=
| StoreLeafIdx (leafNodeIdx : Z)
| StoreSubSwitch (sub : SwitchCode).

(** A compiled evaluator: [int64_t (const float * )].  [None] stands for
    a call that leaves defined behaviour (a load past the data set, a
    return of the never-written result slot). *)
Abbreviation SubtreeEvaluator_f := (list spec_float -> option Z) (only parsing).

(** ** Path-bitmap builder *)

(** One pass of the marking loop: result[size - i - 1].second[offset] = bit.
    An index outside the vector is an error. *)
Definition setPathBit (thisBitOffset : Z) (bit : bool)
    (result : list (Z * gmap Z bool)) (i : Z)
    : option (list (Z * gmap Z bool)) :=
  let idx := Z.to_nat (wrap_unsigned 64 (Z.of_nat (length result) - i - 1)) in
  entry ← result !! idx;
  Some (<[idx := (entry.1, <[thisBitOffset := bit]> (entry.2))]> result).

Definition markPathBits (thisBitOffset : Z) (bit : bool) (count : Z)
    (result : list (Z * gmap Z bool)) : option (list (Z * gmap Z bool)) :=
  foldl (fun acc i => r ← acc; setPathBit thisBitOffset bit r i)
        (Some result) (seqZ 0 count).

(** [remainingLevels] counts down to 0; it is never negative in a call
    of the emitter.  [None]: [tree.at] or [nodeIdxBitOffsets.at] throws. *)
Fixpoint buildSubtreeLeafNodePathsBitsMapsRecursively
    (tree : gmap Z TreeNode) (nodeIdx : Z) (remainingLevels : nat)
    (nodeIdxBitOffsets : gmap Z Z) (result : list (Z * gmap Z bool))
    : option (list (Z * gmap Z bool)) :=
  match remainingLevels with
  | O => Some (result ++ [(nodeIdx, ∅)])
  | S remaining =>
      node ← tree !! nodeIdx;
      thisBitOffset ← nodeIdxBitOffsets !! nodeIdx;
      let numChildLeafPaths :=
        to_unsigned (PowerOf2 (Z.of_nat remainingLevels)) in
      let numChildsPerCond := numChildLeafPaths `div` 2 in
      result ← buildSubtreeLeafNodePathsBitsMapsRecursively
                 tree (TrueChildNodeIdx node) remaining
                 nodeIdxBitOffsets result;
      result ← markPathBits thisBitOffset true numChildsPerCond result;
      result ← buildSubtreeLeafNodePathsBitsMapsRecursively
                 tree (FalseChildNodeIdx node) remaining
                 nodeIdxBitOffsets result;
      markPathBits thisBitOffset false numChildsPerCond result
  end.

(** ** Variant enumerator *)

(** [unsigned] shifts and bitwise operations.  A shift count of 32 or
    more is undefined in C++; here it keeps the low 32 bits of the
    shifted value, and every statement below that relies on a shift has
    its count under 32. *)
Definition shl_unsigned (x count : Z) : Z := to_unsigned (Z.shiftl x count).
Definition not_unsigned (x : Z) : Z := to_unsigned (Z.lnot x).

Definition buildFixedConditionVectorTemplate
    (leafNodePathBitsMap : gmap Z bool) : Z :=
  map_fold (fun first (second : bool) fixedBitsVector =>
              let bit := if second then 1 else 0 in
              let vectorBit := shl_unsigned bit first in
              Z.lor fixedBitsVector vectorBit)
           0 leafNodePathBitsMap.

(** The recursion ends when [bitToVaryIdx] reaches the size of
    [variableBitOffsets]; [fuel] bounds its depth.  [None]: the assertion
    on the bit fails, [at] throws, or the fuel is used up. *)
Fixpoint buildCanonicalConditionVectorVariantsRecursively (fuel : nat)
    (conditionVector : Z) (variableBitOffsets : list Z) (bitToVaryIdx : Z)
    (result : list Z) : option (list Z) :=
  match fuel with
  | O => None
  | S fuel =>
      if wrap_unsigned 64 bitToVaryIdx <? Z.of_nat (length variableBitOffsets)
      then
        bitToVary ← variableBitOffsets !! Z.to_nat (wrap_unsigned 64 bitToVaryIdx);
        let vectorTrueBit := shl_unsigned 1 bitToVary in
        if Z.land conditionVector (not_unsigned vectorTrueBit) =? conditionVector
        then
          result ← buildCanonicalConditionVectorVariantsRecursively fuel
                     (Z.lor conditionVector vectorTrueBit) variableBitOffsets
                     (to_int (bitToVaryIdx + 1)) result;
          buildCanonicalConditionVectorVariantsRecursively fuel
            conditionVector variableBitOffsets
            (to_int (bitToVaryIdx + 1)) result
        else None
      else Some (result ++ [conditionVector])
  end.

(** The first loop of buildCanonicalConditionVectorVariants: the bit
    offsets below [conditionVectorSize] that the path map does not fix. *)
Definition collectVariableBitOffsets (conditionVectorSize : Z)
    (leafNodePathBitsMap : gmap Z bool) : list Z :=
  filter (fun i => leafNodePathBitsMap !! to_unsigned i = None)
         (seqZ 0 conditionVectorSize).

Definition buildCanonicalConditionVectorVariants (conditionVectorSize : Z)
    (fixedBitsTemplate : Z) (leafNodePathBitsMap : gmap Z bool)
    (result : list Z) : option (list Z) :=
  let variableBitOffsets :=
    collectVariableBitOffsets conditionVectorSize leafNodePathBitsMap in
  match variableBitOffsets with
  | [] => Some (result ++ [fixedBitsTemplate])
  | _ =>
      let expectedVariants :=
        to_unsigned (PowerOf2 (to_int (Z.of_nat (length variableBitOffsets)))) in
      result ← buildCanonicalConditionVectorVariantsRecursively
                 (S (length variableBitOffsets))
                 fixedBitsTemplate variableBitOffsets 0 result;
      if Z.of_nat (length result) =? expectedVariants
      then Some result else None
  end.

(** ** Condition-vector emission *)

(** The loop over [bitOffset] from 0 up to [numNodes]: the node is
    looked up ([tree.at], [None] when it throws), its bit offset is
    remembered, and the evaluation, zero-extension, shift by the 6-bit
    constant and or into the slot are appended to the code. *)
Definition emitComputeConditionVector (tree : gmap Z TreeNode)
    (rootNodeIdx subtreeLevels numNodes : Z) (bitOffsets : gmap Z Z)
    : option (ConditionVectorCode * gmap Z Z) :=
  foldl (fun acc bitOffset =>
           '(code, bitOffsets) ← acc;
           let nodeIdx :=
             getNodeIdxForSubtreeBitOffset rootNodeIdx subtreeLevels bitOffset in
           let bitOffsets := <[nodeIdx := bitOffset]> bitOffsets in
           node ← tree !! nodeIdx;
           Some (mkConditionVectorCode (cvTy code)
                   (cvBits code ++ [(node, wrap_unsigned 6 bitOffset)]),
                 bitOffsets))
        (Some (mkConditionVectorCode 64 [], bitOffsets))
        (seqZ 0 numNodes).

(** ** Switch emission *)

(** The case constants of one target: ConstantInt::get keeps the low
    bits of the variant that fit the type [i<numNodes + 1>]. *)
Definition caseConstants (numNodes : Z) (canonicalVariants : list Z)
    : list ConstantInt :=
  (fun conditionVector =>
     mkConstantInt (numNodes + 1)
                   (wrap_unsigned (numNodes + 1) conditionVector))
    <$> canonicalVariants.

(** The switch over one subtree: its condition vector, then per leaf
    descriptor the target block (a nested switch while [nestedSwitches]
    is positive, the constant leaf index otherwise) and the case
    constants of its variants.  [None]: a lookup throws or an assertion
    fails. *)
Fixpoint emitSubtreeSwitchesRecursively (tree : gmap Z TreeNode)
    (switchRootNodeIdx switchLevels : Z) (nestedSwitches : nat)
    : option SwitchCode :=
  let numNodes := TreeNodes switchLevels in
  let numContinuations := PowerOf2 switchLevels in
  '(conditionVector, subtreeNodeIdxBitOffsets) ←
     emitComputeConditionVector tree switchRootNodeIdx switchLevels
                                numNodes ∅;
  leafNodePathBitsMaps ←
     buildSubtreeLeafNodePathsBitsMapsRecursively
       tree switchRootNodeIdx (Z.to_nat switchLevels)
       subtreeNodeIdxBitOffsets [];
  if Z.of_nat (length leafNodePathBitsMaps) =? numContinuations then
    targets ← mapM (fun leafNodeInfo : Z * gmap Z bool =>
        let leafNodeIdx := leafNodeInfo.1 in
        let pathBitsMap := leafNodeInfo.2 in
        nodeBB ← match nestedSwitches with
                 | S nested =>
                     StoreSubSwitch <$>
                       emitSubtreeSwitchesRecursively
                         tree leafNodeIdx switchLevels nested
                 | O => Some (StoreLeafIdx leafNodeIdx)
                 end;
        let conditionVectorTemplate :=
          buildFixedConditionVectorTemplate pathBitsMap in
        canonicalVariants ←
          buildCanonicalConditionVectorVariants
            numNodes conditionVectorTemplate pathBitsMap [];
        Some (nodeBB, caseConstants numNodes canonicalVariants))
      leafNodePathBitsMaps;
    Some (SwitchInst conditionVector targets)
  else None.

(** [None] also when the assertion on the two depths fails. *)
Definition emitSubtreeEvaluation (tree : gmap Z TreeNode)
    (rootNodeIdx subtreeLevels switchLevels : Z) : option SwitchCode :=
  if Z.rem subtreeLevels switchLevels =? 0 then
    emitSubtreeSwitchesRecursively tree rootNodeIdx switchLevels
      (Z.to_nat (to_int (Z.quot subtreeLevels switchLevels - 1)))
  else None.

(** ** Driver *)

Definition getNumCompiledEvaluators (treeDepth compiledFunctionDepth : Z) : Z :=
  let evaluatorDepth :=
    to_int (Z.quot (to_int (to_int (treeDepth + compiledFunctionDepth) - 1))
                   compiledFunctionDepth) in
  foldl (fun expectedEvaluators i =>
           to_int64 (expectedEvaluators
                     + PowerOf2 (to_int (compiledFunctionDepth * i))))
        0 (seqZ 0 evaluatorDepth).

(** The levels visited by
    [for (int level = 0; level < treeDepth; level += step)]; [None] when
    the fuel runs out, as it does for a step that is not positive. *)
Fixpoint evaluatorLevels (fuel : nat) (level treeDepth step : Z)
    : option (list Z) :=
  match fuel with
  | O => None
  | S fuel =>
      if level <? treeDepth
      then cons level <$> evaluatorLevels fuel (to_int (level + step))
                                          treeDepth step
      else Some []
  end.

(** The evaluators map filled from a list of node indices, in order. *)
Definition collectEvaluators (getEvaluatorFnPtr : Z -> SubtreeEvaluator_f)
    (nodes : list Z) : gmap Z SubtreeEvaluator_f :=
  foldl (fun evaluators nodeIdx =>
           <[nodeIdx := getEvaluatorFnPtr nodeIdx]> evaluators)
        ∅ nodes.

Definition loadEvaluators (getEvaluatorFnPtr : Z -> SubtreeEvaluator_f)
    (tree : gmap Z TreeNode) (treeDepth nodeLevelsPerFunction : Z)
    : option (gmap Z SubtreeEvaluator_f) :=
  let expectedEvaluators :=
    getNumCompiledEvaluators treeDepth nodeLevelsPerFunction in
  levels ← evaluatorLevels (S (Z.to_nat treeDepth)) 0 treeDepth
                           nodeLevelsPerFunction;
  let evaluators :=
    collectEvaluators getEvaluatorFnPtr
      (levels ≫= fun level =>
         let firstNodeIdxOnLevel := TreeNodes level in
         let numNodesOnLevel := PowerOf2 level in
         (fun offset => to_int64 (firstNodeIdxOnLevel + offset))
           <$> seqZ 0 numNodesOnLevel) in
  if expectedEvaluators =? Z.of_nat (size evaluators)
  then Some evaluators else None.

(** The composing loop of compileEvaluators: every node of every
    evaluator level gets a function; [processedNodes] grows at its
    front.  The verifier runs on each function and its verdict is
    dropped, as in the source. *)
Definition composeEvaluators (verifyFunction : SwitchCode -> bool)
    (tree : gmap Z TreeNode)
    (treeDepth nodeLevelsPerFunction nodeLevelsPerSwitch : Z)
    : option (gmap Z SwitchCode * list Z) :=
  levels ← evaluatorLevels (S (Z.to_nat treeDepth)) 0 treeDepth
                           nodeLevelsPerFunction;
  foldl (fun acc nodeIdx =>
           '(module, processedNodes) ← acc;
           node ← tree !! nodeIdx;
           evalFn ← emitSubtreeEvaluation tree nodeIdx nodeLevelsPerFunction
                                          nodeLevelsPerSwitch;
           let broken := verifyFunction evalFn in
           Some (<[nodeIdx := evalFn]> module, nodeIdx :: processedNodes))
        (Some (∅, []))
        (levels ≫= fun level =>
           let firstIdxOnLevel := TreeNodes level in
           let firstIdxOnNextLevel := TreeNodes (to_int (level + 1)) in
           seqZ firstIdxOnLevel (firstIdxOnNextLevel - firstIdxOnLevel)).

Section Resolver.

(** The [llvm.log] intrinsic on [float]. *)
Variable llvm_log : spec_float -> spec_float.

(** *** Single-node evaluation *)

Definition emitOperator (op : OperationType) (value : spec_float)
    : spec_float :=
  match op with
  | Bypass => value
  | Sqrt => SFsqrt float_prec float_emax value
  | Ln => llvm_log value
  end.

(** [fcmp olt] and [fcmp ogt]: ordered comparisons. *)
Definition emitComparison (comp : ComparatorType) (bias : spec_float)
    (value : spec_float) : bool :=
  match comp with
  | LessThan =>
      match SFcompare value bias with Some Lt => true | _ => false end
  | GreaterThan =>
      match SFcompare value bias with Some Gt => true | _ => false end
  end.

(** The GEP takes the feature index as a 32-bit constant; a load past
    the end of the data set is [None]. *)
Definition emitSingleNodeEvaluaton (node : TreeNode)
    (dataSet : list spec_float) : option bool :=
  dataSetFeatureVal ←
    dataSet !! Z.to_nat (to_unsigned (DataSetFeatureIdx node));
  let comparableFeatureVal := emitOperator (Op node) dataSetFeatureVal in
  Some (emitComparison (Comp node) (Bias node) comparableFeatureVal).

(** *** Running emitted code *)

(** The slot starts at 0; each node's bit is widened to the slot's
    type, shifted and or-ed in. *)
Definition runConditionVector (code : ConditionVectorCode)
    (dataSet : list spec_float) : option Z :=
  foldl (fun acc (bitCode : TreeNode * Z) =>
           conditionVectorOld ← acc;
           evalResultBit ← emitSingleNodeEvaluaton bitCode.1 dataSet;
           let evalResultInt := Z.b2z evalResultBit in
           let vectorBit :=
             wrap_unsigned (cvTy code) (Z.shiftl evalResultInt bitCode.2) in
           Some (Z.lor conditionVectorOld vectorBit))
        (Some 0) (cvBits code).

Definition caseMatches (conditionVectorVal : Z) (cases : list ConstantInt)
    : bool :=
  existsb (fun caseVal => intVal caseVal =? conditionVectorVal) cases.

(** The switch jumps to the first target with a matching case and
    runs its block; with no match it reaches the return block, whose
    load reads a slot that was never written ([None]). *)
Definition dispatchTargets (runSub : SwitchCode -> option Z)
    (conditionVectorVal : Z)
    : list (NodeBlock * list ConstantInt) -> option Z :=
  fix dispatch targets :=
    match targets with
    | [] => None
    | (nodeBB, cases) :: targets =>
        if caseMatches conditionVectorVal cases then
          match nodeBB with
          | StoreLeafIdx leafNodeIdx => Some leafNodeIdx
          | StoreSubSwitch sub => runSub sub
          end
        else dispatch targets
    end.

Fixpoint runSwitch (code : SwitchCode) (dataSet : list spec_float)
    : option Z :=
  match code with
  | SwitchInst cv targets =>
      conditionVectorVal ← runConditionVector cv dataSet;
      dispatchTargets (fun sub => runSwitch sub dataSet)
                      conditionVectorVal targets
  end.

(** *** The JIT *)

(** Modelled from the spec: SimpleOrcJit is not part of the sources.
    After submission the host resolves nodeEvaluator_<i> to the
    function compiled from the code emitted under that name. *)
Definition getEvaluatorFnPtr (module : gmap Z SwitchCode) (nodeIdx : Z)
    : SubtreeEvaluator_f :=
  fun dataSet => evalFn ← module !! nodeIdx; runSwitch evalFn dataSet.

(** [None]: an assertion fails or an exception leaves the function. *)
Definition compileEvaluators (verifyFunction : SwitchCode -> bool)
    (tree : gmap Z TreeNode)
    (treeDepth nodeLevelsPerFunction nodeLevelsPerSwitch : Z)
    : option (gmap Z SubtreeEvaluator_f) :=
  if Z.rem treeDepth nodeLevelsPerFunction =? 0 then
    let expectedEvaluators :=
      getNumCompiledEvaluators treeDepth nodeLevelsPerFunction in
    '(module, processedNodes) ←
       composeEvaluators verifyFunction tree treeDepth
                         nodeLevelsPerFunction nodeLevelsPerSwitch;
    let evaluators :=
      collectEvaluators (getEvaluatorFnPtr module) processedNodes in
    if expectedEvaluators =? Z.of_nat (size evaluators)
    then Some evaluators else None
  else None.

(** *** CompiledResolver::run *)

Inductive RunResult :=
| Returned (idx : Z)
| LookupFailed (idx : Z)
| Undefined
| OutOfFuel.

(** The loop of [run] from a current index: [CompiledEvaluators.at]
    throws on a missing key; [fuel] bounds the number of calls. *)
Fixpoint runFrom (fuel : nat)
    (CompiledEvaluators : gmap Z SubtreeEvaluator_f)
    (firstResultIdx : Z) (dataSet : list spec_float) (idx : Z)
    : RunResult :=
  if idx <? firstResultIdx then
    match fuel with
    | O => OutOfFuel
    | S fuel =>
        match CompiledEvaluators !! idx with
        | None => LookupFailed idx
        | Some compiledEvaluator =>
            match compiledEvaluator dataSet with
            | None => Undefined
            | Some next =>
                runFrom fuel CompiledEvaluators firstResultIdx dataSet
                        (to_int64 next)
            end
        end
    end
  else Returned idx.

Definition run (fuel : nat)
    (CompiledEvaluators : gmap Z SubtreeEvaluator_f)
    (tree : gmap Z TreeNode) (dataSet : list spec_float) : RunResult :=
  runFrom fuel CompiledEvaluators (Z.of_nat (size tree)) dataSet 0.

(** *** The reference traversal of the specification *)

(** The node predicate of section 3: v = input[featureIdx], w = op(v),
    true iff comparator(w, bias) holds. *)
Definition nodePredicate_spec (node : TreeNode)
    (input : list spec_float) : option bool :=
  v ← input !! Z.to_nat (DataSetFeatureIdx node);
  let w := match Op node with
           | Bypass => v
           | Sqrt => SFsqrt float_prec float_emax v
           | Ln => llvm_log v
           end in
  Some (match Comp node with
        | LessThan => SFltb w (Bias node)
        | GreaterThan => SFltb (Bias node) w
        end).

(** Start at an index, take the true child 2i+2 when the predicate
    holds and the false child 2i+1 otherwise, until the index is a
    leaf, that is not below N. *)
Fixpoint interpret_spec (fuel : nat) (tree : gmap Z TreeNode) (N : Z)
    (input : list spec_float) (i : Z) : option Z :=
  if i <? N then
    match fuel with
    | O => None
    | S fuel =>
        node ← tree !! i;
        holds ← nodePredicate_spec node input;
        interpret_spec fuel tree N input
                       (if holds : bool then 2 * i + 2 else 2 * i + 1)
    end
  else Some i.

(** [r] steps of the reference traversal from an index. *)
Fixpoint descend (tree : gmap Z TreeNode) (input : list spec_float)
    (r : nat) (i : Z) : option Z :=
  match r with
  | O => Some i
  | S r =>
      node ← tree !! i;
      holds ← nodePredicate_spec node input;
      descend tree input r (if holds : bool then 2 * i + 2 else 2 * i + 1)
  end.

End Resolver.

(** Every node of a tree of depth [D] reads a feature that the data set
    holds, at an index the 32-bit GEP constant can carry. *)
Definition featureInRange (tree : gmap Z TreeNode)
    (dataSet : list spec_float) (i : Z) : bool :=
  match tree !! i with
  | Some node =>
      (0 <=? DataSetFeatureIdx node)
      && (DataSetFeatureIdx node <? Z.of_nat (length dataSet))
      && (DataSetFeatureIdx node <? 2 ^ 32)
  | None => false
  end.

Definition featuresInRange (D : Z) (tree : gmap Z TreeNode)
    (dataSet : list spec_float) : bool :=
  forallb (featureInRange tree dataSet) (seqZ 0 (2 ^ D - 1)).

(** ** Specification functions *)

(** The global index of the node at breadth-first offset [o] of the
    subtree rooted at [R]. *)
Definition subtreeIdx (R o : Z) : Z := R * 2 ^ Z.log2 (o + 1) + o.

Definition markDescriptor (o : Z) (bit : bool) (d : Z * gmap Z bool)
    : Z * gmap Z bool :=
  (d.1, <[o := bit]> (d.2)).

(** The leaf descriptors below offset [o], true child first. *)
Fixpoint leafDescriptors (R : Z) (remaining : nat) (o : Z)
    : list (Z * gmap Z bool) :=
  match remaining with
  | O => [(subtreeIdx R o, ∅)]
  | S r =>
      (markDescriptor o true <$> leafDescriptors R r (2 * o + 2))
      ++ (markDescriptor o false <$> leafDescriptors R r (2 * o + 1))
  end.

(** A perfect tree of depth [D]: its N = 2^D - 1 internal nodes sit at
    the indices [0, N), and the node at [i] has the false child 2i+1 and
    the true child 2i+2. *)
Definition perfectNode (tree : gmap Z TreeNode) (i : Z) : bool :=
  match tree !! i with
  | Some node =>
      (TrueChildNodeIdx node =? 2 * i + 2)
      && (FalseChildNodeIdx node =? 2 * i + 1)
  | None => false
  end.

Definition perfectTree (D : Z) (tree : gmap Z TreeNode) : bool :=
  (Z.of_nat (size tree) =? 2 ^ D - 1)
  && forallb (perfectNode tree) (seqZ 0 (2 ^ D - 1)).

(** A condition vector agrees with a path map when each fixed bit has
    the required value. *)
Definition agrees (c : Z) (m : gmap Z bool) : Prop :=
  forall b v, m !! b = Some v -> Z.testbit c b = v.

(** The offset reached from [o] after [r] levels, each step taking the
    true child 2o+2 when the bit of the node is set and the false child
    2o+1 otherwise. *)
Fixpoint walkOffset (c : Z) (r : nat) (o : Z) : Z :=
  match r with
  | O => o
  | S r => walkOffset c r (if Z.testbit c o then 2 * o + 2 else 2 * o + 1)
  end.

(** The required bits of a path map, read by increasing bit offset, that
    is from the subtree root down to the leaf. *)
Definition pathPattern (numNodes : Z) (m : gmap Z bool) : list bool :=
  omap (fun b => m !! b) (seqZ 0 numNodes).

(** All boolean combinations of a length, true first. *)
Fixpoint allPatterns (r : nat) : list (list bool) :=
  match r with
  | O => [[]]
  | S r => (cons true <$> allPatterns r) ++ (cons false <$> allPatterns r)
  end.

(** The variants of a vector over a list of free bits, the set bit
    first. *)
Fixpoint variantsOf (cv : Z) (bits : list Z) : list Z :=
  match bits with
  | [] => [cv]
  | b :: bits => variantsOf (Z.lor cv (2 ^ b)) bits ++ variantsOf cv bits
  end.

(** The integer with exactly the bits of a list set. *)
Definition orBits (bits : list Z) : Z :=
  foldr (fun b acc => Z.lor (2 ^ b) acc) 0 bits.

(** The canonical variants of one leaf descriptor, as the loop over the
    leaves in emitSubtreeSwitchesRecursively computes them. *)
Definition leafVariants (numNodes : Z) (d : Z * gmap Z bool)
    : option (list Z) :=
  buildCanonicalConditionVectorVariants
    numNodes (buildFixedConditionVectorTemplate (d.2)) (d.2) [].

(** The body of the loop over the leaves in
    emitSubtreeSwitchesRecursively: the target block of a leaf and its
    case constants. *)
Definition emitLeafTarget (tree : gmap Z TreeNode) (switchLevels : Z)
    (nestedSwitches : nat) (leafNodeInfo : Z * gmap Z bool)
    : option (NodeBlock * list ConstantInt) :=
  nodeBB ← match nestedSwitches with
           | S nested =>
               StoreSubSwitch <$>
                 emitSubtreeSwitchesRecursively
                   tree (leafNodeInfo.1) switchLevels nested
           | O => Some (StoreLeafIdx (leafNodeInfo.1))
           end;
  canonicalVariants ← leafVariants (TreeNodes switchLevels) leafNodeInfo;
  Some (nodeBB, caseConstants (TreeNodes switchLevels) canonicalVariants).

(** ** Sample trees *)

(** A positive binary32 number m * 2^e with a 24-bit mantissa. *)
Definition binary32 (m : positive) (e : Z) : spec_float :=
  S754_finite false m e.

Definition half : spec_float := binary32 8388608 (-24).
Definition quarter : spec_float := binary32 8388608 (-25).
Definition threeQuarters : spec_float := binary32 12582912 (-24).

Definition sampleNode (i : Z) (bias : spec_float) (featureIdx : Z) : TreeNode :=
  mkTreeNode bias Bypass LessThan featureIdx (2 * i + 2) (2 * i + 1).

(** The depth-2 tree of section 8: the root splits feature 0 at 0.5, its
    children at 0.25 and 0.75. *)
Definition sampleTree2 : gmap Z TreeNode :=
  list_to_map [(0, sampleNode 0 half 0);
               (1, sampleNode 1 quarter 0);
               (2, sampleNode 2 threeQuarters 0)].

(** A perfect tree of depth [D] whose nodes all split feature 0 at 0.5. *)
Definition uniformTree (D : Z) : gmap Z TreeNode :=
  list_to_map ((fun i => (i, sampleNode i half 0)) <$> seqZ 0 (2 ^ D - 1)).

(** ** The compiled-artifact contract *)

(** [r] lies exactly [fd] levels below [i] in the subtree of [i]. *)
Definition levelsBelow (fd i r : Z) : bool :=
  ((i + 1) * 2 ^ fd <=? r + 1) && (r + 1 <? (i + 2) * 2 ^ fd).

(** The evaluator registered at an internal index returns an index
    reached after exactly [fd] levels below it. *)
Definition evaluatorContract (D fd : Z)
    (evaluators : gmap Z SubtreeEvaluator_f) : Prop :=
  forall i evaluator dataSet,
    evaluators !! i = Some evaluator -> 0 <= i < 2 ^ D - 1 ->
    exists r, evaluator dataSet = Some r /\ levelsBelow fd i r = true.

(** The contract at one data set, which is what a call of [run] on
    that data set relies on: every registered evaluator of an internal
    index, called on the data set, returns an index reached after
    exactly [fd] levels below it. *)
Definition evaluatorContractAt (D fd : Z)
    (evaluators : gmap Z SubtreeEvaluator_f) (dataSet : list spec_float)
    : Prop :=
  forall i evaluator,
    evaluators !! i = Some evaluator -> 0 <= i < 2 ^ D - 1 ->
    exists r, evaluator dataSet = Some r /\ levelsBelow fd i r = true.

(** One evaluator per internal node on a level that is a multiple of
    [fd], and no others. *)
Definition evaluatorKeys (D fd : Z)
    (evaluators : gmap Z SubtreeEvaluator_f) : Prop :=
  forall i, is_Some (evaluators !! i)
            <-> 0 <= i < 2 ^ D - 1 /\ Z.log2 (i + 1) `mod` fd = 0.

(** The indices that the loop of [run] visits. *)
Inductive runReaches (evaluators : gmap Z SubtreeEvaluator_f)
    (firstResultIdx : Z) (dataSet : list spec_float) : Z -> Prop :=
| reaches_start : runReaches evaluators firstResultIdx dataSet 0
| reaches_step idx evaluator next :
    runReaches evaluators firstResultIdx dataSet idx ->
    idx < firstResultIdx ->
    evaluators !! idx = Some evaluator ->
    evaluator dataSet = Some next ->
    runReaches evaluators firstResultIdx dataSet (to_int64 next).

(** The total of section 3: the sum of 2^(k * functionDepth) for k from
    0 to D / functionDepth - 1. *)
Definition evaluatorTotal_spec (D fd : Z) : Z :=
  foldr Z.add 0 ((fun k => 2 ^ (k * fd)) <$> seqZ 0 (D `div` fd)).

(** The nodes on the levels 0, fd, 2 fd, ... below depth [D], level by
    level. *)
Definition evaluatorNodes (D fd : Z) : list Z :=
  ((fun j => j * fd) <$> seqZ 0 (D `div` fd))
    ≫= fun level => seqZ (2 ^ level - 1) (2 ^ level).

(** ** The IR verifier *)

(** The rule that llvm::verifyFunction applies to a switch instruction:
    every case constant has the type of the switch condition.  As in
    LLVM, the result is [true] when the function is broken. *)
Fixpoint verifySwitchTypes (code : SwitchCode) : bool :=
  match code with
  | SwitchInst cv targets =>
      existsb (fun target : NodeBlock * list ConstantInt =>
                 existsb (fun caseVal => negb (intTy caseVal =? cvTy cv))
                         (target.2)
                 || match target.1 with
                    | StoreLeafIdx _ => false
                    | StoreSubSwitch sub => verifySwitchTypes sub
                    end)
              targets
  end.

(** ** The constructor of CompiledResolver *)

Section Constructor.

Variable llvm_log : spec_float -> spec_float.
Variable verifyFunction : SwitchCode -> bool.

(** [isPowerOf2] of Utils.h, which is not part of the sources. *)
Variable isPowerOf2 : Z -> bool.

(** What the JIT resolves nodeEvaluator_<i> to after it has loaded the
    cached object file. *)
Variable cachedEvaluatorFnPtr : Z -> SubtreeEvaluator_f.

(** The evaluators that the constructor stores.  [inCache] is the
    outcome of the two isFileInCache tests; [tree.size() + 1] is a
    [size_t], the depth an [int].  [None]: an assertion fails. *)
Definition CompiledResolver_new (inCache : bool) (tree : gmap Z TreeNode)
    (functionDepth switchDepth : Z) : option (gmap Z SubtreeEvaluator_f) :=
  if isPowerOf2 (wrap_unsigned 64 (Z.of_nat (size tree) + 1)) then
    let treeDepth :=
      to_int (Log2 (wrap_unsigned 64 (Z.of_nat (size tree) + 1))) in
    if inCache
    then loadEvaluators cachedEvaluatorFnPtr tree treeDepth functionDepth
    else compileEvaluators llvm_log verifyFunction tree treeDepth
                           functionDepth switchDepth
  else None.

End Constructor.

(** The subtree of an evaluator has 2^fd - 1 internal nodes. *)
Definition evaluatorSubtreeNodes (fd : Z) : Z := 2 ^ fd - 1.

(** The levels 0, fd, 2 fd, ... below depth [D], for any positive
    step. *)
Definition evaluatorLevels_spec (D fd : Z) : list Z :=
  (fun j => j * fd) <$> seqZ 0 ((D + fd - 1) `div` fd).

(** ** Tree construction: DecisionTree.h *)

(** TreeNode::isLeaf; [None] when the assertion fails that a node has
    both children or none. *)
Definition isLeaf (node : TreeNode) : option bool :=
  if Bool.eqb (FalseChildNodeIdx node =? 0) (TrueChildNodeIdx node =? 0)
  then Some (FalseChildNodeIdx node =? 0)
  else None.

(** The four-argument constructor of TreeNode: the feature index
    becomes an [unsigned long], the child indices keep their default
    member initialisers. *)
Definition TreeNode_new (bias : spec_float) (op : OperationType)
    (comp : ComparatorType) (featureIdx : Z) : TreeNode :=
  mkTreeNode bias op comp (wrap_unsigned 64 featureIdx) 0 0.

(** The node that [operator[]] of the map creates for a new key: a
    value-initialised TreeNode, all fields zero. *)
Definition TreeNode_default : TreeNode :=
  mkTreeNode (S754_zero false) Bypass LessThan 0 0 0.

Definition setFalseChildNodesIdx (childIdx : Z) (node : TreeNode) : TreeNode :=
  mkTreeNode (Bias node) (Op node) (Comp node) (DataSetFeatureIdx node)
             (TrueChildNodeIdx node) childIdx.

Definition setTrueChildNodesIdx (childIdx : Z) (node : TreeNode) : TreeNode :=
  mkTreeNode (Bias node) (Op node) (Comp node) (DataSetFeatureIdx node)
             childIdx (FalseChildNodeIdx node).

(** The lambda of makeDecisionTree over the variables it captures by
    reference: the tree, [parentIdx] and [parentBranch].  The [int]
    parent index is converted to the key type [unsigned long]. *)
Definition registerChild (captured : gmap Z TreeNode * Z * Z) (childIdx : Z)
    : gmap Z TreeNode * Z * Z :=
  let '(tree, parentIdx, parentBranch) := captured in
  let key := wrap_unsigned 64 parentIdx in
  let parent := default TreeNode_default (tree !! key) in
  if parentBranch =? 0 then
    (<[key := setFalseChildNodesIdx childIdx parent]> tree, parentIdx, 1)
  else
    (<[key := setTrueChildNodesIdx childIdx parent]> tree,
     to_int (parentIdx + 1), 0).

Section MakeDecisionTree.

(** [std::log] on [float]. *)
Variable std_log : spec_float -> spec_float.

(** The values that makeRandomInt returns for the operation, the
    comparator and the feature index of the node made by the call of
    makeDecisionTreeNode with a given number; call 0 makes the root. *)
Variable randomOp : Z -> OperationType.
Variable randomComp : Z -> ComparatorType.
Variable randomFeatureIdx : Z -> Z.

Definition makeBalancedBias (op : OperationType) : spec_float :=
  match op with
  | Bypass => half
  | Sqrt => SFsqrt float_prec float_emax half
  | Ln => std_log half
  end.

Definition makeDecisionTreeNode (call : Z) : TreeNode :=
  let op := randomOp call in
  let comp := randomComp call in
  let featureIdx := to_int (randomFeatureIdx call) in
  let bias := makeBalancedBias op in
  TreeNode_new bias op comp featureIdx.

(** [nodes] is TreeSize(TreeDepth_), the number of nodes to make.  Node
    [i] comes from call [i] of makeDecisionTreeNode.  The progress
    output is left out, its test [i % percentStep == 0] is not: a
    remainder by zero is undefined ([None]). *)
Definition makeDecisionTree (nodes : Z) : option (gmap Z TreeNode) :=
  let tree := <[0 := makeDecisionTreeNode 0]> (∅ : gmap Z TreeNode) in
  let percentStep := nodes `div` 100 in
  '(tree, parentIdx, parentBranch) ←
    foldl (fun acc i =>
             '(tree, parentIdx, parentBranch) ← acc;
             let tree := <[i := makeDecisionTreeNode i]> tree in
             let captured := registerChild (tree, parentIdx, parentBranch) i in
             if percentStep =? 0 then None else Some captured)
          (Some (tree, 0, 0)) (seqZ 1 (nodes - 1));
  Some tree.

End MakeDecisionTree.

(** The node that construction leaves at index [i] once the nodes up to
    index [last] are registered: a child link is set when the child has
    been made. *)
Definition builtNode (node : TreeNode) (last i : Z) : TreeNode :=
  mkTreeNode (Bias node) (Op node) (Comp node) (DataSetFeatureIdx node)
             (if 2 * i + 2 <=? last then 2 * i + 2 else 0)
             (if 2 * i + 1 <=? last then 2 * i + 1 else 0).

(** ** Benchmark registration: main_benchmark.cpp *)

(** [std::to_string] of an [int]: its decimal digits, after a minus
    sign when it is negative. *)
Definition to_string (value : Z) : list ascii :=
  list_ascii_of_string (NilZero.string_of_int (Z.to_int value)).

(** [std::string::resize (n, c)] is [resize n c] on the characters. *)
Definition makeBenchmarkName (target : list ascii) (depth features : Z)
    : list ascii :=
  let name := target in
  let name := resize 20 " "%char name in
  let name := name ++ to_string depth in
  let name := resize 27 " "%char name in
  let name := name ++ to_string features in
  let name := resize 36 " "%char name in
  name.

(** A registered benchmark: its name, the function and the arguments
    bound to it, and the thread count. *)
Record Benchmark (Benchmark_f : Type) := mkBenchmark {
  benchName : list ascii;
  benchFn : Benchmark_f;
  benchId : Z;
  benchDepth : Z;
  benchFeatures : Z;
  benchThreads : Z
}.

Arguments mkBenchmark {Benchmark_f}.
Arguments benchName {Benchmark_f}.
Arguments benchFn {Benchmark_f}.
Arguments benchId {Benchmark_f}.
Arguments benchDepth {Benchmark_f}.
Arguments benchFeatures {Benchmark_f}.
Arguments benchThreads {Benchmark_f}.

(** addBenchmark over the global [BenchmarkId] and the registry of the
    benchmark library, to which RegisterBenchmark appends. *)
Definition addBenchmark {Benchmark_f : Type} (lambda : Benchmark_f)
    (name : list ascii) (depth features : Z)
    (state : Z * list (Benchmark Benchmark_f))
    : Z * list (Benchmark Benchmark_f) :=
  let '(BenchmarkId, registered) := state in
  (to_int (BenchmarkId + 1),
   registered ++ [mkBenchmark (makeBenchmarkName name depth features)
                              lambda BenchmarkId depth features 2]).

(** The two loops of main over the feature counts and the tree
    depths. *)
Definition registerBenchmarks {Benchmark_f : Type}
    (BenchmarkInterpreter : Benchmark_f)
    (treeDepths dataSetFeatures : list Z)
    (state : Z * list (Benchmark Benchmark_f))
    : Z * list (Benchmark Benchmark_f) :=
  foldl (fun state f =>
           foldl (fun state d =>
                    addBenchmark BenchmarkInterpreter
                      (list_ascii_of_string "Interpreter") d f state)
                 state treeDepths)
        state dataSetFeatures.

(** The registrations of main, with [BenchmarkId] starting at 0. *)
Definition main_benchmarks {Benchmark_f : Type}
    (BenchmarkInterpreter : Benchmark_f)
    : Z * list (Benchmark Benchmark_f) :=
  registerBenchmarks BenchmarkInterpreter
    [3; 4; 6; 8; 9; 12] [5; 10000] (0, []).

(** The header line that main prints, without its newline. *)
Definition benchmarkHeader : list ascii :=
  list_ascii_of_string "Target              Depth  Features".

(** The tree of section 8 with the node on the true side reading
    feature 1. *)
Definition sampleTreeTwoFeatures : gmap Z TreeNode :=
  list_to_map [(0, sampleNode 0 half 0);
               (1, sampleNode 1 quarter 0);
               (2, sampleNode 2 threeQuarters 1)].

(** The pairs (depth, features) in the order in which the loops of
    main reach them: feature counts outside, tree depths inside. *)
Definition benchmarkConfigurations (treeDepths dataSetFeatures : list Z)
    : list (Z * Z) :=
  dataSetFeatures ≫= fun f => (fun d => (d, f)) <$> treeDepths.

(** Every path through the code passes [levels] nested switches below
    the first one and then stores a constant index. *)
Fixpoint switchNesting (levels : nat) (code : SwitchCode) {struct code}
    : bool :=
  match code with
  | SwitchInst _ targets =>
      forallb (fun target : NodeBlock * list ConstantInt =>
                 match target.1, levels with
                 | StoreLeafIdx _, O => true
                 | StoreSubSwitch sub, S levels' => switchNesting levels' sub
                 | _, _ => false
                 end)
              targets
  end.

(** ** Machine-integer facts *)

Lemma to_int64_small z : - 2 ^ 63 <= z < 2 ^ 63 -> to_int64 z = z.
Proof.
  intros H. unfold to_int64, wrap_signed.
  change (64 - 1) with 63.
  rewrite Z.mod_small; lia.
Qed.

Lemma to_int_small z : - 2 ^ 31 <= z < 2 ^ 31 -> to_int z = z.
Proof.
  intros H. unfold to_int, wrap_signed.
  change (32 - 1) with 31.
  rewrite Z.mod_small; lia.
Qed.

Lemma to_unsigned_small z : 0 <= z < 2 ^ 32 -> to_unsigned z = z.
Proof. intros H. unfold to_unsigned, wrap_unsigned. apply Z.mod_small; lia. Qed.

Lemma to_unsigned_range z : 0 <= to_unsigned z < 2 ^ 32.
Proof. unfold to_unsigned, wrap_unsigned. apply Z.mod_pos_bound. lia. Qed.

Lemma pow2_le_mono a b : 0 <= a <= b -> 2 ^ a <= 2 ^ b.
Proof. intros H. apply Z.pow_le_mono_r; lia. Qed.

Lemma pow2_pos a : 0 <= a -> 0 < 2 ^ a.
Proof. intros H. apply Z.pow_pos_nonneg; lia. Qed.

Lemma PowerOf2_small e : 0 <= e <= 62 -> PowerOf2 e = 2 ^ e.
Proof.
  intros H. unfold PowerOf2. apply to_int64_small.
  pose proof (pow2_pos e ltac:(lia)).
  pose proof (pow2_le_mono e 62 ltac:(lia)). lia.
Qed.

Lemma TreeNodes_small e : 0 <= e <= 62 -> TreeNodes e = 2 ^ e - 1.
Proof.
  intros H. unfold TreeNodes. rewrite PowerOf2_small by done.
  apply to_int64_small.
  pose proof (pow2_pos e ltac:(lia)).
  pose proof (pow2_le_mono e 62 ltac:(lia)). lia.
Qed.

(** The level of an index and the offset on its level. *)
Lemma level_bounds i : 0 <= i -> 2 ^ Z.log2 (i + 1) <= i + 1 < 2 ^ (Z.log2 (i + 1) + 1).
Proof.
  intros H. pose proof (Z.log2_spec (i + 1) ltac:(lia)).
  rewrite <- Z.add_1_r in H0. lia.
Qed.

Lemma log2_unique' a l : 0 <= l -> 2 ^ l <= a < 2 ^ (l + 1) -> Z.log2 a = l.
Proof. intros Hl H. apply Z.log2_unique; [done|]. rewrite Z.add_1_r in H. lia. Qed.

(** ** Index arithmetic *)

Section IndexArithmetic.

(** Within its ranges the formula collapses to R * 2^l + bitOffset. *)
Lemma nodeIdxFormula_closed R b :
  nodeIdxFormula R b = R * 2 ^ Z.log2 (b + 1) + b.
Proof.
  unfold nodeIdxFormula. cbv zeta.
  rewrite Z.pow_add_r by apply Z.log2_nonneg. lia.
Qed.

Lemma offset_level_bound k b :
  0 <= k -> 0 <= b < 2 ^ k - 1 -> 0 <= Z.log2 (b + 1) < k.
Proof.
  intros Hk Hb. split; [apply Z.log2_nonneg|].
  apply Z.log2_lt_pow2; lia.
Qed.

Lemma getNodeIdx_formula R k b :
  0 <= R -> 0 <= b < 2 ^ 32 - 1 ->
  Z.log2 (R + 1) + Z.log2 (b + 1) <= 61 ->
  getNodeIdxForSubtreeBitOffset R k b = nodeIdxFormula R b.
Proof.
  intros HR Hb Hlev.
  rewrite nodeIdxFormula_closed.
  unfold getNodeIdxForSubtreeBitOffset, Log2. cbv zeta.
  pose proof (level_bounds R HR) as [HR1 HR2].
  pose proof (level_bounds b ltac:(lia)) as [Hb1 Hb2].
  pose proof (Z.log2_nonneg (R + 1)) as HL0.
  pose proof (Z.log2_nonneg (b + 1)) as Hl0.
  set (L := Z.log2 (R + 1)) in *.
  set (l := Z.log2 (b + 1)) in *.
  assert (Hl31 : l <= 31).
  { assert (l < 32); [|lia]. apply Z.log2_lt_pow2; lia. }
  pose proof (pow2_le_mono (L + 1) 62 ltac:(lia)) as HpL.
  pose proof (pow2_le_mono (l + 1) 32 ltac:(lia)) as Hpl.
  pose proof (pow2_pos L HL0) as HpL0.
  pose proof (pow2_pos l Hl0) as Hpl0.
  assert (HLl : 2 ^ (L + 1) * 2 ^ l <= 2 ^ 62).
  { rewrite <- Z.pow_add_r by lia. apply pow2_le_mono. lia. }
  assert (H2L : 2 ^ (L + 1) = 2 * 2 ^ L) by (rewrite Z.pow_add_r by lia; lia).
  assert (H2l : 2 ^ (l + 1) = 2 * 2 ^ l) by (rewrite Z.pow_add_r by lia; lia).
  rewrite (to_int64_small (R + 1)) by lia.
  rewrite (to_unsigned_small (b + 1)) by lia.
  fold L l.
  rewrite (to_int_small L) by lia.
  rewrite (to_int_small l) by lia.
  rewrite (to_int_small (L + l)) by lia.
  rewrite !TreeNodes_small by lia.
  rewrite !PowerOf2_small by lia.
  rewrite Z.pow_add_r by lia.
  rewrite (to_int64_small (R - _)) by lia.
  rewrite (to_int64_small (2 ^ l - 1)) by lia.
  rewrite (to_int64_small (b - _)) by lia.
  rewrite (to_int_small (b - _)) by lia.
  assert (0 <= (R - (2 ^ L - 1)) * 2 ^ l < 2 ^ L * 2 ^ l) by nia.
  rewrite (to_int64_small (_ * _)) by nia.
  rewrite (to_int64_small (_ + _ * _)) by nia.
  rewrite to_int64_small by nia.
  lia.
Qed.

Lemma nodeIdx_strict_mono R b b' :
  0 <= R -> 0 <= b < b' ->
  R * 2 ^ Z.log2 (b + 1) + b < R * 2 ^ Z.log2 (b' + 1) + b'.
Proof.
  intros HR Hb.
  assert (2 ^ Z.log2 (b + 1) <= 2 ^ Z.log2 (b' + 1)).
  { apply pow2_le_mono. split; [apply Z.log2_nonneg|].
    apply Z.log2_le_mono. lia. }
  nia.
Qed.

Lemma inSubtree_range n : forall R i l,
  0 <= l < Z.of_nat n ->
  (R + 1) * 2 ^ l <= i + 1 < (R + 2) * 2 ^ l ->
  inSubtree n R i = true.
Proof.
  induction n as [|n IH]; intros R i l Hl Hi; [lia|].
  cbn [inSubtree].
  destruct (decide (l = 0)) as [->|Hne].
  - change (2 ^ 0) with 1 in Hi.
    replace (i =? R) with true by (symmetry; apply Z.eqb_eq; lia). done.
  - assert (Hp : 2 ^ l = 2 * 2 ^ (l - 1)).
    { rewrite <- Z.pow_succ_r by lia. f_equal. lia. }
    rewrite Hp in Hi.
    destruct (decide (i + 1 < (2 * R + 3) * 2 ^ (l - 1))) as [Hlt|Hge].
    + rewrite (IH (2 * R + 1) i (l - 1)) by lia.
      rewrite orb_true_r. done.
    + rewrite (IH (2 * R + 2) i (l - 1)) by lia.
      apply orb_true_r.
Qed.

End IndexArithmetic.

(** C4: on a subtree of k levels rooted at R whose nodes have [int64_t]
    indices and whose bit offsets fit [unsigned],
    getNodeIdxForSubtreeBitOffset computes the formula of section 4.1,
    and over the bit offsets 0 .. 2^k - 2 it yields 2^k - 1 pairwise
    distinct global indices, all inside the subtree rooted at R. *)
Theorem getNodeIdxForSubtreeBitOffset_subtree (R k : Z) :
  0 <= R -> 0 <= k <= 32 -> Z.log2 (R + 1) + k <= 62 ->
  (forall b, 0 <= b < 2 ^ k - 1 ->
     getNodeIdxForSubtreeBitOffset R k b = nodeIdxFormula R b)
  /\ length (subtreeNodeIdxs R k) = Z.to_nat (2 ^ k - 1)
  /\ NoDup (subtreeNodeIdxs R k)
  /\ (forall i, i ∈ subtreeNodeIdxs R k -> inSubtree (Z.to_nat k) R i = true).
Proof.
  intros HR Hk Hfit.
  assert (Hb32 : forall b, 0 <= b < 2 ^ k - 1 -> 0 <= b < 2 ^ 32 - 1).
  { intros b Hb. pose proof (pow2_le_mono k 32 ltac:(lia)). lia. }
  assert (Hform : forall b, 0 <= b < 2 ^ k - 1 ->
            getNodeIdxForSubtreeBitOffset R k b = nodeIdxFormula R b).
  { intros b Hb. apply getNodeIdx_formula; [done|auto|].
    pose proof (offset_level_bound k b ltac:(lia) Hb). lia. }
  split; [exact Hform|].
  unfold subtreeNodeIdxs. split; [|split].
  - rewrite length_fmap, length_seqZ. done.
  - apply NoDup_fmap_2_strong; [|apply NoDup_seqZ].
    intros b b' Hb Hb' Heq.
    apply elem_of_seqZ in Hb, Hb'.
    rewrite !Hform, !nodeIdxFormula_closed in Heq by lia.
    destruct (Z.lt_trichotomy b b') as [Hlt|[->|Hgt]]; [|done|].
    + pose proof (nodeIdx_strict_mono R b b' HR ltac:(lia)). lia.
    + pose proof (nodeIdx_strict_mono R b' b HR ltac:(lia)). lia.
  - intros i Hi. apply list_elem_of_fmap in Hi as (b & -> & Hb).
    apply elem_of_seqZ in Hb.
    rewrite Hform, nodeIdxFormula_closed by lia.
    pose proof (offset_level_bound k b ltac:(lia) ltac:(lia)) as Hl.
    pose proof (level_bounds b ltac:(lia)) as [Hb1 Hb2].
    rewrite Z.pow_add_r in Hb2 by lia.
    apply (inSubtree_range _ _ _ (Z.log2 (b + 1))); [lia|].
    change (2 ^ 1) with 2 in Hb2. nia.
Qed.

Lemma getNodeIdxForSubtreeBitOffset_subtree_witness :
  getNodeIdxForSubtreeBitOffset 4 2 2 = nodeIdxFormula 4 2
  /\ subtreeNodeIdxs 4 2 = [4; 9; 10].
Proof.
  pose proof (getNodeIdxForSubtreeBitOffset_subtree 4 2
                ltac:(lia) ltac:(lia) ltac:(vm_compute; discriminate))
    as [Hf _].
  split; [apply Hf; lia | vm_compute; reflexivity].
Defined.

(** ** Path-bitmap builder *)

Section MarkPathBits.

Implicit Types (pre new : list (Z * gmap Z bool)).

Lemma markPathBits_prefix off bit pre new (j : nat) :
  (j <= length new)%nat ->
  Z.of_nat (length pre + length new) < 2 ^ 64 ->
  markPathBits off bit (Z.of_nat j) (pre ++ new)
  = Some (pre ++ take (length new - j) new
              ++ (markDescriptor off bit <$> drop (length new - j) new)).
Proof.
  intros Hj Hlen. induction j as [|j IH].
  - unfold markPathBits. cbn.
    rewrite Nat.sub_0_r, firstn_all, drop_all. cbn.
    by rewrite app_nil_r.
  - unfold markPathBits in *.
    rewrite seqZ_S, foldl_snoc, IH by lia. cbn.
    unfold setPathBit.
    assert (Hl : length (pre ++ take (length new - j) new
                   ++ (markDescriptor off bit <$> drop (length new - j) new))
                 = (length pre + length new)%nat).
    { rewrite !length_app, length_fmap, length_take, length_drop. lia. }
    rewrite Hl.
    unfold wrap_unsigned. rewrite Z.mod_small by lia.
    replace (Z.to_nat (Z.of_nat (length pre + length new) - (0 + Z.of_nat j) - 1))
      with (length pre + (length new - S j))%nat by lia.
    destruct (lookup_lt_is_Some_2 new (length new - S j) ltac:(lia))
      as [entry Hentry].
    assert (Htake : take (length new - j) new
                    = take (length new - S j) new ++ [entry]).
    { replace (length new - j)%nat with (S (length new - S j)) by lia.
      by apply take_S_r. }
    assert (Hdrop : drop (length new - S j) new
                    = entry :: drop (length new - j) new).
    { replace (length new - j)%nat with (S (length new - S j)) by lia.
      by apply drop_S. }
    rewrite Htake, Hdrop, <- !app_assoc. cbn.
    rewrite lookup_app_r by lia.
    replace (length pre + (length new - S j) - length pre)%nat
      with (length (take (length new - S j) new) + 0)%nat
      by (rewrite length_take; lia).
    rewrite lookup_app_r by lia.
    rewrite Nat.add_sub_swap, Nat.sub_diag by lia. cbn.
    f_equal. rewrite insert_app_r_alt by lia. f_equal.
    rewrite insert_app_r_alt by (rewrite length_take; lia).
    f_equal.
    replace (length pre + (length new - S j) - length pre
             - length (take (length new - S j) new))%nat
      with 0%nat by (rewrite length_take; lia).
    done.
Qed.

Lemma markPathBits_suffix off bit pre new :
  Z.of_nat (length pre + length new) < 2 ^ 64 ->
  markPathBits off bit (Z.of_nat (length new)) (pre ++ new)
  = Some (pre ++ (markDescriptor off bit <$> new)).
Proof.
  intros Hlen.
  rewrite markPathBits_prefix by (done || lia).
  by rewrite Nat.sub_diag.
Qed.

End MarkPathBits.

Lemma perfectTree_size D tree :
  perfectTree D tree = true -> Z.of_nat (size tree) = 2 ^ D - 1.
Proof. unfold perfectTree. intros [H _]%andb_prop. lia. Qed.

Lemma perfectTree_node D tree i :
  perfectTree D tree = true -> 0 <= i < 2 ^ D - 1 ->
  exists node, tree !! i = Some node
    /\ TrueChildNodeIdx node = 2 * i + 2
    /\ FalseChildNodeIdx node = 2 * i + 1.
Proof.
  unfold perfectTree. intros [_ H]%andb_prop Hi.
  rewrite forallb_forall in H.
  specialize (H i). unfold perfectNode in H.
  destruct (tree !! i) as [node|].
  - exists node. split; [done|].
    assert (Hin : In i (seqZ 0 (2 ^ D - 1))).
    { apply list_elem_of_In, elem_of_seqZ. lia. }
    apply H in Hin. apply andb_prop in Hin as [H1 H2]. lia.
  - exfalso.
    assert (Hin : In i (seqZ 0 (2 ^ D - 1))).
    { apply list_elem_of_In, elem_of_seqZ. lia. }
    apply H in Hin. done.
Qed.

(** ** Offsets inside a subtree *)

Lemma log2_double_plus a : 0 < a -> Z.log2 (2 * a) = Z.log2 a + 1.
Proof. intros H. rewrite Z.log2_double by done. lia. Qed.

Lemma log2_child_false o : 0 <= o -> Z.log2 (2 * o + 1 + 1) = Z.log2 (o + 1) + 1.
Proof.
  intros H. replace (2 * o + 1 + 1) with (2 * (o + 1)) by lia.
  apply log2_double_plus. lia.
Qed.

Lemma log2_child_true o : 0 <= o -> Z.log2 (2 * o + 2 + 1) = Z.log2 (o + 1) + 1.
Proof.
  intros H. replace (2 * o + 2 + 1) with (2 * (o + 1) + 1) by lia.
  rewrite Z.log2_succ_double by lia. lia.
Qed.

Lemma subtreeIdx_root R : subtreeIdx R 0 = R.
Proof.
  unfold subtreeIdx. change (Z.log2 (0 + 1)) with 0.
  change (2 ^ 0) with 1. lia.
Qed.

Lemma subtreeIdx_false R o :
  0 <= o -> subtreeIdx R (2 * o + 1) = 2 * subtreeIdx R o + 1.
Proof.
  intros H. unfold subtreeIdx. rewrite log2_child_false by done.
  rewrite Z.pow_add_r by (try apply Z.log2_nonneg; lia). lia.
Qed.

Lemma subtreeIdx_true R o :
  0 <= o -> subtreeIdx R (2 * o + 2) = 2 * subtreeIdx R o + 2.
Proof.
  intros H. unfold subtreeIdx. rewrite log2_child_true by done.
  rewrite Z.pow_add_r by (try apply Z.log2_nonneg; lia). lia.
Qed.

Lemma subtreeIdx_bounds R o :
  0 <= R -> 0 <= o ->
  2 ^ (Z.log2 (R + 1) + Z.log2 (o + 1)) <= subtreeIdx R o + 1
    < 2 ^ (Z.log2 (R + 1) + Z.log2 (o + 1) + 1).
Proof.
  intros HR Ho. unfold subtreeIdx.
  pose proof (level_bounds R HR) as [HR1 HR2].
  pose proof (level_bounds o Ho) as [Ho1 Ho2].
  pose proof (Z.log2_nonneg (R + 1)). pose proof (Z.log2_nonneg (o + 1)).
  rewrite (Z.pow_add_r _ _ 1), Z.pow_add_r by lia.
  rewrite Z.pow_add_r in HR2, Ho2 by lia.
  change (2 ^ 1) with 2 in *.
  pose proof (pow2_pos (Z.log2 (o + 1)) ltac:(lia)).
  nia.
Qed.

Lemma subtreeIdx_level R o :
  0 <= R -> 0 <= o ->
  Z.log2 (subtreeIdx R o + 1) = Z.log2 (R + 1) + Z.log2 (o + 1).
Proof.
  intros HR Ho. apply log2_unique'.
  - pose proof (Z.log2_nonneg (R + 1)). pose proof (Z.log2_nonneg (o + 1)). lia.
  - by apply subtreeIdx_bounds.
Qed.

Lemma subtreeIdx_nonneg R o : 0 <= R -> 0 <= o -> 0 <= subtreeIdx R o.
Proof.
  intros HR Ho. unfold subtreeIdx.
  pose proof (pow2_pos (Z.log2 (o + 1)) (Z.log2_nonneg _)). nia.
Qed.

Lemma subtreeIdx_strict_mono R o o' :
  0 <= R -> 0 <= o < o' -> subtreeIdx R o < subtreeIdx R o'.
Proof. apply nodeIdx_strict_mono. Qed.

Lemma subtreeIdx_inj R o o' :
  0 <= R -> 0 <= o -> 0 <= o' -> subtreeIdx R o = subtreeIdx R o' -> o = o'.
Proof.
  intros HR Ho Ho' Heq.
  destruct (Z.lt_trichotomy o o') as [Hlt|[->|Hgt]]; [|done|].
  - pose proof (subtreeIdx_strict_mono R o o' HR ltac:(lia)). lia.
  - pose proof (subtreeIdx_strict_mono R o' o HR ltac:(lia)). lia.
Qed.

Lemma getNodeIdx_subtreeIdx R k b :
  0 <= R -> 0 <= k <= 32 -> Z.log2 (R + 1) + k <= 62 ->
  0 <= b < 2 ^ k - 1 ->
  getNodeIdxForSubtreeBitOffset R k b = subtreeIdx R b.
Proof.
  intros HR Hk Hfit Hb.
  pose proof (pow2_le_mono k 32 ltac:(lia)).
  pose proof (offset_level_bound k b ltac:(lia) Hb).
  rewrite getNodeIdx_formula by lia.
  apply nodeIdxFormula_closed.
Qed.

Lemma length_leafDescriptors R r o :
  Z.of_nat (length (leafDescriptors R r o)) = 2 ^ Z.of_nat r.
Proof.
  revert o. induction r as [|r IH]; intros o; [done|].
  cbn [leafDescriptors].
  rewrite length_app, !length_fmap, Nat2Z.inj_add, !IH.
  rewrite Nat2Z.inj_succ, Z.pow_succ_r by lia. lia.
Qed.

Section Subtree.

Variables (tree : gmap Z TreeNode) (D R k : Z).
Hypothesis Hperfect : perfectTree D tree = true.
Hypothesis HD : D <= 62.
Hypothesis HR : 0 <= R.
Hypothesis Hk : 0 <= k.
Hypothesis Hfit : Z.log2 (R + 1) + k <= D.

Lemma subtree_internal o :
  0 <= o -> Z.log2 (o + 1) < k -> 0 <= subtreeIdx R o < 2 ^ D - 1.
Proof.
  intros Ho Hl. split; [by apply subtreeIdx_nonneg|].
  pose proof (subtreeIdx_bounds R o HR Ho) as [_ Hub].
  pose proof (Z.log2_nonneg (R + 1)). pose proof (Z.log2_nonneg (o + 1)).
  pose proof (pow2_le_mono (Z.log2 (R + 1) + Z.log2 (o + 1) + 1) D
                ltac:(lia)).
  lia.
Qed.

Lemma offset_internal o :
  0 <= o -> Z.log2 (o + 1) < k -> 0 <= o < 2 ^ k - 1.
Proof.
  intros Ho Hl. split; [done|].
  pose proof (level_bounds o Ho) as [_ Hub].
  pose proof (Z.log2_nonneg (o + 1)).
  pose proof (pow2_le_mono (Z.log2 (o + 1) + 1) k ltac:(lia)). lia.
Qed.

(** The condition-vector code lists the subtree's nodes by bit offset,
    and the offsets map sends every node index back to its offset. *)
Lemma emitComputeConditionVector_prefix (m0 : gmap Z Z) (n : nat) :
  k <= 32 -> Z.of_nat n <= 2 ^ k - 1 ->
  exists code offs,
    foldl (fun acc bitOffset =>
             '(code, bitOffsets) ← acc;
             let nodeIdx := getNodeIdxForSubtreeBitOffset R k bitOffset in
             let bitOffsets := <[nodeIdx := bitOffset]> bitOffsets in
             node ← tree !! nodeIdx;
             Some (mkConditionVectorCode (cvTy code)
                     (cvBits code ++ [(node, wrap_unsigned 6 bitOffset)]),
                   bitOffsets))
          (Some (mkConditionVectorCode 64 [], m0))
          (seqZ 0 (Z.of_nat n)) = Some (code, offs)
    /\ cvTy code = 64
    /\ length (cvBits code) = n
    /\ (forall b, 0 <= b < Z.of_nat n ->
          exists node, tree !! subtreeIdx R b = Some node
            /\ cvBits code !! Z.to_nat b = Some (node, wrap_unsigned 6 b))
    /\ (forall o, 0 <= o < Z.of_nat n -> offs !! subtreeIdx R o = Some o).
Proof.
  intros Hk32 Hn. induction n as [|n IH].
  - eexists _, _. split; [done|]. cbn. repeat split; intros; lia.
  - destruct IH as (code & offs & Heq & Hty & Hlen & Hbits & Hoffs); [lia|].
    rewrite seqZ_S, foldl_snoc, Heq. cbn.
    rewrite Z.add_0_l.
    assert (Hb : 0 <= Z.of_nat n < 2 ^ k - 1) by lia.
    rewrite getNodeIdx_subtreeIdx by lia.
    pose proof (offset_level_bound k _ Hk Hb) as Hlev.
    destruct (perfectTree_node D tree (subtreeIdx R (Z.of_nat n)) Hperfect
                (subtree_internal (Z.of_nat n) ltac:(lia) ltac:(lia)))
      as (node & Hnode & _).
    rewrite Hnode. cbn.
    eexists _, _. split; [done|]. cbn.
    split; [done|]. split; [rewrite length_app; cbn; lia|]. split.
    + intros b Hbn. destruct (decide (b = Z.of_nat n)) as [->|Hne].
      * exists node. split; [done|].
        rewrite lookup_app_r by lia.
        replace (Z.to_nat (Z.of_nat n) - length (cvBits code))%nat
          with 0%nat by lia. done.
      * destruct (Hbits b ltac:(lia)) as (node' & Hn' & Hl').
        exists node'. split; [done|].
        rewrite lookup_app_l by lia. done.
    + intros o Hon. destruct (decide (o = Z.of_nat n)) as [->|Hne].
      * apply lookup_insert_eq.
      * rewrite lookup_insert_ne; [apply Hoffs; lia|].
        intros Heq'. apply subtreeIdx_inj in Heq'; lia.
Qed.

Lemma emitComputeConditionVector_spec (m0 : gmap Z Z) :
  k <= 32 ->
  exists code offs,
    emitComputeConditionVector tree R k (2 ^ k - 1) m0 = Some (code, offs)
    /\ cvTy code = 64
    /\ Z.of_nat (length (cvBits code)) = 2 ^ k - 1
    /\ (forall b, 0 <= b < 2 ^ k - 1 ->
          exists node, tree !! subtreeIdx R b = Some node
            /\ cvBits code !! Z.to_nat b = Some (node, wrap_unsigned 6 b))
    /\ (forall o, 0 <= o < 2 ^ k - 1 -> offs !! subtreeIdx R o = Some o).
Proof.
  intros Hk32.
  pose proof (pow2_pos k Hk).
  destruct (emitComputeConditionVector_prefix m0 (Z.to_nat (2 ^ k - 1))
              Hk32 ltac:(lia))
    as (code & offs & Heq & Hty & Hlen & Hbits & Hoffs).
  rewrite Z2Nat.id in Heq, Hbits, Hoffs by lia.
  exists code, offs. repeat split; try done. lia.
Qed.

Variable offs : gmap Z Z.
Hypothesis Hoffs :
  forall o, 0 <= o < 2 ^ k - 1 -> offs !! subtreeIdx R o = Some o.

Lemma build_leafDescriptors (r : nat) : forall o result,
  0 <= o -> Z.log2 (o + 1) + Z.of_nat r = k -> k <= 31 ->
  Z.of_nat (length result) + 2 ^ Z.of_nat r < 2 ^ 64 ->
  buildSubtreeLeafNodePathsBitsMapsRecursively
    tree (subtreeIdx R o) r offs result
  = Some (result ++ leafDescriptors R r o).
Proof.
  induction r as [|r IH]; intros o result Ho Hlev Hk31 Hlen; [done|].
  cbn [buildSubtreeLeafNodePathsBitsMapsRecursively leafDescriptors].
  destruct (perfectTree_node D tree (subtreeIdx R o) Hperfect
              (subtree_internal o Ho ltac:(lia)))
    as (node & Hnode & Htrue & Hfalse).
  rewrite Hnode. cbn.
  rewrite (Hoffs o (offset_internal o Ho ltac:(lia))). cbn.
  rewrite Htrue, Hfalse, <- subtreeIdx_true, <- subtreeIdx_false by done.
  assert (Hpow : 2 ^ Z.of_nat (S r) = 2 * 2 ^ Z.of_nat r).
  { rewrite Nat2Z.inj_succ, Z.pow_succ_r by lia. done. }
  pose proof (Z.log2_nonneg (o + 1)).
  pose proof (pow2_le_mono (Z.of_nat (S r)) 31 ltac:(lia)).
  pose proof (pow2_pos (Z.of_nat r) ltac:(lia)).
  assert (Hcount : to_unsigned (PowerOf2 (Z.of_nat (S r))) `div` 2
                   = 2 ^ Z.of_nat r).
  { rewrite PowerOf2_small by lia. rewrite to_unsigned_small by lia.
    rewrite Hpow. rewrite Z.mul_comm, Z.div_mul by lia. done. }
  rewrite Hcount.
  rewrite IH; [|lia|rewrite log2_child_true by done; lia|done|lia]. cbn.
  rewrite <- (length_leafDescriptors R r (2 * o + 2)) at 1.
  rewrite markPathBits_suffix
    by (rewrite Nat2Z.inj_add, length_leafDescriptors; lia).
  cbn.
  rewrite IH; [|lia|rewrite log2_child_false by done; lia|done|].
  2:{ rewrite length_app, length_fmap, Nat2Z.inj_add,
        length_leafDescriptors. lia. }
  cbn.
  rewrite <- (length_leafDescriptors R r (2 * o + 1)) at 1.
  rewrite markPathBits_suffix.
  2:{ rewrite !length_app, length_fmap, !Nat2Z.inj_add,
        !length_leafDescriptors. lia. }
  by rewrite <- app_assoc.
Qed.

End Subtree.

(** ** Leaf descriptors *)

Lemma agrees_empty c : agrees c ∅.
Proof. intros b v H. by rewrite lookup_empty in H. Qed.

Lemma agrees_insert c o bit (m : gmap Z bool) :
  m !! o = None ->
  agrees c (<[o := bit]> m) <-> Z.testbit c o = bit /\ agrees c m.
Proof.
  intros Hnone. split.
  - intros H. split; [apply H, lookup_insert_eq|].
    intros b v Hb. apply H. rewrite lookup_insert_ne; [done|].
    intros ->. congruence.
  - intros [Ho H] b v Hb.
    destruct (decide (o = b)) as [->|Hne].
    + rewrite lookup_insert_eq in Hb. congruence.
    + rewrite lookup_insert_ne in Hb by done. by apply H.
Qed.

Lemma leafDescriptors_keys R r : forall o d b,
  0 <= o -> d ∈ leafDescriptors R r o -> is_Some (d.2 !! b) ->
  o <= b /\ Z.log2 (b + 1) < Z.log2 (o + 1) + Z.of_nat r.
Proof.
  induction r as [|r IH]; intros o d b Ho Hd Hb.
  - apply list_elem_of_singleton in Hd as ->. cbn in Hb.
    rewrite lookup_empty in Hb. by destruct Hb.
  - cbn [leafDescriptors] in Hd.
    assert (Hkey : forall o' bit d',
      (o' = 2 * o + 2 \/ o' = 2 * o + 1) ->
      d' ∈ leafDescriptors R r o' -> d = markDescriptor o bit d' ->
      o <= b /\ Z.log2 (b + 1) < Z.log2 (o + 1) + Z.of_nat (S r)).
    { intros o' bit d' Ho' Hd' ->. cbn in Hb.
      destruct (decide (o = b)) as [->|Hne]; [lia|].
      rewrite lookup_insert_ne in Hb by done.
      destruct (IH o' d' b ltac:(lia) Hd' Hb) as [H1 H2].
      assert (Z.log2 (o' + 1) = Z.log2 (o + 1) + 1) as Hl.
      { destruct Ho' as [-> | ->];
          [by apply log2_child_true | by apply log2_child_false]. }
      lia. }
    apply elem_of_app in Hd as [Hd|Hd];
      apply list_elem_of_fmap in Hd as (d' & -> & Hd'); eauto.
Qed.

Lemma leafDescriptors_fresh R r o o' d :
  0 <= o -> (o' = 2 * o + 2 \/ o' = 2 * o + 1) ->
  d ∈ leafDescriptors R r o' -> d.2 !! o = None.
Proof.
  intros Ho Ho' Hd. apply eq_None_not_Some. intros Hsome.
  destruct (leafDescriptors_keys R r o' d o ltac:(lia) Hd Hsome). lia.
Qed.

Lemma leafDescriptors_size R r : forall o d,
  0 <= o -> d ∈ leafDescriptors R r o -> size (d.2) = r.
Proof.
  induction r as [|r IH]; intros o d Ho Hd.
  - apply list_elem_of_singleton in Hd as ->. apply map_size_empty.
  - cbn [leafDescriptors] in Hd.
    apply elem_of_app in Hd as [Hd|Hd];
      apply list_elem_of_fmap in Hd as (d' & -> & Hd'); cbn.
    + rewrite map_size_insert_None
        by (by apply (leafDescriptors_fresh R r o (2 * o + 2)); [|left|]).
      f_equal. apply (IH (2 * o + 2)); [lia|done].
    + rewrite map_size_insert_None
        by (by apply (leafDescriptors_fresh R r o (2 * o + 1)); [|right|]).
      f_equal. apply (IH (2 * o + 1)); [lia|done].
Qed.

(** Exactly one descriptor agrees with a condition vector: the one of
    the leaf that the walk along the vector's bits reaches. *)
Lemma leafDescriptors_agree R r : forall o c,
  0 <= o ->
  exists i d,
    leafDescriptors R r o !! i = Some d
    /\ d.1 = subtreeIdx R (walkOffset c r o)
    /\ agrees c (d.2)
    /\ forall j d', leafDescriptors R r o !! j = Some d' ->
                    agrees c (d'.2) -> j = i.
Proof.
  induction r as [|r IH]; intros o c Ho.
  - exists 0%nat, (subtreeIdx R o, ∅). cbn.
    repeat split; [apply agrees_empty|].
    intros [|j] d' Hj _; [done|]. done.
  - cbn [leafDescriptors walkOffset].
    set (A := leafDescriptors R r (2 * o + 2)).
    set (B := leafDescriptors R r (2 * o + 1)).
    assert (HA : forall j d, A !! j = Some d -> d.2 !! o = None).
    { intros j d Hj. eapply (leafDescriptors_fresh R r o (2 * o + 2));
        [done|by left|]. eapply list_elem_of_lookup_2. exact Hj. }
    assert (HB : forall j d, B !! j = Some d -> d.2 !! o = None).
    { intros j d Hj. eapply (leafDescriptors_fresh R r o (2 * o + 1));
        [done|by right|]. eapply list_elem_of_lookup_2. exact Hj. }
    destruct (Z.testbit c o) eqn:Hbit.
    + destruct (IH (2 * o + 2) c ltac:(lia)) as (i & d & Hi & Hleaf & Hag & Huniq).
      fold A in Hi, Huniq.
      exists i, (markDescriptor o true d).
      assert (Hlt : (i < length A)%nat) by (by eapply lookup_lt_Some).
      split.
      { rewrite lookup_app_l by (by rewrite length_fmap).
        by rewrite list_lookup_fmap, Hi. }
      split; [done|]. split.
      { cbn. apply agrees_insert; eauto. }
      intros j d' Hj Hag'.
      destruct (decide (j < length A)%nat) as [Hjl|Hjl].
      * rewrite lookup_app_l in Hj by (by rewrite length_fmap).
        rewrite list_lookup_fmap in Hj.
        destruct (A !! j) as [d''|] eqn:Hj'; [|done].
        cbn in Hj. injection Hj as <-. cbn in Hag'.
        apply agrees_insert in Hag' as [_ Hag']; eauto.
      * rewrite lookup_app_r in Hj by (rewrite length_fmap; lia).
        rewrite list_lookup_fmap in Hj.
        destruct (B !! _) as [d''|] eqn:Hj'; [|done].
        cbn in Hj. injection Hj as <-. cbn in Hag'.
        apply agrees_insert in Hag' as [Hf _]; [congruence|eauto].
    + destruct (IH (2 * o + 1) c ltac:(lia)) as (i & d & Hi & Hleaf & Hag & Huniq).
      fold B in Hi, Huniq.
      exists (length A + i)%nat, (markDescriptor o false d).
      split.
      { rewrite lookup_app_r by (rewrite length_fmap; lia).
        rewrite length_fmap, list_lookup_fmap.
        replace (length A + i - length A)%nat with i by lia.
        by rewrite Hi. }
      split; [done|]. split.
      { cbn. apply agrees_insert; eauto. }
      intros j d' Hj Hag'.
      destruct (decide (j < length A)%nat) as [Hjl|Hjl].
      * rewrite lookup_app_l in Hj by (by rewrite length_fmap).
        rewrite list_lookup_fmap in Hj.
        destruct (A !! j) as [d''|] eqn:Hj'; [|done].
        cbn in Hj. injection Hj as <-. cbn in Hag'.
        apply agrees_insert in Hag' as [Hf _]; [congruence|eauto].
      * rewrite lookup_app_r in Hj by (rewrite length_fmap; lia).
        rewrite length_fmap, list_lookup_fmap in Hj.
        destruct (B !! (j - length A)%nat) as [d''|] eqn:Hj'; [|done].
        cbn in Hj. injection Hj as <-. cbn in Hag'.
        apply agrees_insert in Hag' as [_ Hag']; [|eauto].
        specialize (Huniq _ _ Hj' Hag'). lia.
Qed.

(** ** Bit patterns of the path maps *)

Lemma omap_all_None {A B} (f : A -> option B) (l : list A) :
  (forall x, x ∈ l -> f x = None) -> omap f l = [].
Proof.
  induction l as [|x l IH]; intros H; [done|]. cbn.
  rewrite (H x) by left. apply IH. intros y Hy. apply H. by right.
Qed.

Lemma pathPattern_empty n : pathPattern n ∅ = [].
Proof.
  unfold pathPattern. apply omap_all_None. intros b _. apply lookup_empty.
Qed.

Lemma pathPattern_insert n o v (m : gmap Z bool) :
  0 <= o < n -> (forall b, is_Some (m !! b) -> o < b) ->
  pathPattern n (<[o := v]> m) = v :: pathPattern n m.
Proof.
  intros Ho Hkeys. unfold pathPattern.
  replace n with (o + (1 + (n - o - 1))) by lia.
  rewrite seqZ_app, (seqZ_app _ 1) by lia.
  rewrite !omap_app, Z.add_0_l.
  assert (Hlow : forall m' : gmap Z bool,
            (forall b, is_Some (m' !! b) -> o <= b) ->
            omap (fun b => m' !! b) (seqZ 0 o) = []).
  { intros m' Hm'. apply omap_all_None. intros b Hb.
    apply elem_of_seqZ in Hb. apply eq_None_not_Some. intros Hs.
    apply Hm' in Hs. lia. }
  rewrite !Hlow.
  2:{ intros b Hb. apply Hkeys in Hb. lia. }
  2:{ intros b Hb. destruct (decide (o = b)) as [->|Hne]; [lia|].
      rewrite lookup_insert_ne in Hb by done. apply Hkeys in Hb. lia. }
  change (seqZ o 1) with [o]. cbn.
  rewrite lookup_insert_eq.
  assert (Hnone : m !! o = None).
  { apply eq_None_not_Some. intros Hs. apply Hkeys in Hs. lia. }
  rewrite Hnone. cbn. f_equal.
  apply list_omap_ext. apply Forall2_same_length_lookup_2; [done|].
  intros i b b' Hb Hb'. rewrite Hb in Hb'. injection Hb' as <-.
  apply lookup_seqZ in Hb as [-> _].
  rewrite lookup_insert_ne by lia. done.
Qed.

Lemma pathPattern_leafDescriptors R k r : forall o,
  0 <= o -> Z.log2 (o + 1) + Z.of_nat r <= k ->
  (fun d => pathPattern (2 ^ k - 1) (d.2)) <$> leafDescriptors R r o
  = allPatterns r.
Proof.
  induction r as [|r IH]; intros o Ho Hlev.
  - cbn. by rewrite pathPattern_empty.
  - cbn [leafDescriptors allPatterns].
    assert (Hrange : 0 <= o < 2 ^ k - 1).
    { pose proof (level_bounds o Ho) as [_ Hub].
      pose proof (Z.log2_nonneg (o + 1)).
      pose proof (pow2_le_mono (Z.log2 (o + 1) + 1) k ltac:(lia)). lia. }
    rewrite fmap_app, <- !list_fmap_compose.
    rewrite <- (IH (2 * o + 2)) at 1
      by (rewrite ?log2_child_true by done; lia).
    rewrite <- (IH (2 * o + 1))
      by (rewrite ?log2_child_false by done; lia).
    rewrite <- !list_fmap_compose.
    f_equal; apply list_fmap_ext; intros i d Hd; cbn;
      apply pathPattern_insert; try done; intros b Hb;
      apply list_elem_of_lookup_2 in Hd;
      [ destruct (leafDescriptors_keys R r (2 * o + 2) d b ltac:(lia) Hd Hb)
      | destruct (leafDescriptors_keys R r (2 * o + 1) d b ltac:(lia) Hd Hb) ];
      lia.
Qed.

Lemma allPatterns_complete r (p : list bool) :
  length p = r -> p ∈ allPatterns r.
Proof.
  revert p. induction r as [|r IH]; intros p Hp.
  - destruct p; [left|done].
  - destruct p as [|[] p]; [done| |]; cbn [allPatterns];
      apply elem_of_app; [left|right];
      apply list_elem_of_fmap; exists p; (split; [done|]);
      apply IH; cbn in Hp; lia.
Qed.

Lemma allPatterns_NoDup r : NoDup (allPatterns r).
Proof.
  induction r as [|r IH]; [apply NoDup_singleton|].
  cbn [allPatterns]. apply NoDup_app. split; [|split].
  - apply (NoDup_fmap_2 _). done.
  - intros p Hp Hp'.
    apply list_elem_of_fmap in Hp as (q & -> & _).
    apply list_elem_of_fmap in Hp' as (q' & Heq & _). done.
  - apply (NoDup_fmap_2 _). done.
Qed.

(** C3: on a subtree of k levels of a perfect tree, with the bit offsets
    that emitComputeConditionVector recorded,
    buildSubtreeLeafNodePathsBitsMapsRecursively appends exactly 2^k leaf
    descriptors, in the true-first, false-second recursive order; each
    path map has exactly k entries, and the patterns of the maps, read on
    their own bit sets, are the 2^k distinct boolean combinations. *)
Theorem buildSubtreeLeafNodePathsBitsMaps_descriptors
    (tree : gmap Z TreeNode) (D R k : Z) (code : ConditionVectorCode)
    (offs : gmap Z Z) (result : list (Z * gmap Z bool)) :
  perfectTree D tree = true -> D <= 62 ->
  0 <= R -> 0 <= k <= 31 -> Z.log2 (R + 1) + k <= D ->
  Z.of_nat (length result) + 2 ^ k < 2 ^ 64 ->
  emitComputeConditionVector tree R k (TreeNodes k) ∅ = Some (code, offs) ->
  exists descs,
    buildSubtreeLeafNodePathsBitsMapsRecursively
      tree R (Z.to_nat k) offs result = Some (result ++ descs)
    /\ Z.of_nat (length descs) = 2 ^ k
    /\ descs = leafDescriptors R (Z.to_nat k) 0
    /\ (forall d, d ∈ descs -> Z.of_nat (size (d.2)) = k)
    /\ NoDup ((fun d => pathPattern (TreeNodes k) (d.2)) <$> descs)
    /\ (forall p : list bool, Z.of_nat (length p) = k ->
          p ∈ (fun d => pathPattern (TreeNodes k) (d.2)) <$> descs).
Proof.
  intros Hperfect HD HR Hk Hfit Hlen Hemit.
  rewrite TreeNodes_small in * by lia.
  destruct (emitComputeConditionVector_spec tree D R k Hperfect HD HR
              ltac:(lia) Hfit ∅ ltac:(lia))
    as (code' & offs' & Hemit' & _ & _ & _ & Hoffs).
  rewrite Hemit in Hemit'. injection Hemit' as <- <-.
  exists (leafDescriptors R (Z.to_nat k) 0).
  assert (Hpat :
    (fun d => pathPattern (2 ^ k - 1) (d.2)) <$> leafDescriptors R (Z.to_nat k) 0
    = allPatterns (Z.to_nat k)).
  { apply pathPattern_leafDescriptors; [done|].
    change (Z.log2 (0 + 1)) with 0. lia. }
  split; [|split; [|split; [|split; [|split]]]].
  - rewrite <- (subtreeIdx_root R) at 1.
    apply (build_leafDescriptors tree D R k Hperfect HR ltac:(lia) Hfit
             offs Hoffs); [done| |lia|].
    + change (Z.log2 (0 + 1)) with 0. lia.
    + rewrite Z2Nat.id by lia. done.
  - rewrite length_leafDescriptors, Z2Nat.id by lia. done.
  - done.
  - intros d Hd. erewrite leafDescriptors_size; [|reflexivity|exact Hd]. lia.
  - rewrite Hpat. apply allPatterns_NoDup.
  - intros p Hp. rewrite Hpat. apply allPatterns_complete. lia.
Qed.

Lemma buildSubtreeLeafNodePathsBitsMaps_descriptors_witness :
  exists offs descs,
    buildSubtreeLeafNodePathsBitsMapsRecursively sampleTree2 0 2 offs []
    = Some ([] ++ descs)
    /\ Z.of_nat (length descs) = 2 ^ 2.
Proof.
  eexists.
  destruct (buildSubtreeLeafNodePathsBitsMaps_descriptors
              sampleTree2 2 0 2 _ _ []
              ltac:(vm_compute; reflexivity) ltac:(lia) ltac:(lia)
              ltac:(lia) ltac:(vm_compute; discriminate)
              ltac:(vm_compute; reflexivity) ltac:(vm_compute; reflexivity))
    as (descs & Hbuild & Hlen & _).
  exists descs. split; [exact Hbuild | exact Hlen].
Defined.

(** ** Bits of [unsigned] values *)

Lemma testbit_above c n m :
  0 <= c < 2 ^ n -> n <= m -> Z.testbit c m = false.
Proof.
  intros Hc Hnm.
  destruct (decide (c = 0)) as [->|Hne]; [apply Z.testbit_0_l|].
  destruct (decide (0 <= n)) as [Hn|Hn].
  - apply Z.bits_above_log2; [lia|].
    assert (Z.log2 c < n) by (apply Z.log2_lt_pow2; lia). lia.
  - rewrite Z.pow_neg_r in Hc by lia. lia.
Qed.

Lemma testbit_below c n :
  0 <= n -> 0 <= c -> (forall m, n <= m -> Z.testbit c m = false) -> c < 2 ^ n.
Proof.
  intros Hn Hc Hbits.
  destruct (decide (c = 0)) as [->|Hne]; [by apply pow2_pos|].
  apply Z.log2_lt_pow2; [lia|].
  destruct (decide (Z.log2 c < n)) as [|Hge]; [done|].
  pose proof (Z.bit_log2 c ltac:(lia)) as Hlog.
  rewrite Hbits in Hlog by lia. done.
Qed.

Lemma lor_range n a b :
  0 <= n -> 0 <= a < 2 ^ n -> 0 <= b < 2 ^ n -> 0 <= Z.lor a b < 2 ^ n.
Proof.
  intros Hn Ha Hb.
  assert (0 <= Z.lor a b) by (apply Z.lor_nonneg; lia).
  split; [done|]. apply testbit_below; [done..|].
  intros m Hm. rewrite Z.lor_spec.
  by rewrite (testbit_above a n m), (testbit_above b n m).
Qed.

Lemma shl_unsigned_one b : 0 <= b < 32 -> shl_unsigned 1 b = 2 ^ b.
Proof.
  intros Hb. unfold shl_unsigned. rewrite Z.shiftl_1_l.
  apply to_unsigned_small. pose proof (pow2_pos b ltac:(lia)).
  pose proof (pow2_le_mono b 31 ltac:(lia)). lia.
Qed.

Lemma shl_unsigned_zero b : shl_unsigned 0 b = 0.
Proof. unfold shl_unsigned. by rewrite Z.shiftl_0_l. Qed.

Lemma shl_unsigned_range x b : 0 <= shl_unsigned x b < 2 ^ 32.
Proof. apply to_unsigned_range. Qed.

Lemma pow2_range b : 0 <= b < 32 -> 0 <= 2 ^ b < 2 ^ 32.
Proof.
  intros Hb. pose proof (pow2_pos b ltac:(lia)).
  pose proof (pow2_le_mono b 31 ltac:(lia)). lia.
Qed.

Lemma not_unsigned_pow2_bits b n :
  0 <= b < 32 -> 0 <= n ->
  Z.testbit (not_unsigned (2 ^ b)) n = (n <? 32) && negb (b =? n).
Proof.
  intros Hb Hn. unfold not_unsigned, to_unsigned, wrap_unsigned.
  destruct (Z.ltb_spec n 32).
  - rewrite Z.mod_pow2_bits_low by lia.
    rewrite Z.lnot_spec by done. by rewrite Z.pow2_bits_eqb by lia.
  - by rewrite Z.mod_pow2_bits_high by lia.
Qed.

(** The assertion of the enumerator holds exactly when the bit to vary
    is still clear. *)
Lemma bit_clear_check cv b :
  0 <= cv < 2 ^ 32 -> 0 <= b < 32 -> Z.testbit cv b = false ->
  Z.land cv (not_unsigned (shl_unsigned 1 b)) = cv.
Proof.
  intros Hcv Hb Hbit. rewrite shl_unsigned_one by done.
  apply Z.bits_inj'. intros n Hn.
  rewrite Z.land_spec, not_unsigned_pow2_bits by done.
  destruct (Z.ltb_spec n 32).
  - destruct (Z.eqb_spec b n) as [<-|]; [by rewrite Hbit|].
    cbn. by rewrite andb_true_r.
  - rewrite (testbit_above cv 32 n) by lia. done.
Qed.

(** ** Variant enumerator *)

Lemma length_variantsOf bits : forall cv,
  Z.of_nat (length (variantsOf cv bits)) = 2 ^ Z.of_nat (length bits).
Proof.
  induction bits as [|b bits IH]; intros cv; [done|].
  cbn [variantsOf length]. rewrite length_app, Nat2Z.inj_add, !IH.
  rewrite Nat2Z.inj_succ, Z.pow_succ_r by lia. lia.
Qed.

Lemma orBits_nonneg S : (forall b, b ∈ S -> 0 <= b) -> 0 <= orBits S.
Proof.
  induction S as [|b S IH]; intros HS; [done|]. cbn.
  apply Z.lor_nonneg. split.
  - apply Z.lt_le_incl, pow2_pos, HS. left.
  - apply IH. intros b' Hb'. apply HS. by right.
Qed.

Lemma orBits_testbit S n :
  (forall b, b ∈ S -> 0 <= b) -> 0 <= n ->
  Z.testbit (orBits S) n = bool_decide (n ∈ S).
Proof.
  intros HS Hn. induction S as [|b S IH].
  - cbn. rewrite Z.testbit_0_l. symmetry. apply bool_decide_eq_false.
    apply not_elem_of_nil.
  - cbn [orBits foldr]. rewrite Z.lor_spec.
    rewrite Z.pow2_bits_eqb by (apply HS; left).
    fold (orBits S).
    rewrite IH by (intros b' Hb'; apply HS; by right).
    destruct (Z.eqb_spec b n) as [->|Hne].
    + cbn. symmetry. apply bool_decide_eq_true. left.
    + cbn. apply bool_decide_ext. split; [by right|].
      intros Hin. apply elem_of_cons in Hin as [->|]; done.
Qed.

(** Every variant is the start vector or-ed with a sublist of the free
    bits. *)
Lemma variantsOf_subset bits : forall cv c,
  c ∈ variantsOf cv bits ->
  exists S, S `sublist_of` bits /\ c = Z.lor cv (orBits S).
Proof.
  induction bits as [|b bits IH]; intros cv c Hc.
  - apply list_elem_of_singleton in Hc as ->.
    exists []. split; [done|]. cbn. by rewrite Z.lor_0_r.
  - cbn [variantsOf] in Hc. apply elem_of_app in Hc as [Hc|Hc].
    + destruct (IH _ _ Hc) as (S & HS & ->).
      exists (b :: S). split; [by constructor|].
      cbn. by rewrite Z.lor_assoc.
    + destruct (IH _ _ Hc) as (S & HS & ->).
      exists S. split; [by constructor|done].
Qed.

(** Membership by bits: a variant equals the start vector on every bit
    that is not free. *)
Lemma variantsOf_bits bits : forall cv c,
  NoDup bits -> (forall b, b ∈ bits -> 0 <= b /\ Z.testbit cv b = false) ->
  c ∈ variantsOf cv bits <->
  (forall n, 0 <= n -> n ∉ bits -> Z.testbit c n = Z.testbit cv n).
Proof.
  induction bits as [|b bits IH]; intros cv c Hnd Hclear.
  - cbn. rewrite list_elem_of_singleton. split.
    + by intros ->.
    + intros H. apply Z.bits_inj'. intros n Hn. apply H; [done|].
      apply not_elem_of_nil.
  - apply NoDup_cons in Hnd as [Hb Hnd].
    destruct (Hclear b ltac:(left)) as [Hb0 Hbit].
    assert (Hclear' : forall b', b' ∈ bits ->
              0 <= b' /\ Z.testbit cv b' = false).
    { intros b' Hb'. apply Hclear. by right. }
    assert (Hclear'' : forall b', b' ∈ bits ->
              0 <= b' /\ Z.testbit (Z.lor cv (2 ^ b)) b' = false).
    { intros b' Hb'. destruct (Hclear' b' Hb') as [H0 H1].
      split; [done|]. rewrite Z.lor_spec, H1, Z.pow2_bits_eqb by done.
      destruct (Z.eqb_spec b b') as [->|]; done. }
    cbn [variantsOf]. rewrite elem_of_app, !IH by done.
    split.
    + intros [H|H] n Hn Hnin; apply not_elem_of_cons in Hnin as [Hne Hnin].
      * rewrite H, Z.lor_spec, Z.pow2_bits_eqb by done.
        destruct (Z.eqb_spec b n); [done|]. by rewrite orb_false_r.
      * by apply H.
    + intros H. destruct (Z.testbit c b) eqn:Hcb.
      * left. intros n Hn Hnin.
        rewrite Z.lor_spec, Z.pow2_bits_eqb by done.
        destruct (Z.eqb_spec b n) as [<-|Hne].
        -- by rewrite orb_true_r.
        -- rewrite orb_false_r. apply H; [done|].
           by apply not_elem_of_cons.
      * right. intros n Hn Hnin.
        destruct (decide (n = b)) as [->|Hne]; [congruence|].
        apply H; [done|]. by apply not_elem_of_cons.
Qed.

Lemma variantsOf_NoDup bits : forall cv,
  NoDup bits -> (forall b, b ∈ bits -> 0 <= b /\ Z.testbit cv b = false) ->
  NoDup (variantsOf cv bits).
Proof.
  induction bits as [|b bits IH]; intros cv Hnd Hclear;
    [apply NoDup_singleton|].
  pose proof Hnd as Hnd0.
  apply NoDup_cons in Hnd as [Hb Hnd].
  destruct (Hclear b ltac:(left)) as [Hb0 Hbit].
  assert (Hclear' : forall b', b' ∈ bits ->
            0 <= b' /\ Z.testbit cv b' = false).
  { intros b' Hb'. apply Hclear. by right. }
  assert (Hclear'' : forall b', b' ∈ bits ->
            0 <= b' /\ Z.testbit (Z.lor cv (2 ^ b)) b' = false).
  { intros b' Hb'. destruct (Hclear' b' Hb') as [H0 H1].
    split; [done|]. rewrite Z.lor_spec, H1, Z.pow2_bits_eqb by done.
    destruct (Z.eqb_spec b b') as [->|]; done. }
  cbn [variantsOf]. apply NoDup_app. split; [by apply IH|].
  split; [|by apply IH].
  intros c Hc Hc'.
  rewrite variantsOf_bits in Hc, Hc' by done.
  specialize (Hc b Hb0 Hb). specialize (Hc' b Hb0 Hb).
  rewrite Z.lor_spec, Z.pow2_bits_eqb, Z.eqb_refl, orb_true_r in Hc by done.
  congruence.
Qed.

Lemma variants_recursion vars : forall (fuel i : nat) cv result,
  NoDup vars -> (forall b, b ∈ vars -> 0 <= b < 32) ->
  Z.of_nat (length vars) < 2 ^ 31 ->
  (i <= length vars)%nat -> (length vars - i < fuel)%nat ->
  0 <= cv < 2 ^ 32 ->
  (forall b, b ∈ drop i vars -> Z.testbit cv b = false) ->
  buildCanonicalConditionVectorVariantsRecursively
    fuel cv vars (Z.of_nat i) result
  = Some (result ++ variantsOf cv (drop i vars)).
Proof.
  intros fuel. induction fuel as [|fuel IH];
    intros i cv result Hnd Hrange Hlen Hi Hfuel Hcv Hclear; [lia|].
  cbn [buildCanonicalConditionVectorVariantsRecursively].
  unfold wrap_unsigned. rewrite Z.mod_small by lia.
  destruct (Z.ltb_spec (Z.of_nat i) (Z.of_nat (length vars))) as [Hlt|Hge].
  - rewrite Nat2Z.id.
    destruct (lookup_lt_is_Some_2 vars i ltac:(lia)) as [b Hb].
    rewrite Hb. cbn.
    pose proof (drop_S _ _ _ Hb) as Hdrop.
    assert (Hbv : b ∈ vars) by (by eapply list_elem_of_lookup_2).
    assert (Hbit : Z.testbit cv b = false).
    { apply Hclear. rewrite Hdrop. left. }
    rewrite bit_clear_check, Z.eqb_refl by auto.
    rewrite shl_unsigned_one by auto.
    rewrite to_int_small by lia.
    replace (Z.of_nat i + 1) with (Z.of_nat (S i)) by lia.
    assert (Hnd' : NoDup (b :: drop (S i) vars)).
    { rewrite <- Hdrop. apply (sublist_NoDup _ vars); [done|].
      apply sublist_drop. }
    apply NoDup_cons in Hnd' as [Hfresh Hnd'].
    rewrite IH; try done; try lia.
    2:{ apply lor_range; [lia|done|]. by apply pow2_range, Hrange. }
    2:{ intros b' Hb'. rewrite Z.lor_spec, Z.pow2_bits_eqb
          by (apply Hrange; done).
        rewrite Hclear by (rewrite Hdrop; by right).
        destruct (Z.eqb_spec b b') as [->|]; done. }
    cbn. rewrite IH; try done; try lia.
    2:{ intros b' Hb'. apply Hclear. rewrite Hdrop. by right. }
    rewrite Hdrop. cbn [variantsOf]. by rewrite app_assoc.
  - rewrite drop_ge by lia. done.
Qed.

Lemma template_bits (m : gmap Z bool) :
  (forall b v, m !! b = Some v -> 0 <= b < 32) ->
  0 <= buildFixedConditionVectorTemplate m < 2 ^ 32
  /\ forall n, 0 <= n ->
       Z.testbit (buildFixedConditionVectorTemplate m) n
       = default false (m !! n).
Proof.
  unfold buildFixedConditionVectorTemplate.
  apply (map_fold_weak_ind (fun acc (m' : gmap Z bool) =>
    (forall b v, m' !! b = Some v -> 0 <= b < 32) ->
    0 <= acc < 2 ^ 32
    /\ forall n, 0 <= n -> Z.testbit acc n = default false (m' !! n))).
  - intros _. split; [lia|]. intros n Hn.
    rewrite Z.testbit_0_l, lookup_empty. done.
  - intros b v m' acc Hnone IH Hkeys.
    assert (Hb : 0 <= b < 32) by (apply (Hkeys b v), lookup_insert_eq).
    destruct IH as [Hacc Hbits].
    { intros b' v' Hb'. apply (Hkeys b' v').
      rewrite lookup_insert_ne; [done|]. intros ->. congruence. }
    assert (Hvb : shl_unsigned (if v then 1 else 0) b
                  = if v then 2 ^ b else 0).
    { destruct v; [by apply shl_unsigned_one|apply shl_unsigned_zero]. }
    cbv zeta. rewrite Hvb. split.
    + apply lor_range; [lia|done|].
      destruct v; [by apply pow2_range|lia].
    + intros n Hn. rewrite Z.lor_spec, Hbits by done.
      destruct (decide (b = n)) as [->|Hne].
      * rewrite lookup_insert_eq, Hnone. cbn.
        destruct v.
        -- rewrite Z.pow2_bits_eqb, Z.eqb_refl by done. done.
        -- rewrite Z.testbit_0_l. done.
      * rewrite lookup_insert_ne by done.
        destruct v.
        -- rewrite Z.pow2_bits_eqb by lia.
           destruct (Z.eqb_spec b n); [done|]. by rewrite orb_false_r.
        -- rewrite Z.testbit_0_l. by rewrite orb_false_r.
Qed.

(** The variable bit offsets of a path map whose keys are below
    [numNodes]. *)
Lemma collectVariableBitOffsets_spec numNodes (m : gmap Z bool) b :
  numNodes <= 2 ^ 32 ->
  b ∈ collectVariableBitOffsets numNodes m
  <-> 0 <= b < numNodes /\ m !! b = None.
Proof.
  intros Hn. unfold collectVariableBitOffsets.
  rewrite list_elem_of_filter, elem_of_seqZ. split.
  - intros [Hnone Hb]. rewrite to_unsigned_small in Hnone by lia.
    split; [lia|done].
  - intros [Hb Hnone]. rewrite to_unsigned_small by lia.
    split; [done|lia].
Qed.

Lemma collectVariableBitOffsets_NoDup numNodes (m : gmap Z bool) :
  NoDup (collectVariableBitOffsets numNodes m).
Proof. apply NoDup_filter, NoDup_seqZ. Qed.

Lemma buildCanonicalConditionVectorVariants_variantsOf
    numNodes (m : gmap Z bool) :
  0 <= numNodes <= 31 ->
  (forall b v, m !! b = Some v -> 0 <= b < numNodes) ->
  buildCanonicalConditionVectorVariants
    numNodes (buildFixedConditionVectorTemplate m) m []
  = Some (variantsOf (buildFixedConditionVectorTemplate m)
                     (collectVariableBitOffsets numNodes m)).
Proof.
  intros Hn Hkeys.
  destruct (template_bits m) as [Htpl Hbits].
  { intros b v Hb. apply Hkeys in Hb. lia. }
  unfold buildCanonicalConditionVectorVariants. cbv zeta.
  pose proof (collectVariableBitOffsets_NoDup numNodes m) as Hnd.
  assert (Hspec := fun b => collectVariableBitOffsets_spec numNodes m b
                              ltac:(lia)).
  assert (Hlen : Z.of_nat (length (collectVariableBitOffsets numNodes m))
                 <= numNodes).
  { unfold collectVariableBitOffsets.
    pose proof (length_filter
      (fun i => m !! to_unsigned i = None) (seqZ 0 numNodes)) as Hf.
    rewrite length_seqZ in Hf. lia. }
  set (vars := collectVariableBitOffsets numNodes m) in *.
  destruct vars as [|b vars'] eqn:Hvars; [done|].
  rewrite <- Hvars in *. clear Hvars b vars'.
  rewrite (variants_recursion vars _ 0%nat); try done; try lia.
  - cbn. rewrite length_variantsOf.
    rewrite to_int_small by lia.
    rewrite PowerOf2_small by lia.
    pose proof (pow2_pos (Z.of_nat (length vars)) ltac:(lia)).
    pose proof (pow2_le_mono (Z.of_nat (length vars)) 31 ltac:(lia)).
    rewrite to_unsigned_small by lia.
    by rewrite Z.eqb_refl.
  - intros b Hb. apply Hspec in Hb. lia.
  - intros b Hb. rewrite drop_0 in Hb. apply Hspec in Hb as [Hb Hnone].
    rewrite Hbits by lia. rewrite Hnone. done.
Qed.

(** The variants of a path map are the vectors below 2^numNodes that
    agree with it. *)
Lemma variantsOf_agrees numNodes (m : gmap Z bool) c :
  0 <= numNodes <= 31 ->
  (forall b v, m !! b = Some v -> 0 <= b < numNodes) ->
  c ∈ variantsOf (buildFixedConditionVectorTemplate m)
                 (collectVariableBitOffsets numNodes m)
  <-> 0 <= c < 2 ^ numNodes /\ agrees c m.
Proof.
  intros Hn Hkeys.
  destruct (template_bits m) as [Htpl Hbits].
  { intros b v Hb. apply Hkeys in Hb. lia. }
  assert (Hspec := fun b => collectVariableBitOffsets_spec numNodes m b
                              ltac:(lia)).
  rewrite variantsOf_bits.
  2:{ apply collectVariableBitOffsets_NoDup. }
  2:{ intros b Hb. apply Hspec in Hb as [Hb Hnone].
      split; [lia|]. rewrite Hbits by lia. by rewrite Hnone. }
  split.
  - intros H.
    assert (Hhigh : forall n, numNodes <= n -> Z.testbit c n = false).
    { intros n Hn'. rewrite H, Hbits by (rewrite ?Hspec; lia).
      destruct (m !! n) as [v|] eqn:Hm; [|done].
      apply Hkeys in Hm. lia. }
    assert (Hc : 0 <= c).
    { apply Z.bits_iff_nonneg_ex. exists numNodes.
      intros n Hn'. apply Hhigh. lia. }
    split; [split; [done|by apply testbit_below; [lia|..]]|].
    intros b v Hb. pose proof (Hkeys _ _ Hb) as Hrange.
    rewrite H, Hbits by (rewrite ?Hspec; try lia; intros [_ ?]; congruence).
    by rewrite Hb.
  - intros [Hc Hag] n Hn0 Hnin. rewrite Hbits by done.
    destruct (m !! n) as [v|] eqn:Hm.
    + by apply Hag.
    + cbn. apply (testbit_above c numNodes); [done|].
      destruct (decide (n < numNodes)); [|lia].
      exfalso. apply Hnin, Hspec. split; [lia|done].
Qed.

(** Whatever the path map, the enumerator only produces [unsigned]
    values. *)
Lemma template_range (m : gmap Z bool) :
  0 <= buildFixedConditionVectorTemplate m < 2 ^ 32.
Proof.
  unfold buildFixedConditionVectorTemplate.
  apply (map_fold_weak_ind (fun acc (_ : gmap Z bool) => 0 <= acc < 2 ^ 32));
    [lia|].
  intros b v m' acc _ IH. cbv zeta.
  apply lor_range; [lia|done|apply shl_unsigned_range].
Qed.

Lemma variants_recursion_range fuel : forall cv vars idx result vs,
  0 <= cv < 2 ^ 32 -> Forall (fun c => 0 <= c < 2 ^ 32) result ->
  buildCanonicalConditionVectorVariantsRecursively fuel cv vars idx result
  = Some vs ->
  Forall (fun c => 0 <= c < 2 ^ 32) vs.
Proof.
  induction fuel as [|fuel IH]; intros cv vars idx result vs Hcv Hres Hrun;
    [done|].
  cbn [buildCanonicalConditionVectorVariantsRecursively] in Hrun.
  destruct (_ <? _).
  - destruct (vars !! _) as [b|]; [|done]. cbn in Hrun.
    destruct (_ =? _); [|done].
    destruct (buildCanonicalConditionVectorVariantsRecursively fuel
                (Z.lor cv (shl_unsigned 1 b)) vars _ result)
      as [result'|] eqn:Hfirst; [|done].
    cbn in Hrun. eapply (IH cv); [done| |exact Hrun].
    eapply (IH (Z.lor cv (shl_unsigned 1 b))); [|done|exact Hfirst].
    apply lor_range; [lia|done|apply shl_unsigned_range].
  - injection Hrun as <-. apply Forall_app. split; [done|].
    by apply Forall_singleton.
Qed.

Lemma buildCanonicalConditionVectorVariants_range numNodes (m : gmap Z bool) vs :
  buildCanonicalConditionVectorVariants
    numNodes (buildFixedConditionVectorTemplate m) m [] = Some vs ->
  Forall (fun c => 0 <= c < 2 ^ 32) vs.
Proof.
  unfold buildCanonicalConditionVectorVariants. cbv zeta.
  pose proof (template_range m) as Htpl.
  destruct (collectVariableBitOffsets numNodes m) as [|b vars].
  - intros [= <-]. by apply Forall_singleton.
  - destruct (buildCanonicalConditionVectorVariantsRecursively _ _ _ _ _)
      as [vs'|] eqn:Hrun; [|done].
    cbn. destruct (_ =? _); [|done]. intros [= <-].
    eapply variants_recursion_range; [exact Htpl| |exact Hrun]. done.
Qed.

Lemma leafDescriptors_key_range R k d b :
  0 <= k -> d ∈ leafDescriptors R (Z.to_nat k) 0 -> is_Some (d.2 !! b) ->
  0 <= b < 2 ^ k - 1.
Proof.
  intros Hk Hd Hb.
  destruct (leafDescriptors_keys R _ 0 d b ltac:(lia) Hd Hb) as [H0 Hl].
  change (Z.log2 (0 + 1)) with 0 in Hl. rewrite Z2Nat.id in Hl by done.
  split; [done|].
  pose proof (level_bounds b H0) as [_ Hub].
  pose proof (Z.log2_nonneg (b + 1)).
  pose proof (pow2_le_mono (Z.log2 (b + 1) + 1) k ltac:(lia)). lia.
Qed.

Lemma numNodes_range k : 0 <= k <= 5 -> 0 <= 2 ^ k - 1 <= 31.
Proof.
  intros Hk. pose proof (pow2_pos k ltac:(lia)).
  pose proof (pow2_le_mono k 5 ltac:(lia)).
  change (2 ^ 5) with 32 in *. lia.
Qed.

Lemma leafVariants_variantsOf R k d :
  0 <= k <= 5 -> d ∈ leafDescriptors R (Z.to_nat k) 0 ->
  leafVariants (2 ^ k - 1) d
  = Some (variantsOf (buildFixedConditionVectorTemplate (d.2))
                     (collectVariableBitOffsets (2 ^ k - 1) (d.2))).
Proof.
  intros Hk Hd. unfold leafVariants.
  apply buildCanonicalConditionVectorVariants_variantsOf.
  - by apply numNodes_range.
  - intros b v Hb. apply (leafDescriptors_key_range R k d); [lia|done|].
    by exists v.
Qed.

Lemma leafVariants_agrees R k d vs c :
  0 <= k <= 5 -> d ∈ leafDescriptors R (Z.to_nat k) 0 ->
  leafVariants (2 ^ k - 1) d = Some vs ->
  c ∈ vs <-> 0 <= c < 2 ^ (2 ^ k - 1) /\ agrees c (d.2).
Proof.
  intros Hk Hd Hvs.
  rewrite (leafVariants_variantsOf R) in Hvs by done.
  injection Hvs as <-.
  apply variantsOf_agrees.
  - by apply numNodes_range.
  - intros b v Hb. apply (leafDescriptors_key_range R k d); [lia|done|].
    by exists v.
Qed.

(** C2, amended: for a subtree of k <= 5 levels, whose 2^k - 1 bits fit
    the [unsigned] vectors of the enumerator, the variants of a leaf with
    v variable bits are 2^v distinct values, each the fixed template
    or-ed with a subset of the variable bits; the variant sets of the 2^k
    leaves are pairwise disjoint and their union is
    {0, ..., 2^(2^k - 1) - 1}. *)
Theorem variant_enumeration (tree : gmap Z TreeNode) (D R k : Z) :
  perfectTree D tree = true -> D <= 62 ->
  0 <= R -> 0 <= k <= 5 -> Z.log2 (R + 1) + k <= D ->
  exists code offs descs,
    emitComputeConditionVector tree R k (TreeNodes k) ∅ = Some (code, offs)
    /\ buildSubtreeLeafNodePathsBitsMapsRecursively
         tree R (Z.to_nat k) offs [] = Some descs
    /\ Z.of_nat (length descs) = 2 ^ k
    /\ (forall d, d ∈ descs ->
          exists vs,
            leafVariants (TreeNodes k) d = Some vs
            /\ Z.of_nat (length vs)
               = 2 ^ Z.of_nat (length (collectVariableBitOffsets
                                         (TreeNodes k) (d.2)))
            /\ NoDup vs
            /\ forall c, c ∈ vs ->
                 exists S,
                   S `sublist_of` collectVariableBitOffsets (TreeNodes k) (d.2)
                   /\ c = Z.lor (buildFixedConditionVectorTemplate (d.2))
                                (orBits S))
    /\ (forall i j di dj vi vj c,
          descs !! i = Some di -> descs !! j = Some dj ->
          leafVariants (TreeNodes k) di = Some vi ->
          leafVariants (TreeNodes k) dj = Some vj ->
          c ∈ vi -> c ∈ vj -> i = j)
    /\ (forall c, 0 <= c < 2 ^ (2 ^ k - 1)
          <-> exists d vs, d ∈ descs
                /\ leafVariants (TreeNodes k) d = Some vs /\ c ∈ vs).
Proof.
  intros Hperfect HD HR Hk Hfit.
  rewrite TreeNodes_small by lia.
  destruct (emitComputeConditionVector_spec tree D R k Hperfect HD HR
              ltac:(lia) Hfit ∅ ltac:(lia))
    as (code & offs & Hemit & _ & _ & _ & Hoffs).
  exists code, offs, (leafDescriptors R (Z.to_nat k) 0).
  split; [done|]. split.
  { rewrite <- (subtreeIdx_root R) at 1.
    rewrite (build_leafDescriptors tree D R k Hperfect HR ltac:(lia) Hfit
               offs Hoffs); [done|done| |lia|].
    - change (Z.log2 (0 + 1)) with 0. lia.
    - rewrite Z2Nat.id by lia. pose proof (pow2_le_mono k 5 ltac:(lia)).
      change (2 ^ 5) with 32 in *. cbn. lia. }
  split; [by rewrite length_leafDescriptors, Z2Nat.id by lia|].
  split; [|split].
  - intros d Hd. eexists. split; [by apply (leafVariants_variantsOf R)|].
    split; [apply length_variantsOf|]. split.
    + apply variantsOf_NoDup; [apply collectVariableBitOffsets_NoDup|].
      intros b Hb.
      pose proof (numNodes_range k Hk).
      apply collectVariableBitOffsets_spec in Hb as [Hb Hnone]; [|lia].
      split; [lia|].
      destruct (template_bits (d.2)) as [_ Hbits].
      { intros b' v Hb'.
        pose proof (leafDescriptors_key_range R k d b' ltac:(lia) Hd
                      ltac:(by exists v)). lia. }
      rewrite Hbits by lia. by rewrite Hnone.
    + apply variantsOf_subset.
  - intros i j di dj vi vj c Hi Hj Hvi Hvj Hci Hcj.
    apply (leafVariants_agrees R k di) in Hci as [_ Hci];
      [|done|by eapply list_elem_of_lookup_2|done].
    apply (leafVariants_agrees R k dj) in Hcj as [_ Hcj];
      [|done|by eapply list_elem_of_lookup_2|done].
    destruct (leafDescriptors_agree R (Z.to_nat k) 0 c ltac:(lia))
      as (i0 & d0 & _ & _ & _ & Huniq).
    rewrite (Huniq i di), (Huniq j dj); done.
  - intros c. split.
    + intros Hc.
      destruct (leafDescriptors_agree R (Z.to_nat k) 0 c ltac:(lia))
        as (i0 & d0 & Hi0 & _ & Hag & _).
      assert (Hd0 : d0 ∈ leafDescriptors R (Z.to_nat k) 0)
        by (by eapply list_elem_of_lookup_2).
      exists d0. eexists. split; [done|].
      split; [by apply (leafVariants_variantsOf R)|].
      apply variantsOf_agrees; [by apply numNodes_range| |done].
      intros b v Hb. apply (leafDescriptors_key_range R k d0); [lia|done|].
      by exists v.
    + intros (d & vs & Hd & Hvs & Hc).
      by apply (leafVariants_agrees R k d) in Hc as [Hc _].
Qed.

Lemma variant_enumeration_witness :
  exists code offs descs,
    emitComputeConditionVector sampleTree2 0 2 (TreeNodes 2) ∅
    = Some (code, offs)
    /\ buildSubtreeLeafNodePathsBitsMapsRecursively sampleTree2 0 2 offs []
       = Some descs
    /\ Z.of_nat (length descs) = 2 ^ 2.
Proof.
  destruct (variant_enumeration sampleTree2 2 0 2
              ltac:(vm_compute; reflexivity) ltac:(lia) ltac:(lia)
              ltac:(lia) ltac:(vm_compute; discriminate))
    as (code & offs & descs & Hemit & Hbuild & Hlen & _).
  exists code, offs, descs. auto.
Defined.

(** C2 as stated fails on a subtree of 6 levels: its condition vectors
    have 63 bits, the enumerator's are [unsigned], and 2^32 is the
    variant of no leaf. *)
Lemma variant_enumeration_counterexample :
  exists code offs descs,
    emitComputeConditionVector (uniformTree 6) 0 6 (TreeNodes 6) ∅
    = Some (code, offs)
    /\ buildSubtreeLeafNodePathsBitsMapsRecursively
         (uniformTree 6) 0 6 offs [] = Some descs
    /\ ~ (forall c, 0 <= c < 2 ^ (2 ^ 6 - 1) ->
            exists d vs, d ∈ descs
              /\ leafVariants (TreeNodes 6) d = Some vs /\ c ∈ vs).
Proof.
  assert (Hperfect : perfectTree 6 (uniformTree 6) = true)
    by (vm_compute; reflexivity).
  destruct (emitComputeConditionVector_spec (uniformTree 6) 6 0 6 Hperfect
              ltac:(lia) ltac:(lia) ltac:(lia)
              ltac:(vm_compute; discriminate) ∅ ltac:(lia))
    as (code & offs & Hemit & _ & _ & _ & Hoffs).
  exists code, offs, (leafDescriptors 0 6 0).
  split; [exact Hemit|]. split.
  { rewrite <- (subtreeIdx_root 0) at 1.
    apply (build_leafDescriptors (uniformTree 6) 6 0 6 Hperfect
             ltac:(lia) ltac:(lia) ltac:(vm_compute; discriminate)
             offs Hoffs); [lia|done|lia|cbn; lia]. }
  intros Hall.
  destruct (Hall (2 ^ 32) ltac:(lia)) as (d & vs & _ & Hvs & Hc).
  apply buildCanonicalConditionVectorVariants_range in Hvs.
  rewrite Forall_forall in Hvs. apply Hvs in Hc. lia.
Qed.

(** ** Node predicates *)

Lemma SFcompare_antisym a b : SFcompare b a = CompOpp <$> SFcompare a b.
Proof.
  destruct a as [sa|sa| |sa ma ea], b as [sb|sb| |sb mb eb];
    try done; try (by destruct sa); try (by destruct sb);
    try (by destruct sa, sb).
  cbn. destruct sa, sb; try done.
  - rewrite (Z.compare_antisym ea eb).
    destruct (ea ?= eb); cbn; try done.
    by rewrite (Pos.compare_cont_antisym ma mb Eq).
  - rewrite (Z.compare_antisym ea eb).
    destruct (ea ?= eb); cbn; try done.
    by rewrite (Pos.compare_cont_antisym ma mb Eq).
Qed.

Lemma featuresInRange_node D tree dataSet i node :
  featuresInRange D tree dataSet = true -> 0 <= i < 2 ^ D - 1 ->
  tree !! i = Some node ->
  0 <= DataSetFeatureIdx node < Z.of_nat (length dataSet)
  /\ DataSetFeatureIdx node < 2 ^ 32.
Proof.
  unfold featuresInRange. rewrite forallb_forall. intros H Hi Hnode.
  specialize (H i). unfold featureInRange in H. rewrite Hnode in H.
  assert (Hin : In i (seqZ 0 (2 ^ D - 1))).
  { apply list_elem_of_In, elem_of_seqZ. lia. }
  apply H in Hin. apply andb_prop in Hin as [[H1 H2]%andb_prop H3]. lia.
Qed.

Section Equivalence.

Variable llvm_log : spec_float -> spec_float.

(** The emitted comparison computes the predicate of the
    specification. *)
Lemma emitSingleNodeEvaluaton_spec node dataSet :
  0 <= DataSetFeatureIdx node < 2 ^ 32 ->
  emitSingleNodeEvaluaton llvm_log node dataSet
  = nodePredicate_spec llvm_log node dataSet.
Proof.
  intros Hidx. unfold emitSingleNodeEvaluaton, nodePredicate_spec.
  rewrite to_unsigned_small by done.
  destruct (dataSet !! _) as [v|]; [|done]. cbn. f_equal.
  unfold emitComparison, emitOperator, SFltb.
  destruct (Comp node); [done|].
  rewrite (SFcompare_antisym _ (Bias node)).
  by destruct (SFcompare _ (Bias node)) as [[]|].
Qed.

Lemma nodePredicate_spec_defined node dataSet :
  0 <= DataSetFeatureIdx node < Z.of_nat (length dataSet) ->
  is_Some (nodePredicate_spec llvm_log node dataSet).
Proof.
  intros Hidx. unfold nodePredicate_spec.
  destruct (lookup_lt_is_Some_2 dataSet
              (Z.to_nat (DataSetFeatureIdx node)) ltac:(lia)) as [v ->].
  by eexists.
Qed.

(** *** The condition vector *)

Lemma runConditionVector_bits (bits : list (TreeNode * Z))
    (p : Z -> bool) dataSet :
  Z.of_nat (length bits) <= 63 ->
  (forall i node sh, bits !! i = Some (node, sh) ->
     sh = Z.of_nat i
     /\ emitSingleNodeEvaluaton llvm_log node dataSet
        = Some (p (Z.of_nat i))) ->
  exists cv,
    runConditionVector llvm_log (mkConditionVectorCode 64 bits) dataSet
    = Some cv
    /\ 0 <= cv < 2 ^ Z.of_nat (length bits)
    /\ forall b, 0 <= b < Z.of_nat (length bits) -> Z.testbit cv b = p b.
Proof.
  unfold runConditionVector. cbn [cvBits cvTy].
  induction bits as [|[node sh] bits IH] using rev_ind; intros Hlen Hbits.
  - exists 0. cbn. split; [done|]. split; [lia|]. intros b Hb. lia.
  - rewrite length_app in *. cbn [length] in *.
    destruct IH as (cv & Hrun & Hcv & Htest); [lia| |].
    { intros i node' sh' Hi. apply Hbits.
      rewrite lookup_app_l; [done|]. by eapply lookup_lt_Some. }
    destruct (Hbits (length bits) node sh) as [-> Heval].
    { rewrite lookup_app_r by lia. by rewrite Nat.sub_diag. }
    rewrite foldl_snoc, Hrun. cbn. rewrite Heval. cbn.
    set (n := Z.of_nat (length bits)) in *.
    remember (p n) as v eqn:Hv.
    assert (Hvb : wrap_unsigned 64 (Z.shiftl (Z.b2z v) n)
                  = if v then 2 ^ n else 0).
    { unfold wrap_unsigned. destruct v; cbn [Z.b2z].
      - rewrite Z.shiftl_1_l. apply Z.mod_small.
        pose proof (pow2_pos n ltac:(lia)).
        pose proof (pow2_le_mono n 63 ltac:(lia)). lia.
      - by rewrite Z.shiftl_0_l. }
    rewrite Hvb.
    replace (Z.of_nat (length bits + 1)) with (n + 1) by lia.
    assert (Hpow : 2 ^ (n + 1) = 2 * 2 ^ n)
      by (rewrite Z.pow_add_r by lia; lia).
    pose proof (pow2_pos n ltac:(lia)) as Hpos.
    eexists. split; [done|]. split.
    + apply lor_range; [lia|lia|]. destruct v; lia.
    + intros b Hb. rewrite Z.lor_spec.
      destruct (decide (b = n)) as [->|Hne].
      * rewrite (testbit_above cv n n) by (done || lia). cbn.
        rewrite <- Hv.
        destruct v; [|apply Z.testbit_0_l].
        by rewrite Z.pow2_bits_eqb, Z.eqb_refl by lia.
      * rewrite Htest by lia.
        destruct v; [|by rewrite Z.testbit_0_l, orb_false_r].
        rewrite Z.pow2_bits_eqb by lia.
        destruct (Z.eqb_spec n b); [lia|]. by rewrite orb_false_r.
Qed.

(** *** Dispatch *)

Lemma caseMatches_caseConstants numNodes cv vs :
  Forall (fun c => 0 <= c < 2 ^ (numNodes + 1)) vs ->
  caseMatches cv (caseConstants numNodes vs) = true <-> cv ∈ vs.
Proof.
  intros Hvs. unfold caseMatches, caseConstants.
  rewrite existsb_exists. split.
  - intros (c & Hin & Heq). apply list_elem_of_In in Hin.
    apply list_elem_of_fmap in Hin as (v & -> & Hv). cbn in Heq.
    rewrite Forall_forall in Hvs.
    unfold wrap_unsigned in Heq.
    rewrite Z.mod_small in Heq by (by apply Hvs).
    apply Z.eqb_eq in Heq as <-. done.
  - intros Hin. eexists. split.
    + apply list_elem_of_In, list_elem_of_fmap. by eexists.
    + cbn. rewrite Forall_forall in Hvs.
      unfold wrap_unsigned. rewrite Z.mod_small by (by apply Hvs).
      apply Z.eqb_refl.
Qed.

Lemma dispatchTargets_lookup runSub cv targets : forall i nodeBB cases,
  targets !! i = Some (nodeBB, cases) ->
  caseMatches cv cases = true ->
  (forall j nodeBB' cases', (j < i)%nat ->
     targets !! j = Some (nodeBB', cases') ->
     caseMatches cv cases' = false) ->
  dispatchTargets runSub cv targets
  = match nodeBB with
    | StoreLeafIdx leafNodeIdx => Some leafNodeIdx
    | StoreSubSwitch sub => runSub sub
    end.
Proof.
  induction targets as [|[bb cs] targets IH]; intros i nodeBB cases Hi Hm Hfirst;
    [done|].
  destruct i as [|i].
  - injection Hi as -> ->. cbn. by rewrite Hm.
  - cbn. rewrite (Hfirst 0%nat bb cs) by (done || lia).
    apply (IH i nodeBB cases); [done|done|].
    intros j bb' cs' Hj Hj'. apply (Hfirst (S j) bb' cs'); [lia|done].
Qed.

End Equivalence.

(** ** One switch level *)

Lemma walkOffset_level c r : forall o,
  0 <= o ->
  0 <= walkOffset c r o
  /\ Z.log2 (walkOffset c r o + 1) = Z.log2 (o + 1) + Z.of_nat r.
Proof.
  induction r as [|r IH]; intros o Ho; [cbn; lia|].
  cbn [walkOffset].
  destruct (Z.testbit c o).
  - destruct (IH (2 * o + 2) ltac:(lia)) as [H0 Hl].
    rewrite log2_child_true in Hl by done. lia.
  - destruct (IH (2 * o + 1) ltac:(lia)) as [H0 Hl].
    rewrite log2_child_false in Hl by done. lia.
Qed.

Lemma leafDescriptors_leaf R r : forall o d,
  0 <= o -> d ∈ leafDescriptors R r o ->
  exists o', d.1 = subtreeIdx R o' /\ 0 <= o'
             /\ Z.log2 (o' + 1) = Z.log2 (o + 1) + Z.of_nat r.
Proof.
  induction r as [|r IH]; intros o d Ho Hd.
  - apply list_elem_of_singleton in Hd as ->. exists o. cbn. lia.
  - cbn [leafDescriptors] in Hd.
    apply elem_of_app in Hd as [Hd|Hd];
      apply list_elem_of_fmap in Hd as (d' & -> & Hd'); cbn.
    + destruct (IH (2 * o + 2) d' ltac:(lia) Hd') as (o' & H1 & H2 & H3).
      exists o'. rewrite log2_child_true in H3 by done. split; [done|lia].
    + destruct (IH (2 * o + 1) d' ltac:(lia) Hd') as (o' & H1 & H2 & H3).
      exists o'. rewrite log2_child_false in H3 by done. split; [done|lia].
Qed.

Section SwitchLevel.

Variable llvm_log : spec_float -> spec_float.
Variables (tree : gmap Z TreeNode) (D k : Z) (dataSet : list spec_float).
Hypothesis Hperfect : perfectTree D tree = true.
Hypothesis HD : D <= 62.
Hypothesis Hk : 0 <= k <= 5.
Hypothesis Hfeat : featuresInRange D tree dataSet = true.

Lemma descend_add (a b : nat) : forall i,
  descend llvm_log tree dataSet (a + b) i
  = descend llvm_log tree dataSet a i ≫= descend llvm_log tree dataSet b.
Proof.
  induction a as [|a IH]; intros i; [done|].
  cbn [Nat.add descend].
  destruct (tree !! i) as [node|]; [|done]. cbn.
  destruct (nodePredicate_spec llvm_log node dataSet) as [holds|]; [|done].
  cbn. apply IH.
Qed.

(** The walk along the bits of the condition vector is the reference
    traversal of the subtree. *)
Lemma descend_walkOffset R cv :
  0 <= R -> Z.log2 (R + 1) + k <= D ->
  (forall b, 0 <= b < 2 ^ k - 1 ->
     exists node, tree !! subtreeIdx R b = Some node
       /\ nodePredicate_spec llvm_log node dataSet
          = Some (Z.testbit cv b)) ->
  forall (r : nat) o,
  0 <= o -> Z.log2 (o + 1) + Z.of_nat r = k ->
  descend llvm_log tree dataSet r (subtreeIdx R o)
  = Some (subtreeIdx R (walkOffset cv r o)).
Proof.
  intros HR Hfit Hbits r. induction r as [|r IH]; intros o Ho Hlev; [done|].
  cbn [descend walkOffset].
  destruct (Hbits o (offset_internal k ltac:(lia) o Ho ltac:(lia)))
    as (node & Hn & Hp).
  rewrite Hn. cbn. rewrite Hp. cbn. destruct (Z.testbit cv o).
  - rewrite <- subtreeIdx_true by done. apply IH; [lia|].
    rewrite log2_child_true by done. lia.
  - rewrite <- subtreeIdx_false by done. apply IH; [lia|].
    rewrite log2_child_false by done. lia.
Qed.

(** The code of one condition vector runs to the vector whose bit at
    each offset is the predicate of the node at that offset. *)
Lemma conditionVector_level R :
  0 <= R -> Z.log2 (R + 1) + k <= D ->
  exists code offs cv,
    emitComputeConditionVector tree R k (2 ^ k - 1) ∅ = Some (code, offs)
    /\ (forall o, 0 <= o < 2 ^ k - 1 -> offs !! subtreeIdx R o = Some o)
    /\ runConditionVector llvm_log code dataSet = Some cv
    /\ 0 <= cv < 2 ^ (2 ^ k - 1)
    /\ descend llvm_log tree dataSet (Z.to_nat k) R
       = Some (subtreeIdx R (walkOffset cv (Z.to_nat k) 0)).
Proof.
  intros HR Hfit.
  destruct (emitComputeConditionVector_spec tree D R k Hperfect HD HR
              ltac:(lia) Hfit ∅ ltac:(lia))
    as ([ty bits] & offs & Hemit & Hty & Hlen & Hbits & Hoffs).
  cbn in Hty, Hlen, Hbits. subst ty.
  pose proof (numNodes_range k Hk) as Hnum.
  set (p := fun b : Z =>
         default false (tree !! subtreeIdx R b
                        ≫= fun node => nodePredicate_spec llvm_log node dataSet)).
  assert (Hnode : forall b, 0 <= b < 2 ^ k - 1 ->
            exists node, tree !! subtreeIdx R b = Some node
              /\ bits !! Z.to_nat b = Some (node, b)
              /\ emitSingleNodeEvaluaton llvm_log node dataSet = Some (p b)
              /\ nodePredicate_spec llvm_log node dataSet = Some (p b)).
  { intros b Hb. destruct (Hbits b Hb) as (node & Hn & Hl).
    exists node. split; [done|].
    unfold wrap_unsigned in Hl. rewrite Z.mod_small in Hl by lia.
    split; [done|].
    pose proof (offset_level_bound k b ltac:(lia) Hb) as Hlev.
    destruct (featuresInRange_node D tree dataSet _ node Hfeat
                (subtree_internal D R k HR Hfit b ltac:(lia) ltac:(lia)) Hn)
      as [Hidx Hidx32].
    rewrite emitSingleNodeEvaluaton_spec by lia.
    destruct (nodePredicate_spec_defined llvm_log node dataSet Hidx)
      as [v Hv].
    unfold p. rewrite Hn. cbn. rewrite Hv. done. }
  destruct (runConditionVector_bits llvm_log bits p dataSet ltac:(lia))
    as (cv & Hrun & Hcv & Htest).
  { intros i node sh Hi.
    pose proof (lookup_lt_Some _ _ _ Hi) as Hlt.
    destruct (Hnode (Z.of_nat i) ltac:(lia)) as (node' & _ & Hl & He & _).
    rewrite Nat2Z.id, Hi in Hl. injection Hl as <- ->. done. }
  rewrite Hlen in Hcv, Htest.
  exists (mkConditionVectorCode 64 bits), offs, cv.
  split; [done|]. split; [done|]. split; [done|]. split; [done|].
  rewrite <- (subtreeIdx_root R) at 1.
  apply descend_walkOffset; try done.
  - intros b Hb. destruct (Hnode b Hb) as (node & Hn & _ & _ & Hp).
    exists node. rewrite Htest by done. done.
  - change (Z.log2 (0 + 1)) with 0. lia.
Qed.

End SwitchLevel.

(** ** Nested switches *)

Lemma emitSubtreeSwitchesRecursively_unfold tree R k nested :
  emitSubtreeSwitchesRecursively tree R k nested
  = '(conditionVector, offs) ←
       emitComputeConditionVector tree R k (TreeNodes k) ∅;
    descs ← buildSubtreeLeafNodePathsBitsMapsRecursively
              tree R (Z.to_nat k) offs [];
    if Z.of_nat (length descs) =? PowerOf2 k then
      targets ← mapM (emitLeafTarget tree k nested) descs;
      Some (SwitchInst conditionVector targets)
    else None.
Proof. destruct nested; reflexivity. Qed.

Section NestedSwitches.

Variable llvm_log : spec_float -> spec_float.
Variables (tree : gmap Z TreeNode) (D k : Z) (dataSet : list spec_float).
Hypothesis Hperfect : perfectTree D tree = true.
Hypothesis HD : D <= 62.
Hypothesis Hk : 0 <= k <= 5.
Hypothesis Hfeat : featuresInRange D tree dataSet = true.

Lemma descend_defined (r : nat) : forall i,
  0 <= i -> Z.log2 (i + 1) + Z.of_nat r <= D ->
  exists j, descend llvm_log tree dataSet r i = Some j
    /\ 0 <= j /\ Z.log2 (j + 1) = Z.log2 (i + 1) + Z.of_nat r.
Proof.
  induction r as [|r IH]; intros i Hi Hlev.
  - exists i. cbn. split; [done|lia].
  - cbn [descend].
    assert (Hint : 0 <= i < 2 ^ D - 1).
    { pose proof (level_bounds i Hi) as [_ Hub].
      pose proof (Z.log2_nonneg (i + 1)).
      pose proof (pow2_le_mono (Z.log2 (i + 1) + 1) D ltac:(lia)). lia. }
    destruct (perfectTree_node D tree i Hperfect Hint) as (node & Hn & _).
    rewrite Hn. cbn.
    destruct (featuresInRange_node D tree dataSet i node Hfeat Hint Hn)
      as [Hidx _].
    destruct (nodePredicate_spec_defined llvm_log node dataSet Hidx)
      as [v Hv].
    rewrite Hv. cbn. destruct v.
    + destruct (IH (2 * i + 2) ltac:(lia)) as (j & Hj & Hj0 & Hjl).
      { rewrite log2_child_true by done. lia. }
      exists j. rewrite log2_child_true in Hjl by done.
      split; [done|lia].
    + destruct (IH (2 * i + 1) ltac:(lia)) as (j & Hj & Hj0 & Hjl).
      { rewrite log2_child_false by done. lia. }
      exists j. rewrite log2_child_false in Hjl by done.
      split; [done|lia].
Qed.

Lemma leaf_level R d :
  0 <= R -> d ∈ leafDescriptors R (Z.to_nat k) 0 ->
  0 <= d.1 /\ Z.log2 (d.1 + 1) = Z.log2 (R + 1) + k.
Proof.
  intros HR Hd.
  destruct (leafDescriptors_leaf R _ 0 d ltac:(lia) Hd)
    as (o & -> & Ho & Hl).
  change (Z.log2 (0 + 1)) with 0 in Hl. rewrite Z2Nat.id in Hl by lia.
  split; [by apply subtreeIdx_nonneg|].
  rewrite subtreeIdx_level by done. lia.
Qed.

Lemma leafVariants_range R d :
  d ∈ leafDescriptors R (Z.to_nat k) 0 ->
  Forall (fun c => 0 <= c < 2 ^ (2 ^ k - 1 + 1))
    (variantsOf (buildFixedConditionVectorTemplate (d.2))
                (collectVariableBitOffsets (2 ^ k - 1) (d.2))).
Proof.
  intros Hd. apply Forall_forall. intros c Hc.
  apply (leafVariants_agrees R k d _ c Hk Hd) in Hc as [Hc _];
    [|by apply (leafVariants_variantsOf R)].
  pose proof (numNodes_range k Hk).
  pose proof (pow2_le_mono (2 ^ k - 1) (2 ^ k - 1 + 1) ltac:(lia)). lia.
Qed.

(** The emitted switches of one evaluator run to the node that the
    reference traversal reaches after all their levels. *)
Lemma emitSubtreeSwitches_descend (nested : nat) : forall R,
  0 <= R -> Z.log2 (R + 1) + Z.of_nat (S nested) * k <= D ->
  exists code,
    emitSubtreeSwitchesRecursively tree R k nested = Some code
    /\ runSwitch llvm_log code dataSet
       = descend llvm_log tree dataSet (S nested * Z.to_nat k) R.
Proof.
  induction nested as [|nested IH]; intros R HR Hfit.
  all: rewrite emitSubtreeSwitchesRecursively_unfold.
  all: rewrite TreeNodes_small, PowerOf2_small by lia.
  all: destruct (conditionVector_level llvm_log tree D k dataSet
                   Hperfect HD Hk Hfeat R HR ltac:(nia))
         as (code & offs & cv & Hemit & Hoffs & Hrun & Hcv & Hdesc).
  all: assert (Hbuild :
         buildSubtreeLeafNodePathsBitsMapsRecursively
           tree R (Z.to_nat k) offs []
         = Some (leafDescriptors R (Z.to_nat k) 0)).
  1,3: rewrite <- (subtreeIdx_root R) at 1;
       rewrite (build_leafDescriptors tree D R k Hperfect HR ltac:(lia)
                  ltac:(nia) offs Hoffs);
         [done|done|change (Z.log2 (0 + 1)) with 0; lia|lia
          |rewrite Z2Nat.id by lia;
           pose proof (pow2_le_mono k 5 ltac:(lia)); cbn; lia].
  1: remember (1 * Z.to_nat k)%nat as steps eqn:Hsteps.
  2: remember (S (S nested) * Z.to_nat k)%nat as steps eqn:Hsteps.
  all: rewrite Hemit; cbn.
  all: rewrite Hbuild; cbn.
  all: rewrite length_leafDescriptors, Z2Nat.id, Z.eqb_refl by lia.
  all: set (descs := leafDescriptors R (Z.to_nat k) 0) in *.
  all: destruct (leafDescriptors_agree R (Z.to_nat k) 0 cv ltac:(lia))
         as (i0 & d0 & Hi0 & Hleaf & Hag & Huniq).
  all: fold descs in Hi0, Huniq.
  all: assert (Hd0 : d0 ∈ descs) by (by eapply list_elem_of_lookup_2).
  - (* no nested switch: the blocks store the leaf index *)
    assert (Htarget : forall d, d ∈ descs ->
              emitLeafTarget tree k 0 d
              = Some (StoreLeafIdx (d.1),
                      caseConstants (2 ^ k - 1)
                        (variantsOf (buildFixedConditionVectorTemplate (d.2))
                           (collectVariableBitOffsets (2 ^ k - 1) (d.2))))).
    { intros d Hd. unfold emitLeafTarget. cbn.
      rewrite TreeNodes_small by lia.
      by rewrite (leafVariants_variantsOf R k d Hk Hd). }
    rewrite (mapM_Some_2 _ descs
               ((fun d => (StoreLeafIdx (d.1),
                      caseConstants (2 ^ k - 1)
                        (variantsOf (buildFixedConditionVectorTemplate (d.2))
                           (collectVariableBitOffsets (2 ^ k - 1) (d.2)))))
                <$> descs)).
    2:{ apply Forall2_fmap_r, Forall_Forall2_diag, Forall_forall.
        intros d Hd. by apply Htarget. }
    cbn. eexists. split; [done|].
    cbn [runSwitch]. rewrite Hrun. cbn.
    erewrite (dispatchTargets_lookup _ cv _ i0 (StoreLeafIdx (d0.1)));
      [|by rewrite list_lookup_fmap, Hi0|..].
    + rewrite Hsteps, Nat.mul_1_l, Hdesc, Hleaf. done.
    + apply caseMatches_caseConstants; [by apply (leafVariants_range R)|].
      apply variantsOf_agrees; [by apply numNodes_range| |done].
      intros b v Hb. apply (leafDescriptors_key_range R k d0); [lia|done|].
      by exists v.
    + intros j bb' cs' Hj Hj'.
      rewrite list_lookup_fmap in Hj'.
      destruct (descs !! j) as [dj|] eqn:Hdj; [|done].
      cbn in Hj'. injection Hj' as <- <-.
      assert (Hdj' : dj ∈ descs) by (by eapply list_elem_of_lookup_2).
      apply not_true_is_false. intros Hm.
      apply caseMatches_caseConstants in Hm;
        [|by apply (leafVariants_range R)].
      apply (leafVariants_agrees R k dj _ cv Hk Hdj') in Hm as [_ Hm];
        [|by apply (leafVariants_variantsOf R)].
      specialize (Huniq j dj Hdj Hm). lia.
  - (* nested switches: the blocks run the switch of their leaf *)
    assert (Hsub : forall d, d ∈ descs ->
              exists sub,
                emitSubtreeSwitchesRecursively tree (d.1) k nested = Some sub
                /\ runSwitch llvm_log sub dataSet
                   = descend llvm_log tree dataSet
                       (S nested * Z.to_nat k) (d.1)).
    { intros d Hd. destruct (leaf_level R d HR Hd) as [H0 Hl].
      apply IH; [done|]. rewrite Hl. nia. }
    assert (Hsome : exists targets,
              mapM (emitLeafTarget tree k (S nested)) descs = Some targets).
    { apply mapM_is_Some_2, Forall_forall. intros d Hd.
      destruct (Hsub d Hd) as (sub & Hsub' & _).
      unfold compose, emitLeafTarget. rewrite Hsub'. cbn.
      rewrite TreeNodes_small by lia.
      by rewrite (leafVariants_variantsOf R k d Hk Hd). }
    destruct Hsome as [targets Hmap]. rewrite Hmap. cbn.
    eexists. split; [done|].
    cbn [runSwitch]. rewrite Hrun. cbn.
    apply mapM_Some_1 in Hmap.
    assert (Htarget : forall j dj t, descs !! j = Some dj ->
              targets !! j = Some t ->
              exists sub,
                emitSubtreeSwitchesRecursively tree (dj.1) k nested = Some sub
                /\ t = (StoreSubSwitch sub,
                        caseConstants (2 ^ k - 1)
                          (variantsOf
                             (buildFixedConditionVectorTemplate (dj.2))
                             (collectVariableBitOffsets (2 ^ k - 1) (dj.2))))).
    { intros j dj t Hdj Ht.
      pose proof (Forall2_lookup_lr _ _ _ _ _ _ Hmap Hdj Ht) as Hemit'.
      assert (Hdj' : dj ∈ descs) by (by eapply list_elem_of_lookup_2).
      destruct (Hsub dj Hdj') as (sub & Hsub' & _).
      exists sub. split; [done|].
      unfold emitLeafTarget in Hemit'. rewrite Hsub' in Hemit'.
      cbn in Hemit'. rewrite TreeNodes_small in Hemit' by lia.
      rewrite (leafVariants_variantsOf R k dj Hk Hdj') in Hemit'.
      cbn in Hemit'. congruence. }
    destruct (Forall2_lookup_l _ _ _ _ _ Hmap Hi0) as (t0 & Ht0 & _).
    destruct (Htarget i0 d0 t0 Hi0 Ht0) as (sub0 & Hsub0 & ->).
    rewrite (dispatchTargets_lookup _ cv _ i0 (StoreSubSwitch sub0) _ Ht0).
    + destruct (Hsub d0 Hd0) as (sub & Hsub' & Hrun').
      rewrite Hsub0 in Hsub'. injection Hsub' as <-.
      rewrite Hrun', Hsteps.
      change (S (S nested) * Z.to_nat k)%nat
        with (Z.to_nat k + S nested * Z.to_nat k)%nat.
      rewrite descend_add, Hdesc. cbn. by rewrite Hleaf.
    + apply caseMatches_caseConstants; [by apply (leafVariants_range R)|].
      apply variantsOf_agrees; [by apply numNodes_range| |done].
      intros b v Hb. apply (leafDescriptors_key_range R k d0); [lia|done|].
      by exists v.
    + intros j bb' cs' Hj Hj'.
      destruct (lookup_lt_is_Some_2 descs j) as [dj Hdj].
      { apply Forall2_length in Hmap. rewrite Hmap.
        by eapply lookup_lt_Some. }
      destruct (Htarget j dj _ Hdj Hj') as (subj & _ & Heq).
      injection Heq as -> ->.
      assert (Hdj' : dj ∈ descs) by (by eapply list_elem_of_lookup_2).
      apply not_true_is_false. intros Hm.
      apply caseMatches_caseConstants in Hm;
        [|by apply (leafVariants_range R)].
      apply (leafVariants_agrees R k dj _ cv Hk Hdj') in Hm as [_ Hm];
        [|by apply (leafVariants_variantsOf R)].
      specialize (Huniq j dj Hdj Hm). lia.
Qed.

End NestedSwitches.

(** ** Evaluator levels *)

Lemma evaluatorLevels_multiples fd n : forall (fuel : nat) j,
  0 < fd -> 0 <= j <= n -> n * fd < 2 ^ 30 -> fd < 2 ^ 30 ->
  (Z.to_nat (n - j) < fuel)%nat ->
  evaluatorLevels fuel (j * fd) (n * fd) fd
  = Some ((fun i => i * fd) <$> seqZ j (n - j)).
Proof.
  intros fuel. induction fuel as [|fuel IH]; intros j Hfd Hj Hn Hfd' Hfuel;
    [lia|].
  cbn [evaluatorLevels].
  destruct (Z.ltb_spec (j * fd) (n * fd)) as [Hlt|Hge].
  - assert (j < n) by nia.
    rewrite to_int_small by nia.
    replace (j * fd + fd) with ((j + 1) * fd) by lia.
    rewrite IH by lia. cbn.
    rewrite (seqZ_cons j (n - j)) by lia. cbn.
    replace (Z.succ j) with (j + 1) by lia.
    replace (Z.pred (n - j)) with (n - (j + 1)) by lia. done.
  - assert (j = n) by nia. subst. by rewrite Z.sub_diag.
Qed.

Lemma evaluatorLevels_divides D fd :
  0 < fd -> 0 <= D <= 62 -> (fd | D) ->
  evaluatorLevels (S (Z.to_nat D)) 0 D fd
  = Some ((fun i => i * fd) <$> seqZ 0 (D `div` fd)).
Proof.
  intros Hfd HD [n ->].
  rewrite Z.div_mul by lia.
  destruct (decide (n = 0)) as [->|Hn]; [done|].
  assert (0 < n) by nia. assert (fd <= n * fd) by nia.
  rewrite <- (Z.mul_0_l fd) at 1.
  rewrite evaluatorLevels_multiples by (try nia; lia).
  by rewrite Z.sub_0_r.
Qed.

(** The nodes of a level. *)
Lemma level_nodes i l :
  0 <= l -> i ∈ seqZ (2 ^ l - 1) (2 ^ l) <-> 0 <= i /\ Z.log2 (i + 1) = l.
Proof.
  intros Hl. rewrite elem_of_seqZ.
  pose proof (pow2_pos l Hl). split.
  - intros Hi. split; [lia|]. apply log2_unique'; [done|].
    rewrite Z.pow_add_r by lia. change (2 ^ 1) with 2. lia.
  - intros [Hi <-]. pose proof (level_bounds i Hi) as [H1 H2].
    rewrite Z.pow_add_r in H2 by (try apply Z.log2_nonneg; lia).
    change (2 ^ 1) with 2 in H2. lia.
Qed.

(** The nodes on the evaluator levels of a tree of depth [D]. *)
Lemma evaluator_nodes D fd i :
  0 < fd -> 0 <= D -> (fd | D) ->
  i ∈ ((fun j => j * fd) <$> seqZ 0 (D `div` fd))
        ≫= (fun level => seqZ (2 ^ level - 1) (2 ^ level))
  <-> 0 <= i < 2 ^ D - 1 /\ Z.log2 (i + 1) `mod` fd = 0.
Proof.
  intros Hfd HD [n ->]. rewrite Z.div_mul by lia.
  assert (Hn : 0 <= n) by nia.
  rewrite list_elem_of_bind. split.
  - intros (level & Hi & Hlevel).
    apply list_elem_of_fmap in Hlevel as (j & -> & Hj).
    apply elem_of_seqZ in Hj.
    apply level_nodes in Hi as [Hi Hl]; [|nia].
    split; [|rewrite Hl; by apply Z.mod_mul; lia].
    split; [done|].
    pose proof (level_bounds i Hi) as [_ Hub]. rewrite Hl in Hub.
    pose proof (pow2_le_mono (j * fd + 1) (n * fd) ltac:(nia)). lia.
  - intros [Hi Hmod].
    apply Z.mod_divide in Hmod as [j Hj]; [|lia].
    exists (j * fd). split.
    + apply level_nodes; [|split; [lia|done]].
      rewrite <- Hj. apply Z.log2_nonneg.
    + apply list_elem_of_fmap. exists j. split; [done|].
      apply elem_of_seqZ.
      pose proof (Z.log2_nonneg (i + 1)).
      assert (Z.log2 (i + 1) < n * fd).
      { apply Z.log2_lt_pow2; lia. }
      nia.
Qed.

(** ** The evaluators map *)

Lemma collectEvaluators_lookup getFn (nodes : list Z) i :
  collectEvaluators getFn nodes !! i
  = if decide (i ∈ nodes) then Some (getFn i) else None.
Proof.
  unfold collectEvaluators.
  induction nodes as [|x nodes IH] using rev_ind.
  - cbn. rewrite lookup_empty. by rewrite decide_False by apply not_elem_of_nil.
  - rewrite foldl_snoc.
    destruct (decide (x = i)) as [->|Hne].
    + rewrite lookup_insert_eq.
      rewrite decide_True; [done|]. apply elem_of_app. right. left.
    + rewrite lookup_insert_ne, IH by done.
      apply decide_ext. rewrite elem_of_app, list_elem_of_singleton.
      split; [by left|]. intros [Hin|Heq]; [done|congruence].
Qed.

Lemma collectEvaluators_size getFn (nodes : list Z) :
  NoDup nodes -> size (collectEvaluators getFn nodes) = length nodes.
Proof.
  induction nodes as [|x nodes IH] using rev_ind; intros Hnd.
  - apply map_size_empty.
  - apply NoDup_app in Hnd as (Hnd & Hx & _).
    unfold collectEvaluators in *. rewrite foldl_snoc.
    rewrite map_size_insert_None.
    + rewrite IH, length_app by done. cbn. lia.
    + fold (collectEvaluators getFn nodes).
      rewrite collectEvaluators_lookup.
      apply decide_False. intros Hin. apply (Hx x Hin). left.
Qed.

Lemma foldr_add_init (l : list Z) a :
  foldr Z.add a l = a + foldr Z.add 0 l.
Proof. induction l as [|x l IH]; cbn; lia. Qed.

Lemma evaluatorTotal_step fd (n : nat) :
  foldr Z.add 0 ((fun k => 2 ^ (k * fd)) <$> seqZ 0 (Z.of_nat (S n)))
  = foldr Z.add 0 ((fun k => 2 ^ (k * fd)) <$> seqZ 0 (Z.of_nat n))
    + 2 ^ (Z.of_nat n * fd).
Proof.
  rewrite seqZ_S, fmap_app, foldr_app. cbn.
  rewrite foldr_add_init, Z.add_0_l. lia.
Qed.

Lemma evaluatorTotal_bound fd (n : nat) :
  0 < fd ->
  0 <= foldr Z.add 0 ((fun k => 2 ^ (k * fd)) <$> seqZ 0 (Z.of_nat n))
    < 2 ^ (Z.of_nat n * fd).
Proof.
  intros Hfd. induction n as [|n IH].
  { rewrite seqZ_nil by lia. cbn [Z.of_nat fmap list_fmap foldr].
    rewrite Z.mul_0_l. change (2 ^ 0) with 1. lia. }
  rewrite evaluatorTotal_step.
  pose proof (pow2_pos (Z.of_nat n * fd) ltac:(nia)).
  pose proof (pow2_le_mono (Z.of_nat n * fd + 1) (Z.of_nat (S n) * fd)
                ltac:(nia)) as Hle.
  rewrite Z.pow_add_r in Hle by nia. change (2 ^ 1) with 2 in Hle. lia.
Qed.

Lemma getNumCompiledEvaluators_total D fd :
  0 < fd < 2 ^ 31 -> 0 <= D <= 62 -> (fd | D) ->
  getNumCompiledEvaluators D fd = evaluatorTotal_spec D fd.
Proof.
  intros Hfd HD [n ->]. unfold getNumCompiledEvaluators, evaluatorTotal_spec.
  assert (Hn : 0 <= n) by nia.
  rewrite Z.div_mul by lia.
  assert (Hdepth : to_int (Z.quot (to_int (to_int (n * fd + fd) - 1)) fd) = n).
  { assert (n * fd + fd < 2 ^ 31 + 62) by lia.
    destruct (decide (n = 0)) as [->|Hn0].
    - rewrite Z.mul_0_l, Z.add_0_l.
      rewrite (to_int_small fd), (to_int_small (fd - 1)) by lia.
      rewrite Z.quot_small by lia. done.
    - assert (fd <= 62) by nia.
      rewrite (to_int_small (_ + _)), (to_int_small (_ - 1)) by lia.
      rewrite Z.quot_div_nonneg by lia.
      replace (n * fd + fd - 1) with ((fd - 1) + n * fd) by lia.
      rewrite Z.div_add, Z.div_small by lia.
      apply to_int_small. nia. }
  rewrite Hdepth.
  rewrite <- (Z2Nat.id n Hn).
  assert (Hle : (Z.to_nat n <= Z.to_nat n)%nat) by lia.
  revert Hle. generalize (Z.to_nat n) at 1 3 4 as m.
  induction m as [|m IH]; intros Hm; [done|].
  rewrite seqZ_S, foldl_snoc, fmap_app, foldr_app. cbn.
  rewrite IH by lia. rewrite (foldr_add_init _ (_ + 0)), !Z.add_0_l.
  pose proof (evaluatorTotal_bound fd m ltac:(lia)) as Hb.
  assert (Z.of_nat m * fd < n * fd) by nia.
  pose proof (pow2_le_mono (Z.of_nat m * fd + 1) (n * fd) ltac:(nia)) as Hp.
  rewrite Z.pow_add_r in Hp by nia. change (2 ^ 1) with 2 in Hp.
  pose proof (pow2_le_mono (n * fd) 62 ltac:(lia)).
  pose proof (pow2_pos (Z.of_nat m * fd) ltac:(nia)).
  rewrite (Z.mul_comm fd), to_int_small by nia.
  rewrite PowerOf2_small by nia.
  rewrite to_int64_small by lia. lia.
Qed.

Lemma evaluator_nodes_length fd (n : nat) :
  0 < fd ->
  Z.of_nat (length (((fun j => j * fd) <$> seqZ 0 (Z.of_nat n))
                      ≫= fun level => seqZ (2 ^ level - 1) (2 ^ level)))
  = foldr Z.add 0 ((fun k => 2 ^ (k * fd)) <$> seqZ 0 (Z.of_nat n)).
Proof.
  intros Hfd. induction n as [|n IH]; [done|].
  rewrite evaluatorTotal_step, <- IH.
  rewrite seqZ_S, fmap_app, bind_app, length_app, Nat2Z.inj_add. cbn.
  rewrite app_nil_r, length_seqZ, Z.add_0_l.
  pose proof (pow2_pos (Z.of_nat n * fd) ltac:(nia)). lia.
Qed.

Lemma evaluator_nodes_NoDup (levels : list Z) :
  NoDup levels -> (forall l, l ∈ levels -> 0 <= l) ->
  NoDup (levels ≫= fun level => seqZ (2 ^ level - 1) (2 ^ level)).
Proof.
  intros Hnd Hpos. apply NoDup_bind; [|intros; apply NoDup_seqZ|done].
  intros l1 l2 i Hl1 Hl2 Hi1 Hi2.
  apply level_nodes in Hi1 as [_ <-]; [|by apply Hpos].
  apply level_nodes in Hi2 as [_ <-]; [|by apply Hpos]. done.
Qed.

(** ** Emission succeeds *)

Lemma emitSubtreeSwitches_defined tree D k (nested : nat) :
  perfectTree D tree = true -> D <= 62 -> 0 <= k <= 5 ->
  forall R, 0 <= R -> Z.log2 (R + 1) + Z.of_nat (S nested) * k <= D ->
  is_Some (emitSubtreeSwitchesRecursively tree R k nested).
Proof.
  intros Hperfect HD Hk.
  induction nested as [|nested IH]; intros R HR Hfit.
  all: rewrite emitSubtreeSwitchesRecursively_unfold.
  all: rewrite TreeNodes_small, PowerOf2_small by lia.
  all: destruct (emitComputeConditionVector_spec tree D R k Hperfect HD HR
                   ltac:(lia) ltac:(nia) ∅ ltac:(lia))
         as (code & offs & Hemit & _ & _ & _ & Hoffs).
  all: assert (Hbuild :
         buildSubtreeLeafNodePathsBitsMapsRecursively
           tree R (Z.to_nat k) offs []
         = Some (leafDescriptors R (Z.to_nat k) 0)).
  1,3: rewrite <- (subtreeIdx_root R) at 1;
       rewrite (build_leafDescriptors tree D R k Hperfect HR ltac:(lia)
                  ltac:(nia) offs Hoffs);
         [done|done|change (Z.log2 (0 + 1)) with 0; lia|lia
          |rewrite Z2Nat.id by lia;
           pose proof (pow2_le_mono k 5 ltac:(lia)); cbn; lia].
  all: rewrite Hemit; cbn.
  all: rewrite Hbuild; cbn.
  all: rewrite length_leafDescriptors, Z2Nat.id, Z.eqb_refl by lia.
  all: match goal with
       | |- is_Some (mapM ?f ?l ≫= _) =>
           assert (Hmap : is_Some (mapM f l));
             [apply mapM_is_Some_2, Forall_forall; intros d Hd;
              unfold compose, emitLeafTarget
             |destruct Hmap as [targets ->]; by eexists]
       end.
  - cbn. rewrite TreeNodes_small by lia.
    rewrite (leafVariants_variantsOf R k d Hk Hd). by eexists.
  - destruct (leafDescriptors_leaf R _ 0 d ltac:(lia) Hd)
      as (o & Hd1 & Ho & Hl).
    change (Z.log2 (0 + 1)) with 0 in Hl. rewrite Z2Nat.id in Hl by lia.
    destruct (IH (d.1)) as [sub ->].
    + rewrite Hd1. by apply subtreeIdx_nonneg.
    + rewrite Hd1, subtreeIdx_level by done. nia.
    + cbn. rewrite TreeNodes_small by lia.
      rewrite (leafVariants_variantsOf R k d Hk Hd). by eexists.
Qed.

Lemma emitSubtreeEvaluation_defined tree D fd sd i :
  perfectTree D tree = true -> D <= 62 ->
  1 <= sd <= 5 -> 0 < fd -> (sd | fd) ->
  0 <= i -> Z.log2 (i + 1) + fd <= D ->
  exists code,
    emitSubtreeEvaluation tree i fd sd = Some code
    /\ emitSubtreeSwitchesRecursively tree i sd (Z.to_nat (fd `div` sd - 1))
       = Some code
    /\ Z.of_nat (S (Z.to_nat (fd `div` sd - 1))) * sd = fd.
Proof.
  intros Hperfect HD Hsd Hfd [q ->] Hi Hfit.
  assert (Hq : 0 < q) by nia.
  pose proof (Z.log2_nonneg (i + 1)).
  assert (q * sd <= 62) by lia.
  unfold emitSubtreeEvaluation.
  rewrite Z.rem_mul, Z.eqb_refl by lia.
  rewrite Z.quot_mul by lia.
  rewrite Z.div_mul by lia.
  rewrite to_int_small by nia.
  destruct (emitSubtreeSwitches_defined tree D sd (Z.to_nat (q - 1))
              Hperfect HD ltac:(lia) i Hi) as [code Hcode]; [nia|].
  exists code. split; [done|]. split; [done|]. nia.
Qed.

(** ** The composing loop *)

Lemma bind_ext_in {A B} (f g : A -> list B) (l : list A) :
  (forall x, x ∈ l -> f x = g x) -> l ≫= f = l ≫= g.
Proof.
  induction l as [|x l IH]; intros H; [done|].
  rewrite !bind_cons, (H x) by left.
  f_equal. apply IH. intros y Hy. apply H. by right.
Qed.

Lemma compile_level_nodes (levels : list Z) :
  (forall l, l ∈ levels -> 0 <= l <= 61) ->
  levels ≫= (fun level =>
     seqZ (TreeNodes level)
          (TreeNodes (to_int (level + 1)) - TreeNodes level))
  = levels ≫= (fun level => seqZ (2 ^ level - 1) (2 ^ level)).
Proof.
  intros H. apply bind_ext_in. intros l Hl. apply H in Hl.
  rewrite to_int_small by lia. rewrite !TreeNodes_small by lia.
  rewrite Z.pow_add_r by lia. change (2 ^ 1) with 2. f_equal. lia.
Qed.

Lemma load_level_nodes (levels : list Z) :
  (forall l, l ∈ levels -> 0 <= l <= 61) ->
  levels ≫= (fun level =>
     (fun offset => to_int64 (TreeNodes level + offset))
       <$> seqZ 0 (PowerOf2 level))
  = levels ≫= (fun level => seqZ (2 ^ level - 1) (2 ^ level)).
Proof.
  intros H. apply bind_ext_in. intros l Hl. apply H in Hl.
  rewrite TreeNodes_small, PowerOf2_small by lia.
  replace (seqZ (2 ^ l - 1) (2 ^ l))
    with (Z.add (2 ^ l - 1) <$> seqZ 0 (2 ^ l))
    by (rewrite fmap_add_seqZ; f_equal; lia).
  apply list_fmap_ext. intros i x Hx. apply lookup_seqZ in Hx as [-> Hlt].
  pose proof (pow2_le_mono l 61 ltac:(lia)).
  pose proof (pow2_pos l ltac:(lia)).
  apply to_int64_small. lia.
Qed.

Section Compose.

Variable verifyFunction : SwitchCode -> bool.
Variables (tree : gmap Z TreeNode) (fd sd : Z).

Let composeStep (acc : option (gmap Z SwitchCode * list Z)) (nodeIdx : Z)
    : option (gmap Z SwitchCode * list Z) :=
  '(module, processedNodes) ← acc;
  node ← tree !! nodeIdx;
  evalFn ← emitSubtreeEvaluation tree nodeIdx fd sd;
  let broken := verifyFunction evalFn in
  Some (<[nodeIdx := evalFn]> module, nodeIdx :: processedNodes).

Lemma compose_fold_defined (nodes : list Z) m0 p0 :
  (forall i, i ∈ nodes ->
     is_Some (tree !! i) /\ is_Some (emitSubtreeEvaluation tree i fd sd)) ->
  exists module,
    foldl composeStep (Some (m0, p0)) nodes
    = Some (module, reverse nodes ++ p0)
    /\ forall i, i ∈ nodes ->
         module !! i = emitSubtreeEvaluation tree i fd sd.
Proof.
  induction nodes as [|x nodes IH] using rev_ind; intros Hnodes.
  - exists m0. split; [done|]. intros i Hi. by apply not_elem_of_nil in Hi.
  - destruct IH as (module & Hfold & Hmod).
    { intros i Hi. apply Hnodes, elem_of_app. by left. }
    destruct (Hnodes x) as [[node Hnode] [code Hcode]].
    { apply elem_of_app. right. left. }
    rewrite foldl_snoc, Hfold. unfold composeStep at 1. cbn.
    rewrite Hnode. cbn. rewrite Hcode. cbn.
    eexists. split.
    + rewrite reverse_snoc. done.
    + intros i Hi. destruct (decide (x = i)) as [->|Hne].
      * by rewrite lookup_insert_eq.
      * rewrite lookup_insert_ne by done. apply Hmod.
        apply elem_of_app in Hi as [Hi|Hi]; [done|].
        apply list_elem_of_singleton in Hi. congruence.
Qed.

Lemma compose_fold_processed (nodes : list Z) :
  forall m0 p0 module processed,
  foldl composeStep (Some (m0, p0)) nodes = Some (module, processed) ->
  processed = reverse nodes ++ p0.
Proof.
  induction nodes as [|x nodes IH] using rev_ind;
    intros m0 p0 module processed Hfold.
  - cbn in Hfold. by injection Hfold as <- <-.
  - rewrite foldl_snoc in Hfold.
    destruct (foldl composeStep (Some (m0, p0)) nodes)
      as [[m p]|] eqn:Hprev; [|done].
    apply IH in Hprev as ->.
    unfold composeStep in Hfold. cbn in Hfold.
    destruct (tree !! x); [|done]. cbn in Hfold.
    destruct (emitSubtreeEvaluation tree x fd sd); [|done].
    cbn in Hfold. injection Hfold as <- <-.
    by rewrite reverse_snoc.
Qed.

End Compose.

(** ** compileEvaluators and loadEvaluators *)

Lemma evaluatorNodes_elem D fd i :
  0 < fd -> 0 <= D -> (fd | D) ->
  i ∈ evaluatorNodes D fd
  <-> 0 <= i < 2 ^ D - 1 /\ Z.log2 (i + 1) `mod` fd = 0.
Proof. apply evaluator_nodes. Qed.

Lemma evaluatorNodes_NoDup D fd : 0 < fd -> NoDup (evaluatorNodes D fd).
Proof.
  intros Hfd. apply evaluator_nodes_NoDup.
  - apply NoDup_fmap_2_strong; [|apply NoDup_seqZ].
    intros a b _ _ Hab. nia.
  - intros l Hl. apply list_elem_of_fmap in Hl as (j & -> & Hj).
    apply elem_of_seqZ in Hj. nia.
Qed.

Lemma evaluatorNodes_reverse_NoDup D fd :
  0 < fd -> NoDup (reverse (evaluatorNodes D fd)).
Proof.
  intros Hfd. rewrite reverse_Permutation. by apply evaluatorNodes_NoDup.
Qed.

Lemma evaluatorNodes_length D fd :
  0 < fd -> 0 <= D ->
  Z.of_nat (length (evaluatorNodes D fd)) = evaluatorTotal_spec D fd.
Proof.
  intros Hfd HD. unfold evaluatorNodes, evaluatorTotal_spec.
  assert (0 <= D `div` fd) by (apply Z.div_pos; lia).
  rewrite <- (Z2Nat.id (D `div` fd)) by done.
  by apply evaluator_nodes_length.
Qed.

Lemma evaluator_levels_range D fd l :
  0 < fd -> 0 <= D <= 62 -> (fd | D) ->
  l ∈ (fun j => j * fd) <$> seqZ 0 (D `div` fd) -> 0 <= l <= 61.
Proof.
  intros Hfd HD [n ->] Hl. rewrite Z.div_mul in Hl by lia.
  apply list_elem_of_fmap in Hl as (j & -> & Hj).
  apply elem_of_seqZ in Hj. nia.
Qed.

Section Compile.

Variable llvm_log : spec_float -> spec_float.
Variable verifyFunction : SwitchCode -> bool.
Variables (tree : gmap Z TreeNode) (D fd sd : Z).
Hypothesis Hperfect : perfectTree D tree = true.
Hypothesis HD : 0 <= D <= 62.
Hypothesis Hsd : 1 <= sd <= 5.
Hypothesis Hfd : 0 < fd < 2 ^ 31.
Hypothesis Hsdfd : (sd | fd).
Hypothesis HfdD : (fd | D).

Lemma evaluatorNodes_fit i :
  i ∈ evaluatorNodes D fd ->
  0 <= i < 2 ^ D - 1 /\ Z.log2 (i + 1) + fd <= D.
Proof.
  intros Hi. apply evaluatorNodes_elem in Hi as [Hi Hmod]; [|lia..|done].
  split; [done|].
  assert (Hlt : Z.log2 (i + 1) < D) by (apply Z.log2_lt_pow2; lia).
  destruct HfdD as [n ->].
  apply Z.mod_divide in Hmod as [j Hj]; [|lia].
  rewrite Hj in *. assert (j < n) by nia.
  assert (j + 1 <= n) by lia. nia.
Qed.

Lemma compileEvaluators_spec :
  exists module,
    compileEvaluators llvm_log verifyFunction tree D fd sd
    = Some (collectEvaluators (getEvaluatorFnPtr llvm_log module)
                              (reverse (evaluatorNodes D fd)))
    /\ forall i, i ∈ evaluatorNodes D fd ->
         module !! i = emitSubtreeEvaluation tree i fd sd.
Proof.
  unfold compileEvaluators, composeEvaluators.
  pose proof HfdD as [n Hn].
  assert (Hrem : Z.rem D fd = 0) by (rewrite Hn; apply Z.rem_mul; lia).
  rewrite Hrem, Z.eqb_refl.
  rewrite evaluatorLevels_divides by (lia || done). cbn.
  rewrite compile_level_nodes
    by (intros l Hl;
        apply (evaluator_levels_range D fd l); [lia|lia|done|done]).
  fold (evaluatorNodes D fd).
  destruct (compose_fold_defined verifyFunction tree fd sd
              (evaluatorNodes D fd) ∅ [])
    as (module & Hfold & Hmod).
  { intros i Hi. apply evaluatorNodes_fit in Hi as [Hi Hfit]. split.
    - destruct (perfectTree_node D tree i Hperfect Hi) as (node & -> & _).
      by eexists.
    - destruct (emitSubtreeEvaluation_defined tree D fd sd i Hperfect
                  ltac:(lia) Hsd ltac:(lia) Hsdfd ltac:(lia) Hfit)
        as (code & -> & _). by eexists. }
  cbv zeta in Hfold. rewrite Hfold. cbn. rewrite app_nil_r.
  rewrite getNumCompiledEvaluators_total by (lia || done).
  rewrite collectEvaluators_size
    by (apply evaluatorNodes_reverse_NoDup; lia).
  rewrite length_reverse, evaluatorNodes_length, Z.eqb_refl by lia.
  by exists module.
Qed.

End Compile.

(** C8: when functionDepth divides the tree depth, compileEvaluators
    returns a map with exactly one evaluator per internal node on each
    level that is a multiple of functionDepth and no other key;
    getNumCompiledEvaluators equals the sum of 2^(k * functionDepth)
    over k = 0 .. D / functionDepth - 1, and that is the size of the
    map. *)
Theorem compileEvaluators_keys
    (llvm_log : spec_float -> spec_float)
    (verifyFunction : SwitchCode -> bool)
    (tree : gmap Z TreeNode) (D fd sd : Z) :
  perfectTree D tree = true -> 0 <= D <= 62 ->
  1 <= sd <= 5 -> 0 < fd < 2 ^ 31 -> (sd | fd) -> (fd | D) ->
  exists evaluators,
    compileEvaluators llvm_log verifyFunction tree D fd sd = Some evaluators
    /\ evaluatorKeys D fd evaluators
    /\ getNumCompiledEvaluators D fd = evaluatorTotal_spec D fd
    /\ Z.of_nat (size evaluators) = getNumCompiledEvaluators D fd.
Proof.
  intros Hperfect HD Hsd Hfd Hsdfd HfdD.
  destruct (compileEvaluators_spec llvm_log verifyFunction tree D fd sd
              Hperfect HD Hsd Hfd Hsdfd HfdD) as (module & Hcompile & _).
  eexists. split; [exact Hcompile|]. split; [|split].
  - intros i. rewrite collectEvaluators_lookup.
    rewrite <- (evaluatorNodes_elem D fd i) by (lia || done).
    destruct (decide (i ∈ reverse (evaluatorNodes D fd))) as [Hin|Hnin].
    + rewrite elem_of_reverse in Hin. split; [by intros _|]. by eexists.
    + split; [by intros [? ?]|]. intros Hin.
      exfalso. by apply Hnin, elem_of_reverse.
  - apply getNumCompiledEvaluators_total; (lia || done).
  - rewrite collectEvaluators_size
      by (apply evaluatorNodes_reverse_NoDup; lia).
    rewrite length_reverse, evaluatorNodes_length by lia.
    symmetry. apply getNumCompiledEvaluators_total; (lia || done).
Qed.

(** ** The run-time driver *)

Lemma internal_level i D :
  0 <= i -> 0 <= D -> i < 2 ^ D - 1 <-> Z.log2 (i + 1) < D.
Proof.
  intros Hi HD. split.
  - intros H. apply Z.log2_lt_pow2; lia.
  - intros H. pose proof (level_bounds i Hi) as [_ Hub].
    pose proof (pow2_le_mono (Z.log2 (i + 1) + 1) D
                  ltac:(pose proof (Z.log2_nonneg (i + 1)); lia)). lia.
Qed.

Lemma leaf_range i D :
  0 <= i -> 0 <= D -> Z.log2 (i + 1) = D ->
  2 ^ D - 1 <= i < 2 ^ D - 1 + 2 ^ D.
Proof.
  intros Hi HD Hl. pose proof (level_bounds i Hi) as [H1 H2].
  rewrite Hl, Z.pow_add_r in * by lia. change (2 ^ 1) with 2 in H2. lia.
Qed.

Lemma levelsBelow_level fd i r :
  0 <= i -> 0 <= fd -> levelsBelow fd i r = true ->
  0 <= r /\ Z.log2 (r + 1) = Z.log2 (i + 1) + fd.
Proof.
  intros Hi Hfd [H1 H2]%andb_prop.
  apply Z.leb_le in H1. apply Z.ltb_lt in H2.
  pose proof (level_bounds i Hi) as [Hl Hu].
  pose proof (Z.log2_nonneg (i + 1)) as HL.
  pose proof (pow2_pos fd Hfd) as Hp.
  pose proof (pow2_pos (Z.log2 (i + 1)) HL) as Hp'.
  split; [nia|]. apply log2_unique'; [lia|].
  replace (Z.log2 (i + 1) + fd + 1) with (Z.log2 (i + 1) + 1 + fd) by lia.
  rewrite !(Z.pow_add_r _ _ fd) by lia. nia.
Qed.

Lemma evaluatorContract_at D fd evaluators dataSet :
  evaluatorContract D fd evaluators ->
  evaluatorContractAt D fd evaluators dataSet.
Proof. intros Hcontract i evaluator. apply Hcontract. Qed.

Section Run.

Variables (evaluators : gmap Z SubtreeEvaluator_f) (D fd : Z).
Variable dataSet : list spec_float.
Hypothesis HD : 0 <= D <= 62.
Hypothesis Hfd : 0 < fd.
Hypothesis HfdD : (fd | D).
Hypothesis Hkeys : evaluatorKeys D fd evaluators.
Hypothesis Hcontract : evaluatorContractAt D fd evaluators dataSet.

Lemma evaluator_step idx :
  0 <= idx -> Z.log2 (idx + 1) < D -> Z.log2 (idx + 1) `mod` fd = 0 ->
  exists evaluator next,
    evaluators !! idx = Some evaluator
    /\ evaluator dataSet = Some next
    /\ to_int64 next = next /\ 0 <= next
    /\ Z.log2 (next + 1) = Z.log2 (idx + 1) + fd
    /\ Z.log2 (next + 1) <= D.
Proof.
  intros Hidx Hlev Hmod.
  assert (Hint : 0 <= idx < 2 ^ D - 1)
    by (split; [done|apply internal_level; lia]).
  destruct (proj2 (Hkeys idx) (conj Hint Hmod)) as [evaluator Hev].
  destruct (Hcontract idx evaluator Hev Hint) as (next & Hnext & Hb).
  apply levelsBelow_level in Hb as [Hn0 Hnl]; [|lia..].
  assert (Hle : Z.log2 (next + 1) <= D).
  { destruct HfdD as [n ->].
    apply Z.mod_divide in Hmod as [j Hj]; [|lia].
    rewrite Hnl, Hj in *. assert (j < n) by nia.
    assert (j + 1 <= n) by lia. nia. }
  exists evaluator, next. repeat split; try done.
  apply to_int64_small.
  pose proof (level_bounds next Hn0) as [_ Hub].
  pose proof (pow2_le_mono (Z.log2 (next + 1) + 1) 63
                ltac:(pose proof (Z.log2_nonneg (next + 1)); lia)).
  lia.
Qed.

Lemma runFrom_leaf (m : nat) : forall idx (fuel : nat),
  0 <= idx -> Z.log2 (idx + 1) + Z.of_nat m * fd = D -> (m <= fuel)%nat ->
  exists leaf,
    runFrom fuel evaluators (2 ^ D - 1) dataSet idx = Returned leaf
    /\ 2 ^ D - 1 <= leaf < 2 ^ D - 1 + 2 ^ D.
Proof.
  induction m as [|m IH]; intros idx fuel Hidx Hlev Hfuel.
  - pose proof (leaf_range idx D Hidx ltac:(lia) ltac:(lia)) as Hleaf.
    exists idx. split; [|done].
    destruct fuel; cbn [runFrom];
      destruct (Z.ltb_spec idx (2 ^ D - 1)); (lia || done).
  - destruct fuel as [|fuel]; [lia|].
    assert (Hmod : Z.log2 (idx + 1) `mod` fd = 0).
    { destruct HfdD as [n Hn].
      replace (Z.log2 (idx + 1)) with ((n - Z.of_nat (S m)) * fd) by lia.
      apply Z.mod_mul. lia. }
    destruct (evaluator_step idx Hidx ltac:(nia) Hmod)
      as (evaluator & next & Hev & Hnext & Hwrap & Hn0 & Hnl & _).
    cbn [runFrom].
    assert (Hint : idx < 2 ^ D - 1) by (apply internal_level; lia || nia).
    destruct (Z.ltb_spec idx (2 ^ D - 1)); [|lia].
    rewrite Hev, Hnext, Hwrap. apply IH; [done|lia|lia].
Qed.

Lemma runReaches_level idx :
  runReaches evaluators (2 ^ D - 1) dataSet idx ->
  0 <= idx /\ Z.log2 (idx + 1) `mod` fd = 0 /\ Z.log2 (idx + 1) <= D.
Proof.
  induction 1 as [|idx evaluator next Hreach IH Hlt Hev Hnext].
  - change (Z.log2 (0 + 1)) with 0. rewrite Z.mod_0_l by lia. lia.
  - destruct IH as (Hidx & Hmod & Hle).
    destruct (evaluator_step idx Hidx
                ltac:(apply internal_level; lia) Hmod)
      as (evaluator' & next' & Hev' & Hnext' & Hwrap & Hn0 & Hnl & Hnle).
    rewrite Hev in Hev'. injection Hev' as <-.
    rewrite Hnext in Hnext'. injection Hnext' as <-.
    rewrite Hwrap. split; [done|]. split; [|done].
    rewrite Hnl. rewrite <- Z.add_mod_idemp_l, Hmod by lia.
    rewrite Z.add_0_l. apply Z.mod_same. lia.
Qed.

Lemma runFrom_lookup (fuel : nat) : forall idx failed,
  runReaches evaluators (2 ^ D - 1) dataSet idx ->
  runFrom fuel evaluators (2 ^ D - 1) dataSet idx <> LookupFailed failed.
Proof.
  induction fuel as [|fuel IH]; intros idx failed Hreach; cbn [runFrom];
    destruct (Z.ltb_spec idx (2 ^ D - 1)) as [Hlt|Hge]; try done.
  destruct (runReaches_level idx Hreach) as (Hidx & Hmod & _).
  destruct (proj2 (Hkeys idx) (conj (conj Hidx Hlt) Hmod))
    as [evaluator Hev].
  rewrite Hev. destruct (evaluator dataSet) as [next|] eqn:Hnext; [|done].
  apply IH. by eapply reaches_step.
Qed.

End Run.

(** C5: with one contract-satisfying evaluator per internal node on the
    levels that are multiples of functionDepth, run from index 0
    terminates, and the index it returns lies in the leaf range
    [N, N + 2^D). *)
Theorem run_returns_leaf (tree : gmap Z TreeNode)
    (evaluators : gmap Z SubtreeEvaluator_f) (D fd : Z)
    (dataSet : list spec_float) :
  Z.of_nat (size tree) = 2 ^ D - 1 -> 0 <= D <= 62 ->
  0 < fd -> (fd | D) ->
  evaluatorKeys D fd evaluators -> evaluatorContract D fd evaluators ->
  exists leaf,
    (forall fuel : nat, D `div` fd <= Z.of_nat fuel ->
       run fuel evaluators tree dataSet = Returned leaf)
    /\ 2 ^ D - 1 <= leaf < 2 ^ D - 1 + 2 ^ D.
Proof.
  intros Hsize HD Hfd HfdD Hkeys Hcontract.
  pose proof HfdD as [n Hn].
  assert (Hn0 : 0 <= n) by nia.
  destruct (runFrom_leaf evaluators D fd dataSet HD Hfd HfdD Hkeys
              (evaluatorContract_at D fd evaluators dataSet Hcontract)
              (Z.to_nat n) 0 (Z.to_nat n) ltac:(lia)) as (leaf & Hrun & Hleaf).
  { change (Z.log2 (0 + 1)) with 0. lia. }
  { lia. }
  exists leaf. split; [|done].
  intros fuel Hfuel. unfold run. rewrite Hsize.
  destruct (runFrom_leaf evaluators D fd dataSet HD Hfd HfdD Hkeys
              (evaluatorContract_at D fd evaluators dataSet Hcontract)
              (Z.to_nat n) 0 fuel ltac:(lia)) as (leaf' & Hrun' & _).
  { change (Z.log2 (0 + 1)) with 0. lia. }
  { rewrite Hn, Z.div_mul in Hfuel by lia. lia. }
  rewrite Hrun'. f_equal.
  (* both runs return the leaf of the run with the least fuel *)
  clear Hleaf. revert Hrun Hrun'.
  assert (Hmono : forall (f1 f2 : nat) idx l,
            (f1 <= f2)%nat ->
            runFrom f1 evaluators (2 ^ D - 1) dataSet idx = Returned l ->
            runFrom f2 evaluators (2 ^ D - 1) dataSet idx = Returned l).
  { intros f1. induction f1 as [|f1 IH]; intros f2 idx l Hle Hr;
      cbn [runFrom] in Hr; destruct f2 as [|f2]; cbn [runFrom];
      destruct (idx <? 2 ^ D - 1); try done; try lia.
    destruct (evaluators !! idx) as [ev|]; [|done].
    destruct (ev dataSet) as [next|]; [|done].
    apply IH; [lia|done]. }
  intros Hrun Hrun'.
  assert (Hfuel' : (Z.to_nat n <= fuel)%nat).
  { rewrite Hn, Z.div_mul in Hfuel by lia. lia. }
  pose proof (Hmono _ _ _ _ Hfuel' Hrun) as Heq.
  rewrite Hrun' in Heq. by injection Heq.
Qed.

Lemma run_returns_leaf_witness :
  exists leaf,
    run 2 (collectEvaluators
             (fun i _ => Some (2 * i + 1)) (evaluatorNodes 2 1))
        sampleTree2 [half] = Returned leaf
    /\ 2 ^ 2 - 1 <= leaf < 2 ^ 2 - 1 + 2 ^ 2.
Proof.
  destruct (run_returns_leaf sampleTree2
              (collectEvaluators
                 (fun i _ => Some (2 * i + 1)) (evaluatorNodes 2 1))
              2 1 [half]
              ltac:(vm_compute; reflexivity) ltac:(lia) ltac:(lia)
              ltac:(exists 2; lia))
    as (leaf & Hrun & Hleaf).
  - intros i. rewrite collectEvaluators_lookup.
    rewrite <- (evaluatorNodes_elem 2 1 i) by (lia || (exists 2; lia)).
    destruct (decide (i ∈ evaluatorNodes 2 1)).
    + split; [done|]. by eexists.
    + split; [by intros [? ?]|done].
  - intros i evaluator dataSet Hev Hi.
    rewrite collectEvaluators_lookup in Hev.
    destruct (decide (i ∈ evaluatorNodes 2 1)); [|done].
    injection Hev as <-. eexists. split; [done|].
    unfold levelsBelow. apply andb_true_intro.
    split; [apply Z.leb_le|apply Z.ltb_lt]; lia.
  - exists leaf. split; [apply Hrun; vm_compute; discriminate|done].
Defined.

(** The keys of the maps that loadEvaluators and compileEvaluators
    return. *)
Lemma loadEvaluators_keys getFn tree D fd evaluators :
  0 <= D <= 62 -> 0 < fd -> (fd | D) ->
  loadEvaluators getFn tree D fd = Some evaluators ->
  evaluatorKeys D fd evaluators.
Proof.
  intros HD Hfd HfdD. unfold loadEvaluators.
  rewrite evaluatorLevels_divides by (lia || done). cbn.
  rewrite load_level_nodes
    by (intros l Hl; apply (evaluator_levels_range D fd l); done || lia).
  fold (evaluatorNodes D fd).
  destruct (_ =? _); [|done]. intros [= <-] i.
  rewrite collectEvaluators_lookup.
  rewrite <- (evaluatorNodes_elem D fd i) by (lia || done).
  destruct (decide (i ∈ evaluatorNodes D fd)).
  - split; [done|]. by eexists.
  - split; [by intros [? ?]|done].
Qed.

Lemma compileEvaluators_Some_keys llvm_log verifyFunction tree D fd sd
    evaluators :
  0 <= D <= 62 -> 0 < fd -> (fd | D) ->
  compileEvaluators llvm_log verifyFunction tree D fd sd = Some evaluators ->
  evaluatorKeys D fd evaluators.
Proof.
  intros HD Hfd HfdD. unfold compileEvaluators, composeEvaluators.
  destruct (_ =? 0); [|done].
  rewrite evaluatorLevels_divides by (lia || done). cbn.
  rewrite compile_level_nodes
    by (intros l Hl; apply (evaluator_levels_range D fd l); done || lia).
  fold (evaluatorNodes D fd).
  destruct (foldl _ _ _) as [[module processed]|] eqn:Hfold; [|done].
  apply (compose_fold_processed verifyFunction tree fd sd) in Hfold.
  rewrite app_nil_r in Hfold. subst processed. cbn.
  destruct (_ =? _); [|done]. intros [= <-] i.
  rewrite collectEvaluators_lookup.
  rewrite <- (evaluatorNodes_elem D fd i) by (lia || done).
  destruct (decide (i ∈ reverse (evaluatorNodes D fd))) as [Hin|Hnin].
  - rewrite elem_of_reverse in Hin. split; [done|]. by eexists.
  - rewrite elem_of_reverse in Hnin. split; [by intros [? ?]|done].
Qed.

(** C10: with the evaluators map that loadEvaluators or compileEvaluators
    returns, and evaluators that satisfy the contract on the data set of
    the run, every index below tree.size() that run reaches lies on a
    level that is a multiple of functionDepth and is a key of the map,
    so the lookup in the loop never fails. *)
Theorem run_lookup_never_fails
    (llvm_log : spec_float -> spec_float)
    (verifyFunction : SwitchCode -> bool)
    (getFn : Z -> SubtreeEvaluator_f)
    (tree : gmap Z TreeNode) (D fd sd : Z)
    (evaluators : gmap Z SubtreeEvaluator_f) (dataSet : list spec_float) :
  Z.of_nat (size tree) = 2 ^ D - 1 -> 0 <= D <= 62 ->
  0 < fd -> (fd | D) ->
  loadEvaluators getFn tree D fd = Some evaluators
  \/ compileEvaluators llvm_log verifyFunction tree D fd sd = Some evaluators ->
  evaluatorContractAt D fd evaluators dataSet ->
  (forall idx,
     runReaches evaluators (Z.of_nat (size tree)) dataSet idx ->
     idx < Z.of_nat (size tree) ->
     Z.log2 (idx + 1) `mod` fd = 0 /\ is_Some (evaluators !! idx))
  /\ (forall (fuel : nat) idx,
        run fuel evaluators tree dataSet <> LookupFailed idx).
Proof.
  intros Hsize HD Hfd HfdD Hmap Hcontract.
  assert (Hkeys : evaluatorKeys D fd evaluators).
  { destruct Hmap as [Hload|Hcompile].
    - by eapply loadEvaluators_keys.
    - by eapply compileEvaluators_Some_keys. }
  rewrite Hsize. split.
  - intros idx Hreach Hlt.
    destruct (runReaches_level evaluators D fd dataSet HD Hfd HfdD Hkeys
                Hcontract idx Hreach) as (Hidx & Hmod & _).
    split; [done|]. apply Hkeys. lia.
  - intros fuel idx. unfold run. rewrite Hsize.
    apply (runFrom_lookup evaluators D fd dataSet HD Hfd HfdD Hkeys
             Hcontract).
    constructor.
Qed.

(** ** Equivalence to the reference traversal *)

Section Refinement.

Variable llvm_log : spec_float -> spec_float.
Variable verifyFunction : SwitchCode -> bool.
Variables (tree : gmap Z TreeNode) (D fd sd : Z).
Variable dataSet : list spec_float.
Hypothesis Hperfect : perfectTree D tree = true.
Hypothesis HD : 0 <= D <= 62.
Hypothesis Hsd : 1 <= sd <= 5.
Hypothesis Hfd : 0 < fd < 2 ^ 31.
Hypothesis Hsdfd : (sd | fd).
Hypothesis HfdD : (fd | D).
Hypothesis Hfeat : featuresInRange D tree dataSet = true.

(** Past the leaf frontier the reference traversal stops; before it,
    it takes a step of [descend]. *)
Lemma interpret_spec_descend (r : nat) : forall i (fuel : nat),
  0 <= i -> Z.log2 (i + 1) + Z.of_nat r = D -> (r <= fuel)%nat ->
  interpret_spec llvm_log fuel tree (2 ^ D - 1) dataSet i
  = descend llvm_log tree dataSet r i.
Proof.
  induction r as [|r IH]; intros i fuel Hi Hlev Hfuel.
  - pose proof (leaf_range i D Hi ltac:(lia) ltac:(lia)).
    destruct fuel; cbn [interpret_spec descend];
      destruct (Z.ltb_spec i (2 ^ D - 1)); (lia || done).
  - destruct fuel as [|fuel]; [lia|].
    cbn [interpret_spec descend].
    assert (i < 2 ^ D - 1) by (apply internal_level; lia).
    destruct (Z.ltb_spec i (2 ^ D - 1)); [|lia].
    destruct (tree !! i) as [node|]; [|done]. cbn.
    destruct (nodePredicate_spec llvm_log node dataSet) as [[]|]; [| |done];
      cbn; apply IH; try lia.
    + rewrite log2_child_true by done. lia.
    + rewrite log2_child_false by done. lia.
Qed.

(** A compiled evaluator advances the traversal by functionDepth
    levels. *)
Lemma evaluator_descend module i :
  module !! i = emitSubtreeEvaluation tree i fd sd ->
  0 <= i -> Z.log2 (i + 1) + fd <= D ->
  getEvaluatorFnPtr llvm_log module i dataSet
  = descend llvm_log tree dataSet (Z.to_nat fd) i.
Proof.
  intros Hmod Hi Hfit. unfold getEvaluatorFnPtr. rewrite Hmod.
  destruct (emitSubtreeEvaluation_defined tree D fd sd i Hperfect
              ltac:(lia) Hsd ltac:(lia) Hsdfd Hi Hfit)
    as (code & -> & Hemit & Hlevels).
  cbn.
  destruct (emitSubtreeSwitches_descend llvm_log tree D sd dataSet
              Hperfect ltac:(lia) ltac:(lia) Hfeat
              (Z.to_nat (fd `div` sd - 1)) i Hi ltac:(lia))
    as (code' & Hemit' & Hrun).
  rewrite Hemit in Hemit'. injection Hemit' as <-.
  rewrite Hrun. f_equal. lia.
Qed.

Lemma runFrom_descend evaluators module (m : nat) :
  (forall i, i ∈ evaluatorNodes D fd ->
     evaluators !! i = Some (getEvaluatorFnPtr llvm_log module i)
     /\ module !! i = emitSubtreeEvaluation tree i fd sd) ->
  forall idx (fuel : nat),
  0 <= idx -> Z.log2 (idx + 1) + Z.of_nat m * fd = D -> (m <= fuel)%nat ->
  exists leaf,
    descend llvm_log tree dataSet (Z.to_nat (Z.of_nat m * fd)) idx
    = Some leaf
    /\ runFrom fuel evaluators (2 ^ D - 1) dataSet idx = Returned leaf.
Proof.
  intros Hev. induction m as [|m IH]; intros idx fuel Hidx Hlev Hfuel.
  - pose proof (leaf_range idx D Hidx ltac:(lia) ltac:(lia)).
    exists idx. split; [done|].
    destruct fuel; cbn [runFrom];
      destruct (Z.ltb_spec idx (2 ^ D - 1)); (lia || done).
  - destruct fuel as [|fuel]; [lia|].
    assert (Hnode : idx ∈ evaluatorNodes D fd).
    { apply evaluatorNodes_elem; [lia|lia|done|].
      split; [split; [done|apply internal_level; lia || nia]|].
      destruct HfdD as [n Hn].
      replace (Z.log2 (idx + 1)) with ((n - Z.of_nat (S m)) * fd) by lia.
      apply Z.mod_mul. lia. }
    destruct (Hev idx Hnode) as [Hlookup Hmod].
    destruct (descend_defined llvm_log tree D dataSet Hperfect Hfeat
                (Z.to_nat fd) idx Hidx ltac:(nia))
      as (next & Hnext & Hn0 & Hnl).
    cbn [runFrom].
    assert (idx < 2 ^ D - 1) by (apply internal_level; lia || nia).
    destruct (Z.ltb_spec idx (2 ^ D - 1)); [|lia].
    rewrite Hlookup.
    rewrite (evaluator_descend module idx Hmod Hidx ltac:(nia)), Hnext.
    rewrite to_int64_small.
    2:{ pose proof (level_bounds next Hn0) as [_ Hub].
        pose proof (pow2_le_mono (Z.log2 (next + 1) + 1) 63
                      ltac:(pose proof (Z.log2_nonneg (next + 1)); nia)).
        lia. }
    destruct (IH next fuel Hn0 ltac:(lia) ltac:(lia))
      as (leaf & Hdesc & Hrun).
    exists leaf. split; [|done].
    replace (Z.to_nat (Z.of_nat (S m) * fd))
      with (Z.to_nat fd + Z.to_nat (Z.of_nat m * fd))%nat by nia.
    rewrite descend_add, Hnext. done.
Qed.

End Refinement.

(** C1: for a perfect tree and an input that holds every feature the
    tree reads, the evaluators that compileEvaluators returns, iterated
    by run, end in the leaf that the reference traversal from node 0
    reaches. *)
Theorem compiled_equals_interpreter
    (llvm_log : spec_float -> spec_float)
    (verifyFunction : SwitchCode -> bool)
    (tree : gmap Z TreeNode) (D fd sd : Z) (dataSet : list spec_float) :
  perfectTree D tree = true -> 0 <= D <= 62 ->
  1 <= sd <= 5 -> 0 < fd < 2 ^ 31 -> (sd | fd) -> (fd | D) ->
  featuresInRange D tree dataSet = true ->
  exists evaluators leaf,
    compileEvaluators llvm_log verifyFunction tree D fd sd = Some evaluators
    /\ (forall fuel : nat, D `div` fd <= Z.of_nat fuel ->
          run fuel evaluators tree dataSet = Returned leaf)
    /\ (forall fuel : nat, D <= Z.of_nat fuel ->
          interpret_spec llvm_log fuel tree (2 ^ D - 1) dataSet 0
          = Some leaf)
    /\ 2 ^ D - 1 <= leaf < 2 ^ D - 1 + 2 ^ D.
Proof.
  intros Hperfect HD Hsd Hfd Hsdfd HfdD Hfeat.
  destruct (compileEvaluators_spec llvm_log verifyFunction tree D fd sd
              Hperfect HD Hsd Hfd Hsdfd HfdD) as (module & Hcompile & Hmod).
  set (evaluators := collectEvaluators (getEvaluatorFnPtr llvm_log module)
                       (reverse (evaluatorNodes D fd))) in *.
  assert (Hev : forall i, i ∈ evaluatorNodes D fd ->
            evaluators !! i = Some (getEvaluatorFnPtr llvm_log module i)
            /\ module !! i = emitSubtreeEvaluation tree i fd sd).
  { intros i Hi. split; [|by apply Hmod].
    unfold evaluators. rewrite collectEvaluators_lookup.
    apply decide_True. by apply elem_of_reverse. }
  pose proof HfdD as [n Hn]. assert (Hn0 : 0 <= n) by nia.
  assert (Hroot : Z.log2 (0 + 1) + Z.of_nat (Z.to_nat n) * fd = D).
  { change (Z.log2 (0 + 1)) with 0. lia. }
  destruct (runFrom_descend llvm_log tree D fd sd dataSet Hperfect HD Hsd
              Hfd Hsdfd HfdD Hfeat evaluators module (Z.to_nat n) Hev
              0 (Z.to_nat n) ltac:(lia) Hroot ltac:(lia))
    as (leaf & Hdesc & _).
  exists evaluators, leaf. split; [done|].
  assert (Hsteps : Z.to_nat (Z.of_nat (Z.to_nat n) * fd) = Z.to_nat D)
    by (f_equal; lia).
  rewrite Hsteps in Hdesc.
  split; [|split].
  - intros fuel Hfuel. unfold run.
    rewrite (perfectTree_size D tree Hperfect).
    rewrite Hn, Z.div_mul in Hfuel by lia.
    destruct (runFrom_descend llvm_log tree D fd sd dataSet Hperfect HD Hsd
                Hfd Hsdfd HfdD Hfeat evaluators module (Z.to_nat n) Hev
                0 fuel ltac:(lia) Hroot ltac:(lia))
      as (leaf' & Hdesc' & Hrun).
    rewrite Hsteps, Hdesc in Hdesc'. injection Hdesc' as <-. done.
  - intros fuel Hfuel.
    rewrite (interpret_spec_descend llvm_log tree D dataSet HD (Z.to_nat D));
      [done|lia| |lia].
    change (Z.log2 (0 + 1)) with 0. lia.
  - destruct (descend_defined llvm_log tree D dataSet Hperfect Hfeat
                (Z.to_nat D) 0 ltac:(lia)) as (leaf' & Hdesc' & Hl0 & Hll).
    { change (Z.log2 (0 + 1)) with 0. lia. }
    rewrite Hdesc in Hdesc'. injection Hdesc' as <-.
    change (Z.log2 (0 + 1)) with 0 in Hll.
    apply leaf_range; lia.
Qed.

Lemma compiled_equals_interpreter_witness :
  exists evaluators leaf,
    compileEvaluators (fun x => x) (fun _ => false) sampleTree2 2 2 1
    = Some evaluators
    /\ run 1 evaluators sampleTree2 [threeQuarters] = Returned leaf
    /\ interpret_spec (fun x => x) 2 sampleTree2 (2 ^ 2 - 1)
                      [threeQuarters] 0 = Some leaf.
Proof.
  destruct (compiled_equals_interpreter (fun x => x) (fun _ => false)
              sampleTree2 2 2 1 [threeQuarters]
              ltac:(vm_compute; reflexivity) ltac:(lia) ltac:(lia)
              ltac:(lia) ltac:(exists 2; lia) ltac:(exists 1; lia)
              ltac:(vm_compute; reflexivity))
    as (evaluators & leaf & Hcompile & Hrun & Hspec & _).
  exists evaluators, leaf. split; [exact Hcompile|]. split.
  - apply Hrun. vm_compute. discriminate.
  - apply Hspec. vm_compute. discriminate.
Defined.

Lemma compileEvaluators_keys_witness :
  exists evaluators,
    compileEvaluators (fun x => x) (fun _ => false) sampleTree2 2 1 1
    = Some evaluators
    /\ Z.of_nat (size evaluators) = getNumCompiledEvaluators 2 1.
Proof.
  destruct (compileEvaluators_keys (fun x => x) (fun _ => false)
              sampleTree2 2 1 1
              ltac:(vm_compute; reflexivity) ltac:(lia) ltac:(lia)
              ltac:(lia) ltac:(exists 1; lia) ltac:(exists 2; lia))
    as (evaluators & Hcompile & _ & _ & Hsize).
  exists evaluators. split; [exact Hcompile | exact Hsize].
Defined.

(** ** NaN inputs *)

(** C9: when the loaded and op-transformed feature value of a node is
    NaN, the emitted comparison is false under LessThan and under
    GreaterThan, so the node's bit is 0 and the traversal takes the
    false child 2i+1. *)
Theorem nan_routes_false
    (llvm_log : spec_float -> spec_float)
    (tree : gmap Z TreeNode) (i : Z) (node : TreeNode)
    (dataSet : list spec_float) (v : spec_float) :
  tree !! i = Some node ->
  0 <= DataSetFeatureIdx node < 2 ^ 32 ->
  dataSet !! Z.to_nat (DataSetFeatureIdx node) = Some v ->
  emitOperator llvm_log (Op node) v = S754_nan ->
  (forall bias, emitComparison LessThan bias S754_nan = false
                /\ emitComparison GreaterThan bias S754_nan = false)
  /\ emitSingleNodeEvaluaton llvm_log node dataSet = Some false
  /\ descend llvm_log tree dataSet 1 i = Some (2 * i + 1).
Proof.
  intros Hnode Hidx Hload Hnan.
  split; [by intros bias|].
  assert (Heval : emitSingleNodeEvaluaton llvm_log node dataSet = Some false).
  { unfold emitSingleNodeEvaluaton. rewrite to_unsigned_small by done.
    rewrite Hload. cbn. rewrite Hnan. by destruct (Comp node). }
  split; [done|].
  cbn [descend]. rewrite Hnode. cbn.
  rewrite <- emitSingleNodeEvaluaton_spec, Heval by done. done.
Qed.

Lemma nan_routes_false_witness :
  emitSingleNodeEvaluaton (fun x => x) (sampleNode 0 half 0) [S754_nan]
  = Some false
  /\ descend (fun x => x) sampleTree2 [S754_nan] 1 0 = Some 1.
Proof.
  destruct (nan_routes_false (fun x => x) sampleTree2 0 (sampleNode 0 half 0)
              [S754_nan] S754_nan
              ltac:(vm_compute; reflexivity) ltac:(vm_compute; done)
              ltac:(reflexivity) ltac:(reflexivity))
    as (_ & Heval & Hstep).
  split; [exact Heval | exact Hstep].
Defined.

(** ** Types of the emitted switch *)

(** Every emitted switch switches on an i64 value and gives its case
    constants the type i<numNodes + 1>. *)
Lemma emitSubtreeSwitchesRecursively_types tree R k nested cv targets :
  emitSubtreeSwitchesRecursively tree R k nested = Some (SwitchInst cv targets) ->
  cvTy cv = 64
  /\ Forall (fun target : NodeBlock * list ConstantInt =>
               Forall (fun caseVal => intTy caseVal = TreeNodes k + 1)
                      (target.2))
            targets.
Proof.
  rewrite emitSubtreeSwitchesRecursively_unfold.
  destruct (emitComputeConditionVector tree R k (TreeNodes k) ∅)
    as [[code offs]|] eqn:Hemit; [|done].
  cbn. destruct (buildSubtreeLeafNodePathsBitsMapsRecursively _ _ _ _ _)
    as [descs|]; [|done].
  cbn. destruct (_ =? _); [|done].
  destruct (mapM _ descs) as [targets'|] eqn:Hmap; [|done].
  cbn. intros [= <- <-]. split.
  - unfold emitComputeConditionVector in Hemit.
    revert code offs Hemit.
    generalize (seqZ 0 (TreeNodes k)) as bits.
    induction bits as [|b bits IH] using rev_ind; intros code offs Hfold.
    + apply (f_equal (fun r : option (ConditionVectorCode * gmap Z Z) =>
                        match r with Some (c, _) => cvTy c | None => 0 end))
        in Hfold.
      symmetry. exact Hfold.
    + rewrite foldl_snoc in Hfold.
      destruct (foldl _ _ bits) as [[code' offs']|] eqn:Hprev; [|done].
      cbn in Hfold. destruct (tree !! _); [|done].
      apply (f_equal (fun r : option (ConditionVectorCode * gmap Z Z) =>
                        match r with Some (c, _) => cvTy c | None => 0 end))
        in Hfold.
      cbn in Hfold. rewrite <- Hfold.
      exact (IH code' offs' eq_refl).
  - apply mapM_Some_1 in Hmap.
    apply Forall_forall. intros target Htarget.
    apply list_elem_of_lookup in Htarget as [j Hj].
    destruct (Forall2_lookup_r _ _ _ _ _ Hmap Hj) as (d & _ & Hd).
    unfold emitLeafTarget in Hd.
    destruct (match nested with O => _ | S _ => _ end); [|done].
    cbn in Hd. destruct (leafVariants _ d); [|done].
    cbn in Hd. injection Hd as <-. cbn.
    unfold caseConstants. apply Forall_fmap, Forall_true. done.
Qed.

(** C6 fails on the code: on the sample tree with one switch level the
    condition vector is an i64 and every case constant is an i2, which
    the verifier's rule for switches rejects. *)
Lemma switch_case_types_differ :
  exists cv targets,
    emitSubtreeSwitchesRecursively sampleTree2 0 1 0
    = Some (SwitchInst cv targets)
    /\ cvTy cv = 64
    /\ targets
       = [(StoreLeafIdx 2, [mkConstantInt 2 1]);
          (StoreLeafIdx 1, [mkConstantInt 2 0])]
    /\ verifySwitchTypes (SwitchInst cv targets) = true.
Proof. eexists _, _. vm_compute. repeat split; reflexivity. Qed.

(** C7 fails on the code: the verdict of the verifier is dropped, so a
    module whose functions the verifier rejects is still submitted and
    its evaluators are returned. *)
Lemma verification_failure_ignored :
  (forall code,
     emitSubtreeEvaluation sampleTree2 0 1 1 = Some code ->
     verifySwitchTypes code = true)
  /\ is_Some (compileEvaluators (fun x => x) verifySwitchTypes
                                sampleTree2 2 1 1)
  /\ forall llvm_log verifyFunction tree D fd sd,
       compileEvaluators llvm_log verifyFunction tree D fd sd
       = compileEvaluators llvm_log (fun _ => false) tree D fd sd.
Proof.
  split; [|split].
  - intros code Hcode. vm_compute in Hcode. injection Hcode as <-.
    vm_compute. reflexivity.
  - destruct (compileEvaluators_spec (fun x => x) verifySwitchTypes
                sampleTree2 2 1 1
                ltac:(vm_compute; reflexivity) ltac:(lia) ltac:(lia)
                ltac:(lia) ltac:(exists 1; lia) ltac:(exists 2; lia))
      as (module & -> & _). by eexists.
  - reflexivity.
Qed.

(** ** The sample tree, worked through *)

Example sample_bit_offsets :
  snd <$> emitComputeConditionVector sampleTree2 0 2 (TreeNodes 2) ∅
  = Some {[0 := 0; 1 := 1; 2 := 2]}.
Proof. vm_compute. reflexivity. Qed.

Example sample_descriptors :
  buildSubtreeLeafNodePathsBitsMapsRecursively
    sampleTree2 0 2 {[0 := 0; 1 := 1; 2 := 2]} []
  = Some [(6, {[0 := true; 2 := true]}); (5, {[0 := true; 2 := false]});
          (4, {[0 := false; 1 := true]}); (3, {[0 := false; 1 := false]})].
Proof. vm_compute. reflexivity. Qed.

Example sample_variants :
  leafVariants 3 (6, {[0 := true; 2 := true]}) = Some [7; 5]
  /\ leafVariants 3 (5, {[0 := true; 2 := false]}) = Some [3; 1]
  /\ leafVariants 3 (4, {[0 := false; 1 := true]}) = Some [6; 2]
  /\ leafVariants 3 (3, {[0 := false; 1 := false]}) = Some [4; 0].
Proof. vm_compute. repeat split; reflexivity. Qed.

Example sample_evaluator_count :
  getNumCompiledEvaluators 6 2 = 21 /\ getNumCompiledEvaluators 2 1 = 3.
Proof. vm_compute. split; reflexivity. Qed.

Example sample_run :
  (evaluators ← compileEvaluators (fun x => x) (fun _ => false)
                                  sampleTree2 2 1 1;
   Some (run 2 evaluators sampleTree2 [quarter],
         run 2 evaluators sampleTree2 [threeQuarters]))
  = Some (Returned 6, Returned 3).
Proof. vm_compute. reflexivity. Qed.

(** ** Index arithmetic: the heap numbering of bit offsets *)

(** X1: within a subtree, bit offset 0 is the subtree root, and the
    nodes at the bit offsets 2b+1 and 2b+2 are the false child and the
    true child of the node at bit offset b: the bit offsets number the
    subtree the way the indices number the whole tree. *)
Theorem getNodeIdxForSubtreeBitOffset_children (R k b : Z) :
  0 <= R -> 0 <= k <= 32 -> Z.log2 (R + 1) + k <= 62 ->
  0 <= b -> 2 * b + 2 < 2 ^ k - 1 ->
  getNodeIdxForSubtreeBitOffset R k 0 = R
  /\ getNodeIdxForSubtreeBitOffset R k (2 * b + 1)
     = 2 * getNodeIdxForSubtreeBitOffset R k b + 1
  /\ getNodeIdxForSubtreeBitOffset R k (2 * b + 2)
     = 2 * getNodeIdxForSubtreeBitOffset R k b + 2.
Proof.
  intros HR Hk Hfit Hb Hb'.
  rewrite !getNodeIdx_subtreeIdx by lia.
  rewrite subtreeIdx_root, subtreeIdx_false, subtreeIdx_true by lia.
  done.
Qed.

Lemma getNodeIdxForSubtreeBitOffset_children_witness :
  getNodeIdxForSubtreeBitOffset 4 3 0 = 4
  /\ getNodeIdxForSubtreeBitOffset 4 3 (2 * 1 + 1)
     = 2 * getNodeIdxForSubtreeBitOffset 4 3 1 + 1
  /\ getNodeIdxForSubtreeBitOffset 4 3 (2 * 1 + 2)
     = 2 * getNodeIdxForSubtreeBitOffset 4 3 1 + 2.
Proof.
  apply (getNodeIdxForSubtreeBitOffset_children 4 3 1);
    [lia | lia | vm_compute; discriminate | lia | vm_compute; reflexivity].
Defined.

Lemma getNodeIdx_subtreeIdx_level R k b :
  0 <= R -> 0 <= b -> Z.log2 (b + 1) <= 30 ->
  Z.log2 (R + 1) + Z.log2 (b + 1) <= 61 ->
  getNodeIdxForSubtreeBitOffset R k b = subtreeIdx R b.
Proof.
  intros HR Hb Hl Hfit.
  assert (b + 1 < 2 ^ 31).
  { apply Z.log2_lt_pow2; lia. }
  rewrite getNodeIdx_formula by lia.
  apply nodeIdxFormula_closed.
Qed.

(** X2: taking a bit offset within the subtree of a node that was itself
    reached by a bit offset is taking one bit offset from the outer
    root; the combined offset is computed by the same function.  The
    levels parameter plays no part. *)
Theorem getNodeIdxForSubtreeBitOffset_assoc (R k1 k2 k3 k4 b1 b2 : Z) :
  0 <= R -> 0 <= b1 -> 0 <= b2 ->
  Z.log2 (b1 + 1) + Z.log2 (b2 + 1) <= 30 ->
  Z.log2 (R + 1) + Z.log2 (b1 + 1) + Z.log2 (b2 + 1) <= 61 ->
  getNodeIdxForSubtreeBitOffset (getNodeIdxForSubtreeBitOffset R k1 b1) k2 b2
  = getNodeIdxForSubtreeBitOffset R k3 (getNodeIdxForSubtreeBitOffset b1 k4 b2).
Proof.
  intros HR Hb1 Hb2 Hl Hfit.
  pose proof (Z.log2_nonneg (R + 1)).
  pose proof (Z.log2_nonneg (b1 + 1)).
  pose proof (Z.log2_nonneg (b2 + 1)).
  rewrite (getNodeIdx_subtreeIdx_level R k1 b1) by lia.
  rewrite (getNodeIdx_subtreeIdx_level b1 k4 b2) by lia.
  pose proof (subtreeIdx_nonneg R b1 HR Hb1).
  pose proof (subtreeIdx_nonneg b1 b2 Hb1 Hb2).
  pose proof (subtreeIdx_level R b1 HR Hb1) as HlR.
  pose proof (subtreeIdx_level b1 b2 Hb1 Hb2) as Hlb.
  rewrite !getNodeIdx_subtreeIdx_level by lia.
  unfold subtreeIdx at 1 3. rewrite Hlb.
  unfold subtreeIdx. rewrite Z.pow_add_r by lia. ring.
Qed.

Lemma getNodeIdxForSubtreeBitOffset_assoc_witness :
  getNodeIdxForSubtreeBitOffset (getNodeIdxForSubtreeBitOffset 1 2 3) 2 1
  = getNodeIdxForSubtreeBitOffset 1 4 (getNodeIdxForSubtreeBitOffset 3 2 1).
Proof.
  apply (getNodeIdxForSubtreeBitOffset_assoc 1 2 2 4 2 3 1);
    [lia | lia | lia | vm_compute; discriminate | vm_compute; discriminate].
Defined.

(** ** Evaluators and tree size *)

Lemma evaluatorTotal_closed fd (n : nat) :
  0 < fd ->
  foldr Z.add 0 ((fun k => 2 ^ (k * fd)) <$> seqZ 0 (Z.of_nat n))
    * (2 ^ fd - 1)
  = 2 ^ (Z.of_nat n * fd) - 1.
Proof.
  intros Hfd. induction n as [|n IH].
  - reflexivity.
  - rewrite evaluatorTotal_step, Z.mul_add_distr_r, IH.
    replace (Z.of_nat (S n) * fd) with (Z.of_nat n * fd + fd) by lia.
    rewrite Z.pow_add_r by nia. ring.
Qed.

(** X3: the evaluators tile the tree: the expected number of evaluators
    times the 2^fd - 1 internal nodes that one evaluator decides is the
    number 2^D - 1 of internal nodes of the tree. *)
Theorem getNumCompiledEvaluators_tiles (D fd : Z) :
  0 < fd < 2 ^ 31 -> 0 <= D <= 62 -> (fd | D) ->
  getNumCompiledEvaluators D fd * evaluatorSubtreeNodes fd = 2 ^ D - 1.
Proof.
  intros Hfd HD Hdiv.
  rewrite getNumCompiledEvaluators_total by done.
  unfold evaluatorTotal_spec, evaluatorSubtreeNodes.
  pose proof Hdiv as [n Hn].
  assert (0 <= n) by nia.
  replace (D `div` fd) with (Z.of_nat (Z.to_nat n))
    by (subst D; rewrite Z.div_mul by lia; lia).
  rewrite evaluatorTotal_closed by lia.
  do 2 f_equal. lia.
Qed.

Lemma getNumCompiledEvaluators_tiles_witness :
  getNumCompiledEvaluators 6 2 * evaluatorSubtreeNodes 2 = 2 ^ 6 - 1.
Proof.
  apply (getNumCompiledEvaluators_tiles 6 2);
    [lia | lia | exists 3; reflexivity].
Defined.

(** ** What one compiled evaluator computes *)

Lemma descend_levelsBelow llvm_log tree dataSet (r : nat) : forall i j,
  0 <= i -> descend llvm_log tree dataSet r i = Some j ->
  levelsBelow (Z.of_nat r) i j = true.
Proof.
  induction r as [|r IH]; intros i j Hi Hd.
  - cbn in Hd. injection Hd as <-. unfold levelsBelow.
    change (2 ^ Z.of_nat 0) with 1.
    apply andb_true_intro. split; [apply Z.leb_le|apply Z.ltb_lt]; lia.
  - cbn [descend] in Hd.
    destruct (tree !! i) as [node|]; [|done]. cbn in Hd.
    destruct (nodePredicate_spec llvm_log node dataSet) as [holds|];
      [|done].
    cbn in Hd. apply IH in Hd; [|destruct holds; lia].
    unfold levelsBelow in *. apply andb_prop in Hd as [H1 H2].
    apply Z.leb_le in H1. apply Z.ltb_lt in H2.
    rewrite Nat2Z.inj_succ, Z.pow_succ_r by lia.
    apply andb_true_intro.
    split; [apply Z.leb_le|apply Z.ltb_lt]; destruct holds; nia.
Qed.

(** X4: each evaluator that compileEvaluators returns, called on a data
    set that holds every feature of the tree, returns the index that
    functionDepth steps of the reference traversal reach from its node,
    an index exactly functionDepth levels below that node: the compiled
    functions meet the contract that run relies on. *)
Theorem compiled_evaluator_descends
    (llvm_log : spec_float -> spec_float)
    (verifyFunction : SwitchCode -> bool)
    (tree : gmap Z TreeNode) (D fd sd : Z) (dataSet : list spec_float) :
  perfectTree D tree = true -> 0 <= D <= 62 ->
  1 <= sd <= 5 -> 0 < fd < 2 ^ 31 -> (sd | fd) -> (fd | D) ->
  featuresInRange D tree dataSet = true ->
  exists evaluators,
    compileEvaluators llvm_log verifyFunction tree D fd sd = Some evaluators
    /\ forall i evaluator,
         evaluators !! i = Some evaluator ->
         exists r,
           evaluator dataSet = Some r
           /\ descend llvm_log tree dataSet (Z.to_nat fd) i = Some r
           /\ levelsBelow fd i r = true.
Proof.
  intros Hperfect HD Hsd Hfd Hsdfd HfdD Hfeat.
  destruct (compileEvaluators_spec llvm_log verifyFunction tree D fd sd
              Hperfect HD Hsd Hfd Hsdfd HfdD) as (module & Hcompile & Hmod).
  eexists. split; [exact Hcompile|].
  intros i evaluator Hev.
  rewrite collectEvaluators_lookup in Hev.
  destruct (decide (i ∈ reverse (evaluatorNodes D fd))) as [Hin|]; [|done].
  rewrite elem_of_reverse in Hin. injection Hev as <-.
  destruct (evaluatorNodes_fit tree D fd Hperfect HD Hfd HfdD i Hin)
    as [Hi Hfit].
  rewrite (evaluator_descend llvm_log tree D fd sd dataSet Hperfect HD Hsd
             Hfd Hsdfd Hfeat module i (Hmod i Hin) ltac:(lia) Hfit).
  destruct (descend_defined llvm_log tree D dataSet Hperfect Hfeat
              (Z.to_nat fd) i ltac:(lia) ltac:(lia))
    as (r & Hdesc & _).
  exists r. split; [done|]. split; [done|].
  replace fd with (Z.of_nat (Z.to_nat fd)) at 1 by lia.
  apply (descend_levelsBelow llvm_log tree dataSet _ i r); [lia|done].
Qed.

Lemma compiled_evaluator_descends_witness :
  exists evaluators,
    compileEvaluators (fun x => x) (fun _ => false) sampleTree2 2 1 1
    = Some evaluators
    /\ forall i evaluator,
         evaluators !! i = Some evaluator ->
         exists r,
           evaluator [quarter] = Some r
           /\ descend (fun x => x) sampleTree2 [quarter] (Z.to_nat 1) i
              = Some r
           /\ levelsBelow 1 i r = true.
Proof.
  apply (compiled_evaluator_descends (fun x => x) (fun _ => false)
           sampleTree2 2 1 1 [quarter]);
    [vm_compute; reflexivity | lia | lia | lia | exists 1; lia
    | exists 2; lia | vm_compute; reflexivity].
Defined.

(** ** The cache path and the compile path *)

Lemma collectEvaluators_reverse getFn (nodes : list Z) :
  collectEvaluators getFn (reverse nodes) = collectEvaluators getFn nodes.
Proof.
  apply map_eq. intros i. rewrite !collectEvaluators_lookup.
  destruct (decide (i ∈ reverse nodes)) as [Hin|Hnin];
    rewrite elem_of_reverse in *.
  - by rewrite decide_True.
  - by rewrite decide_False.
Qed.

Lemma evaluatorNodes_count getFn D fd :
  0 < fd < 2 ^ 31 -> 0 <= D <= 62 -> (fd | D) ->
  getNumCompiledEvaluators D fd
  = Z.of_nat (size (collectEvaluators getFn (evaluatorNodes D fd))).
Proof.
  intros Hfd HD HfdD.
  rewrite getNumCompiledEvaluators_total by done.
  rewrite collectEvaluators_size by (apply evaluatorNodes_NoDup; lia).
  rewrite evaluatorNodes_length by lia. done.
Qed.

(** X5: the constructor builds the same evaluators from the cache as
    by compiling, and succeeds both ways, when the cached object file
    resolves every evaluator name to the function of the module that
    compilation composes for this tree and these depths.  The tree depth
    that the constructor derives from the tree size is the depth D of
    the tree. *)
Theorem cache_round_trip
    (llvm_log : spec_float -> spec_float)
    (verifyFunction : SwitchCode -> bool)
    (isPowerOf2 : Z -> bool)
    (tree : gmap Z TreeNode) (D fd sd : Z)
    (module : gmap Z SwitchCode) (processedNodes : list Z) :
  Z.of_nat (size tree) = 2 ^ D - 1 -> 0 <= D <= 62 ->
  0 < fd < 2 ^ 31 -> (fd | D) ->
  isPowerOf2 (2 ^ D) = true ->
  composeEvaluators verifyFunction tree D fd sd
  = Some (module, processedNodes) ->
  CompiledResolver_new llvm_log verifyFunction isPowerOf2
    (getEvaluatorFnPtr llvm_log module) true tree fd sd
  = CompiledResolver_new llvm_log verifyFunction isPowerOf2
      (getEvaluatorFnPtr llvm_log module) false tree fd sd
  /\ CompiledResolver_new llvm_log verifyFunction isPowerOf2
       (getEvaluatorFnPtr llvm_log module) false tree fd sd
     = compileEvaluators llvm_log verifyFunction tree D fd sd
  /\ is_Some (compileEvaluators llvm_log verifyFunction tree D fd sd).
Proof.
  intros Hsize HD Hfd HfdD Hpow Hcompose.
  unfold CompiledResolver_new. rewrite Hsize.
  replace (2 ^ D - 1 + 1) with (2 ^ D) by lia.
  assert (Hwrap : wrap_unsigned 64 (2 ^ D) = 2 ^ D).
  { unfold wrap_unsigned. apply Z.mod_small.
    pose proof (pow2_pos D ltac:(lia)).
    pose proof (pow2_le_mono D 62 ltac:(lia)). lia. }
  rewrite Hwrap, Hpow. unfold Log2. rewrite Z.log2_pow2 by lia.
  rewrite to_int_small by lia.
  assert (Hload :
    loadEvaluators (getEvaluatorFnPtr llvm_log module) tree D fd
    = Some (collectEvaluators (getEvaluatorFnPtr llvm_log module)
                              (evaluatorNodes D fd))).
  { unfold loadEvaluators.
    rewrite evaluatorLevels_divides by (lia || done). cbn.
    rewrite load_level_nodes
      by (intros l Hl; apply (evaluator_levels_range D fd l); done || lia).
    fold (evaluatorNodes D fd).
    rewrite <- evaluatorNodes_count by done. by rewrite Z.eqb_refl. }
  assert (Hcompile :
    compileEvaluators llvm_log verifyFunction tree D fd sd
    = Some (collectEvaluators (getEvaluatorFnPtr llvm_log module)
                              (evaluatorNodes D fd))).
  { unfold compileEvaluators. rewrite Hcompose. cbn.
    assert (Hrem : Z.rem D fd = 0) by (apply Z.rem_divide; lia || done).
    rewrite Hrem. cbn.
    unfold composeEvaluators in Hcompose.
    rewrite evaluatorLevels_divides in Hcompose by (lia || done).
    cbn in Hcompose.
    apply (compose_fold_processed verifyFunction tree fd sd) in Hcompose.
    rewrite app_nil_r in Hcompose. subst processedNodes.
    rewrite compile_level_nodes
      by (intros l Hl; apply (evaluator_levels_range D fd l); done || lia).
    fold (evaluatorNodes D fd).
    rewrite collectEvaluators_reverse.
    rewrite <- evaluatorNodes_count by done. by rewrite Z.eqb_refl. }
  rewrite Hload, Hcompile. split; [done|]. split; [done|]. by eexists.
Qed.

Lemma cache_round_trip_witness :
  exists module,
    CompiledResolver_new (fun x => x) (fun _ => false)
      (fun n => n =? 2 ^ Z.log2 n)
      (getEvaluatorFnPtr (fun x => x) module) true sampleTree2 1 1
    = CompiledResolver_new (fun x => x) (fun _ => false)
        (fun n => n =? 2 ^ Z.log2 n)
        (getEvaluatorFnPtr (fun x => x) module) false sampleTree2 1 1
    /\ is_Some (compileEvaluators (fun x => x) (fun _ => false)
                                  sampleTree2 2 1 1).
Proof.
  destruct (composeEvaluators (fun _ => false) sampleTree2 2 1 1)
    as [[module processedNodes]|] eqn:Hcompose;
    [|vm_compute in Hcompose; discriminate].
  exists module.
  destruct (cache_round_trip (fun x => x) (fun _ => false)
              (fun n => n =? 2 ^ Z.log2 n) sampleTree2 2 1 1
              module processedNodes
              ltac:(vm_compute; reflexivity) ltac:(lia) ltac:(lia)
              ltac:(exists 2; lia) ltac:(vm_compute; reflexivity) Hcompose)
    as (Hsame & _ & Hsome).
  split; [exact Hsame | exact Hsome].
Defined.

(** ** Depths that do not fit *)

Lemma foldl_bind_None {A B} (g : B -> A -> option A) (l : list B) :
  foldl (fun acc x => acc ≫= g x) None l = None.
Proof. by induction l. Qed.

(** X6: compileEvaluators gives up on its assertions, for a tree of
    positive depth, when functionDepth does not divide the tree depth,
    and also when switchDepth does not divide functionDepth: the first
    function it emits, for the root, fails the assertion of
    emitSubtreeEvaluation. *)
Theorem compileEvaluators_depth_mismatch
    (llvm_log : spec_float -> spec_float)
    (verifyFunction : SwitchCode -> bool)
    (tree : gmap Z TreeNode) (D fd sd : Z) :
  0 < D -> Z.rem D fd <> 0 \/ Z.rem fd sd <> 0 ->
  compileEvaluators llvm_log verifyFunction tree D fd sd = None.
Proof.
  intros HD Hrem. unfold compileEvaluators.
  destruct (Z.eqb_spec (Z.rem D fd) 0) as [HDfd|]; [|done].
  destruct Hrem as [|Hrem]; [done|].
  unfold composeEvaluators.
  cbn [evaluatorLevels]. destruct (Z.ltb_spec 0 D); [|lia].
  destruct (evaluatorLevels _ _ _ _) as [levels|]; [|done].
  cbn.
  replace (seqZ (TreeNodes 0) (TreeNodes (to_int (0 + 1)) - TreeNodes 0))
    with [0] by (vm_compute; reflexivity).
  cbn.
  match goal with
  | |- context [foldl ?g ?a ?l] =>
      assert (Hinit : a = None); [|rewrite Hinit]
  end.
  { unfold emitSubtreeEvaluation.
    destruct (Z.eqb_spec (Z.rem fd sd) 0); [done|].
    by destruct (tree !! 0). }
  by rewrite foldl_bind_None.
Qed.

Lemma compileEvaluators_depth_mismatch_witness :
  compileEvaluators (fun x => x) (fun _ => false) sampleTree2 2 2 3 = None.
Proof.
  apply (compileEvaluators_depth_mismatch (fun x => x) (fun _ => false)
           sampleTree2 2 2 3);
    [lia | right; vm_compute; discriminate].
Defined.

(** ** The loop of run, for any evaluators *)

(** X7: whatever the evaluators map holds, an index that run returns is
    not the index of a node of the tree, and the lookup that throws is
    at an index below tree.size() that has no evaluator. *)
Theorem run_outcome_sound (fuel : nat)
    (evaluators : gmap Z SubtreeEvaluator_f) (tree : gmap Z TreeNode)
    (dataSet : list spec_float) :
  match run fuel evaluators tree dataSet with
  | Returned result => Z.of_nat (size tree) <= result
  | LookupFailed failed =>
      failed < Z.of_nat (size tree) /\ evaluators !! failed = None
  | Undefined | OutOfFuel => True
  end.
Proof.
  unfold run. generalize (Z.of_nat (size tree)) as firstResultIdx.
  intros firstResultIdx. generalize 0 as idx. revert firstResultIdx.
  induction fuel as [|fuel IH]; intros firstResultIdx idx;
    cbn [runFrom]; destruct (Z.ltb_spec idx firstResultIdx); try done.
  destruct (evaluators !! idx) as [evaluator|] eqn:Hev; [|done].
  destruct (evaluator dataSet) as [next|]; [|done].
  apply IH.
Qed.

(** ** The data that compiled evaluation depends on *)

Lemma descend_ext llvm_log tree dataSet dataSet' :
  (forall j node, tree !! j = Some node ->
     dataSet !! Z.to_nat (DataSetFeatureIdx node)
     = dataSet' !! Z.to_nat (DataSetFeatureIdx node)) ->
  forall (r : nat) i,
  descend llvm_log tree dataSet r i = descend llvm_log tree dataSet' r i.
Proof.
  intros Hagree r. induction r as [|r IH]; intros i; [done|].
  cbn [descend]. destruct (tree !! i) as [node|] eqn:Hnode; [|done]. cbn.
  unfold nodePredicate_spec. rewrite (Hagree i node Hnode).
  destruct (dataSet' !! _); [|done]. cbn. apply IH.
Qed.

Lemma featuresInRange_ext D tree dataSet dataSet' :
  (forall j node, tree !! j = Some node ->
     dataSet !! Z.to_nat (DataSetFeatureIdx node)
     = dataSet' !! Z.to_nat (DataSetFeatureIdx node)) ->
  featuresInRange D tree dataSet = true ->
  featuresInRange D tree dataSet' = true.
Proof.
  intros Hagree. unfold featuresInRange. rewrite !forallb_forall.
  intros Hfeat i Hi. specialize (Hfeat i Hi). unfold featureInRange in *.
  destruct (tree !! i) as [node|] eqn:Hnode; [|done].
  apply andb_prop in Hfeat as [Hfeat H32].
  apply andb_prop in Hfeat as [H0 Hlen].
  apply Z.leb_le in H0. apply Z.ltb_lt in Hlen.
  rewrite H32, andb_true_r. apply andb_true_intro.
  split; [by apply Z.leb_le|]. apply Z.ltb_lt.
  destruct (lookup_lt_is_Some_2 dataSet (Z.to_nat (DataSetFeatureIdx node))
              ltac:(lia)) as [v Hv].
  rewrite (Hagree i node Hnode) in Hv.
  apply lookup_lt_Some in Hv. lia.
Qed.

Lemma compiled_run_descend llvm_log verifyFunction tree D fd sd dataSet :
  perfectTree D tree = true -> 0 <= D <= 62 ->
  1 <= sd <= 5 -> 0 < fd < 2 ^ 31 -> (sd | fd) -> (fd | D) ->
  featuresInRange D tree dataSet = true ->
  exists evaluators leaf,
    compileEvaluators llvm_log verifyFunction tree D fd sd = Some evaluators
    /\ descend llvm_log tree dataSet (Z.to_nat D) 0 = Some leaf
    /\ forall fuel : nat, D `div` fd <= Z.of_nat fuel ->
         run fuel evaluators tree dataSet = Returned leaf.
Proof.
  intros Hperfect HD Hsd Hfd Hsdfd HfdD Hfeat.
  destruct (compileEvaluators_spec llvm_log verifyFunction tree D fd sd
              Hperfect HD Hsd Hfd Hsdfd HfdD) as (module & Hcompile & Hmod).
  set (evaluators := collectEvaluators (getEvaluatorFnPtr llvm_log module)
                       (reverse (evaluatorNodes D fd))) in *.
  assert (Hev : forall i, i ∈ evaluatorNodes D fd ->
            evaluators !! i = Some (getEvaluatorFnPtr llvm_log module i)
            /\ module !! i = emitSubtreeEvaluation tree i fd sd).
  { intros i Hi. split; [|by apply Hmod].
    unfold evaluators. rewrite collectEvaluators_lookup.
    apply decide_True. by apply elem_of_reverse. }
  pose proof HfdD as [n Hn]. assert (Hn0 : 0 <= n) by nia.
  assert (Hroot : Z.log2 (0 + 1) + Z.of_nat (Z.to_nat n) * fd = D).
  { change (Z.log2 (0 + 1)) with 0. lia. }
  assert (Hsteps : Z.to_nat (Z.of_nat (Z.to_nat n) * fd) = Z.to_nat D)
    by (f_equal; lia).
  destruct (runFrom_descend llvm_log tree D fd sd dataSet Hperfect HD Hsd
              Hfd Hsdfd HfdD Hfeat evaluators module (Z.to_nat n) Hev
              0 (Z.to_nat n) ltac:(lia) Hroot ltac:(lia))
    as (leaf & Hdesc & _).
  rewrite Hsteps in Hdesc.
  exists evaluators, leaf. split; [done|]. split; [done|].
  intros fuel Hfuel. unfold run.
  rewrite (perfectTree_size D tree Hperfect).
  rewrite Hn, Z.div_mul in Hfuel by lia.
  destruct (runFrom_descend llvm_log tree D fd sd dataSet Hperfect HD Hsd
              Hfd Hsdfd HfdD Hfeat evaluators module (Z.to_nat n) Hev
              0 fuel ltac:(lia) Hroot ltac:(lia))
    as (leaf' & Hdesc' & Hrun).
  rewrite Hsteps, Hdesc in Hdesc'. injection Hdesc' as <-. done.
Qed.

(** X8: compiled evaluation depends on the data set only through the
    features that the nodes of the tree name: two data sets that agree
    on those entries, however long they are and whatever else they
    hold, get the same leaf. *)
Theorem run_depends_on_tree_features
    (llvm_log : spec_float -> spec_float)
    (verifyFunction : SwitchCode -> bool)
    (tree : gmap Z TreeNode) (D fd sd : Z)
    (dataSet dataSet' : list spec_float) :
  perfectTree D tree = true -> 0 <= D <= 62 ->
  1 <= sd <= 5 -> 0 < fd < 2 ^ 31 -> (sd | fd) -> (fd | D) ->
  featuresInRange D tree dataSet = true ->
  (forall i node, tree !! i = Some node ->
     dataSet !! Z.to_nat (DataSetFeatureIdx node)
     = dataSet' !! Z.to_nat (DataSetFeatureIdx node)) ->
  exists evaluators leaf,
    compileEvaluators llvm_log verifyFunction tree D fd sd = Some evaluators
    /\ forall fuel : nat, D `div` fd <= Z.of_nat fuel ->
         run fuel evaluators tree dataSet = Returned leaf
         /\ run fuel evaluators tree dataSet' = Returned leaf.
Proof.
  intros Hperfect HD Hsd Hfd Hsdfd HfdD Hfeat Hagree.
  pose proof (featuresInRange_ext D tree dataSet dataSet' Hagree Hfeat)
    as Hfeat'.
  destruct (compiled_run_descend llvm_log verifyFunction tree D fd sd
              dataSet Hperfect HD Hsd Hfd Hsdfd HfdD Hfeat)
    as (evaluators & leaf & Hcompile & Hdesc & Hrun).
  destruct (compiled_run_descend llvm_log verifyFunction tree D fd sd
              dataSet' Hperfect HD Hsd Hfd Hsdfd HfdD Hfeat')
    as (evaluators' & leaf' & Hcompile' & Hdesc' & Hrun').
  rewrite Hcompile in Hcompile'.
  assert (evaluators' = evaluators) as -> by congruence.
  rewrite (descend_ext llvm_log tree dataSet dataSet' Hagree _ 0) in Hdesc.
  assert (leaf' = leaf) as -> by congruence.
  exists evaluators, leaf. split; [done|].
  intros fuel Hfuel. split; [by apply Hrun|by apply Hrun'].
Qed.

Lemma run_depends_on_tree_features_witness :
  exists evaluators leaf,
    compileEvaluators (fun x => x) (fun _ => false) sampleTree2 2 2 1
    = Some evaluators
    /\ run 1 evaluators sampleTree2 [quarter] = Returned leaf
    /\ run 1 evaluators sampleTree2 [quarter; S754_nan; half]
       = Returned leaf.
Proof.
  destruct (run_depends_on_tree_features (fun x => x) (fun _ => false)
              sampleTree2 2 2 1 [quarter] [quarter; S754_nan; half]
              ltac:(vm_compute; reflexivity) ltac:(lia) ltac:(lia)
              ltac:(lia) ltac:(exists 2; lia) ltac:(exists 1; lia)
              ltac:(vm_compute; reflexivity))
    as (evaluators & leaf & Hcompile & Hrun).
  - intros i node Hnode.
    assert (Hfeature : DataSetFeatureIdx node = 0).
    { unfold sampleTree2 in Hnode. cbn in Hnode.
      repeat (apply lookup_insert_Some in Hnode
              as [[_ <-]|[_ Hnode]]; [reflexivity|]).
      by rewrite lookup_empty in Hnode. }
    rewrite Hfeature. reflexivity.
  - exists evaluators, leaf. split; [exact Hcompile|].
    apply Hrun. vm_compute. discriminate.
Defined.

(** ** Condition-vector emission on any tree *)

Section ConditionVectorEmission.

Variables (tree : gmap Z TreeNode) (R k : Z).

Lemma emitComputeConditionVector_cases (n : nat) (m0 : gmap Z Z) :
  match emitComputeConditionVector tree R k (Z.of_nat n) m0 with
  | Some (code, offs) =>
      cvTy code = 64
      /\ length (cvBits code) = n
      /\ (forall b, 0 <= b < Z.of_nat n ->
            exists node,
              tree !! getNodeIdxForSubtreeBitOffset R k b = Some node
              /\ cvBits code !! Z.to_nat b = Some (node, wrap_unsigned 6 b))
      /\ offs = foldl (fun m b =>
                         <[getNodeIdxForSubtreeBitOffset R k b := b]> m)
                      m0 (seqZ 0 (Z.of_nat n))
  | None =>
      exists b, 0 <= b < Z.of_nat n
                /\ tree !! getNodeIdxForSubtreeBitOffset R k b = None
  end.
Proof.
  unfold emitComputeConditionVector. induction n as [|n IH].
  - change (seqZ 0 (Z.of_nat 0)) with (@nil Z). cbn.
    repeat split; intros; lia.
  - rewrite seqZ_S, !foldl_snoc, Z.add_0_l.
    destruct (foldl _ (Some _) (seqZ 0 (Z.of_nat n)))
      as [[code offs]|]; cbn.
    + destruct IH as (Hty & Hlen & Hbits & Hoffs).
      destruct (tree !! getNodeIdxForSubtreeBitOffset R k (Z.of_nat n))
        as [node|] eqn:Hnode; cbn.
      * split; [done|]. split; [rewrite length_app; cbn; lia|].
        split; [|by rewrite Hoffs].
        intros b Hb. destruct (decide (b = Z.of_nat n)) as [->|Hne].
        -- exists node. split; [done|].
           rewrite lookup_app_r by lia.
           replace (Z.to_nat (Z.of_nat n) - length (cvBits code))%nat
             with 0%nat by lia. done.
        -- destruct (Hbits b ltac:(lia)) as (node' & Hn' & Hl').
           exists node'. split; [done|].
           rewrite lookup_app_l by lia. done.
      * exists (Z.of_nat n). split; [lia|done].
    + destruct IH as (b & Hb & Hnone). exists b. split; [lia|done].
Qed.

Lemma bitOffsets_lookup (n : nat) (m0 : gmap Z Z) :
  (forall b b', 0 <= b < Z.of_nat n -> 0 <= b' < Z.of_nat n ->
     getNodeIdxForSubtreeBitOffset R k b
     = getNodeIdxForSubtreeBitOffset R k b' -> b = b') ->
  (forall b, 0 <= b < Z.of_nat n ->
     foldl (fun m b => <[getNodeIdxForSubtreeBitOffset R k b := b]> m)
           m0 (seqZ 0 (Z.of_nat n))
       !! getNodeIdxForSubtreeBitOffset R k b = Some b)
  /\ (forall i,
        (forall b, 0 <= b < Z.of_nat n ->
           getNodeIdxForSubtreeBitOffset R k b <> i) ->
        foldl (fun m b => <[getNodeIdxForSubtreeBitOffset R k b := b]> m)
              m0 (seqZ 0 (Z.of_nat n)) !! i = m0 !! i).
Proof.
  induction n as [|n IH]; intros Hinj.
  - change (seqZ 0 (Z.of_nat 0)) with (@nil Z). cbn. split; [lia|done].
  - destruct IH as [IHin IHout].
    { intros b b' Hb Hb'. apply Hinj; lia. }
    rewrite seqZ_S, !foldl_snoc, Z.add_0_l. split.
    + intros b Hb. destruct (decide (b = Z.of_nat n)) as [->|Hne].
      * apply lookup_insert_eq.
      * rewrite lookup_insert_ne; [apply IHin; lia|].
        intros Heq. apply Hinj in Heq; lia.
    + intros i Hi. rewrite lookup_insert_ne by (apply Hi; lia).
      apply IHout. intros b Hb. apply Hi. lia.
Qed.

End ConditionVectorEmission.



(** X10: after emitComputeConditionVector the bit-offset map sends the
    index of every node of the subtree back to its bit offset and is
    unchanged at every other key; the code has a 64-bit slot and, at
    position b, the node of bit offset b with the shift amount b cut to
    6 bits. *)
Theorem emitComputeConditionVector_bit_offsets
    (tree : gmap Z TreeNode) (R k : Z) (bitOffsets : gmap Z Z)
    (code : ConditionVectorCode) (offs : gmap Z Z) :
  0 <= R -> 0 <= k <= 32 -> Z.log2 (R + 1) + k <= 62 ->
  emitComputeConditionVector tree R k (2 ^ k - 1) bitOffsets
  = Some (code, offs) ->
  (forall b, 0 <= b < 2 ^ k - 1 ->
     offs !! getNodeIdxForSubtreeBitOffset R k b = Some b
     /\ exists node,
          tree !! getNodeIdxForSubtreeBitOffset R k b = Some node
          /\ cvBits code !! Z.to_nat b = Some (node, wrap_unsigned 6 b))
  /\ (forall i, i ∉ subtreeNodeIdxs R k -> offs !! i = bitOffsets !! i)
  /\ cvTy code = 64
  /\ Z.of_nat (length (cvBits code)) = 2 ^ k - 1.
Proof.
  intros HR Hk Hfit Hemit.
  pose proof (pow2_pos k ltac:(lia)) as Hpos.
  pose proof (emitComputeConditionVector_cases tree R k
                (Z.to_nat (2 ^ k - 1)) bitOffsets) as Hcases.
  rewrite Z2Nat.id in Hcases by lia. rewrite Hemit in Hcases.
  destruct Hcases as (Hty & Hlen & Hbits & Hoffs).
  destruct (bitOffsets_lookup R k (Z.to_nat (2 ^ k - 1)) bitOffsets)
    as [Hin Hout].
  { rewrite Z2Nat.id by lia. intros b b' Hb Hb'.
    rewrite !getNodeIdx_subtreeIdx by lia.
    apply subtreeIdx_inj; lia. }
  rewrite Z2Nat.id in Hin, Hout by lia. rewrite <- Hoffs in Hin, Hout.
  split; [|split; [|split; [done|lia]]].
  - intros b Hb. split; [by apply Hin|by apply Hbits].
  - intros i Hi. apply Hout. intros b Hb Heq. apply Hi.
    unfold subtreeNodeIdxs. apply list_elem_of_fmap. exists b.
    split; [done|]. apply elem_of_seqZ. lia.
Qed.

Lemma emitComputeConditionVector_bit_offsets_witness :
  exists code offs,
    emitComputeConditionVector sampleTree2 0 2 (2 ^ 2 - 1) {[7 := 9]}
    = Some (code, offs)
    /\ (forall b, 0 <= b < 2 ^ 2 - 1 ->
          offs !! getNodeIdxForSubtreeBitOffset 0 2 b = Some b)
    /\ offs !! 7 = Some 9.
Proof.
  destruct (emitComputeConditionVector sampleTree2 0 2 (2 ^ 2 - 1)
              {[7 := 9]}) as [[code offs]|] eqn:Hemit;
    [|vm_compute in Hemit; discriminate].
  destruct (emitComputeConditionVector_bit_offsets sampleTree2 0 2
              {[7 := 9]} code offs ltac:(lia) ltac:(lia)
              ltac:(vm_compute; discriminate) Hemit)
    as (Hin & Hout & _).
  exists code, offs. split; [reflexivity|]. split.
  - intros b Hb. apply Hin. exact Hb.
  - rewrite Hout; [reflexivity|].
    vm_compute. intros Hel.
    repeat (apply elem_of_cons in Hel as [Hel|Hel]; [discriminate|]).
    by apply elem_of_nil in Hel.
Defined.

(** ** Off-path nodes are evaluated *)

Lemma runConditionVector_None llvm_log code dataSet (i : nat) node sh :
  cvBits code !! i = Some (node, sh) ->
  emitSingleNodeEvaluaton llvm_log node dataSet = None ->
  runConditionVector llvm_log code dataSet = None.
Proof.
  intros Hi Hnone. unfold runConditionVector.
  rewrite <- (take_drop_middle _ _ _ Hi), foldl_app. cbn [foldl].
  match goal with
  | |- foldl ?g ?a ?l = None =>
      assert (Hinit : a = None); [|rewrite Hinit]
  end.
  { cbn. rewrite Hnone. by destruct (foldl _ _ _). }
  apply (foldl_bind_None
           (fun (bitCode : TreeNode * Z) conditionVectorOld =>
              evalResultBit ← emitSingleNodeEvaluaton llvm_log bitCode.1
                                                      dataSet;
              Some (Z.lor conditionVectorOld
                      (wrap_unsigned (cvTy code)
                         (Z.shiftl (Z.b2z evalResultBit) bitCode.2))))).
Qed.

(** X11: an evaluator computes the predicate of every node of its
    first switch before it dispatches, so a node that reads a feature
    past the end of the data set makes the call undefined wherever the
    node lies in the subtree, on the path that the data set takes or
    off it. *)
Theorem evaluator_reads_every_subtree_node
    (llvm_log : spec_float -> spec_float)
    (tree : gmap Z TreeNode) (R k : Z) (nested : nat) (code : SwitchCode)
    (dataSet : list spec_float) (b : Z) (node : TreeNode) :
  emitSubtreeSwitchesRecursively tree R k nested = Some code ->
  0 <= b < TreeNodes k ->
  tree !! getNodeIdxForSubtreeBitOffset R k b = Some node ->
  emitSingleNodeEvaluaton llvm_log node dataSet = None ->
  runSwitch llvm_log code dataSet = None.
Proof.
  intros Hemit Hb Hnode Hnone.
  rewrite emitSubtreeSwitchesRecursively_unfold in Hemit.
  pose proof (emitComputeConditionVector_cases tree R k
                (Z.to_nat (TreeNodes k)) ∅) as Hcases.
  rewrite Z2Nat.id in Hcases by lia.
  destruct (emitComputeConditionVector tree R k (TreeNodes k) ∅)
    as [[cv offs]|]; [|done].
  destruct Hcases as (_ & _ & Hbits & _).
  destruct (Hbits b Hb) as (node' & Hnode' & Hbit).
  rewrite Hnode in Hnode'. injection Hnode' as <-.
  cbn in Hemit.
  destruct (buildSubtreeLeafNodePathsBitsMapsRecursively _ _ _ _ _)
    as [descs|]; [|done].
  cbn in Hemit. destruct (_ =? _); [|done].
  destruct (mapM _ _) as [targets|]; [|done].
  cbn in Hemit. assert (code = SwitchInst cv targets) as -> by congruence.
  cbn [runSwitch].
  by rewrite (runConditionVector_None llvm_log cv dataSet _ _ _ Hbit Hnone).
Qed.

Lemma evaluator_reads_every_subtree_node_witness :
  exists code,
    emitSubtreeSwitchesRecursively sampleTreeTwoFeatures 0 2 0 = Some code
    /\ runSwitch (fun x => x) code [threeQuarters] = None
    /\ interpret_spec (fun x => x) 2 sampleTreeTwoFeatures 3
                      [threeQuarters] 0 = Some 3.
Proof.
  destruct (emitSubtreeSwitchesRecursively sampleTreeTwoFeatures 0 2 0)
    as [code|] eqn:Hemit; [|vm_compute in Hemit; discriminate].
  exists code. split; [reflexivity|]. split.
  - apply (evaluator_reads_every_subtree_node (fun x => x)
             sampleTreeTwoFeatures 0 2 0 code [threeQuarters] 2
             (sampleNode 2 threeQuarters 1) Hemit);
      [split; [lia|vm_compute; reflexivity]
      | vm_compute; reflexivity | vm_compute; reflexivity].
  - vm_compute. reflexivity.
Defined.

(** ** The assertion of the variant enumerator *)

Lemma bit_set_check cv b :
  0 <= b < 32 -> Z.testbit cv b = true ->
  Z.land cv (not_unsigned (shl_unsigned 1 b)) <> cv.
Proof.
  intros Hb Hbit Heq. rewrite shl_unsigned_one in Heq by done.
  apply (f_equal (fun z => Z.testbit z b)) in Heq.
  rewrite Z.land_spec, not_unsigned_pow2_bits, Hbit in Heq by lia.
  rewrite Z.eqb_refl, andb_false_r in Heq. done.
Qed.

Lemma variants_recursion_assert vars : forall (fuel i : nat) cv result b,
  (forall b, b ∈ vars -> 0 <= b < 32) ->
  Z.of_nat (length vars) < 2 ^ 31 ->
  b ∈ drop i vars -> Z.testbit cv b = true ->
  buildCanonicalConditionVectorVariantsRecursively
    fuel cv vars (Z.of_nat i) result = None.
Proof.
  intros fuel. induction fuel as [|fuel IH];
    intros i cv result b Hvars Hlen Hb Hbit; [done|].
  cbn [buildCanonicalConditionVectorVariantsRecursively].
  assert (Hi : (i < length vars)%nat).
  { destruct (decide (i < length vars)%nat); [done|].
    rewrite drop_ge in Hb by lia. by apply elem_of_nil in Hb. }
  assert (Hwrap : wrap_unsigned 64 (Z.of_nat i) = Z.of_nat i).
  { unfold wrap_unsigned. apply Z.mod_small. lia. }
  rewrite Hwrap, Nat2Z.id.
  destruct (Z.ltb_spec (Z.of_nat i) (Z.of_nat (length vars))); [|lia].
  destruct (lookup_lt_is_Some_2 vars i Hi) as [b0 Hb0].
  rewrite Hb0. cbn.
  assert (Hb0r : 0 <= b0 < 32)
    by (apply Hvars; by eapply list_elem_of_lookup_2).
  destruct (Z.eqb_spec (Z.land cv (not_unsigned (shl_unsigned 1 b0))) cv)
    as [Hclear|]; [|done].
  destruct (Z.testbit cv b0) eqn:Hbit0.
  { by apply bit_set_check in Hclear. }
  rewrite (drop_S _ _ _ Hb0) in Hb.
  apply elem_of_cons in Hb as [->|Hb]; [congruence|].
  rewrite to_int_small by lia.
  replace (Z.of_nat i + 1) with (Z.of_nat (S i)) by lia.
  rewrite (IH (S i) _ result b Hvars Hlen Hb); [done|].
  rewrite Z.lor_spec, Hbit. done.
Qed.

(** X12: the enumerator refuses a fixed template that has a set bit at
    one of the variable bit offsets: the assertion in the recursion
    fails and no variants are returned. *)
Theorem buildCanonicalConditionVectorVariants_assert
    (conditionVectorSize fixedBitsTemplate : Z)
    (leafNodePathBitsMap : gmap Z bool) (result : list Z) (b : Z) :
  0 <= conditionVectorSize <= 32 ->
  0 <= b < conditionVectorSize ->
  leafNodePathBitsMap !! b = None ->
  Z.testbit fixedBitsTemplate b = true ->
  buildCanonicalConditionVectorVariants
    conditionVectorSize fixedBitsTemplate leafNodePathBitsMap result = None.
Proof.
  intros Hsize Hb Hfree Hbit. unfold buildCanonicalConditionVectorVariants.
  assert (Hin : b ∈ collectVariableBitOffsets conditionVectorSize
                      leafNodePathBitsMap).
  { apply collectVariableBitOffsets_spec; [|done].
    change (2 ^ 32) with 4294967296. lia. }
  assert (Hvars : forall b', b' ∈ collectVariableBitOffsets
                                    conditionVectorSize leafNodePathBitsMap ->
                             0 <= b' < 32).
  { intros b' Hb'. apply collectVariableBitOffsets_spec in Hb';
      [lia|change (2 ^ 32) with 4294967296; lia]. }
  assert (Hlen : Z.of_nat (length (collectVariableBitOffsets
                                     conditionVectorSize leafNodePathBitsMap))
                 < 2 ^ 31).
  { unfold collectVariableBitOffsets.
    pose proof (length_filter
                  (fun i => leafNodePathBitsMap !! to_unsigned i = None)
                  (seqZ 0 conditionVectorSize)) as Hle.
    rewrite length_seqZ in Hle.
    change (2 ^ 31) with 2147483648. lia. }
  destruct (collectVariableBitOffsets conditionVectorSize
              leafNodePathBitsMap) as [|b0 vars] eqn:Hcollect.
  { by apply elem_of_nil in Hin. }
  rewrite (variants_recursion_assert (b0 :: vars) _ 0%nat _ _ b);
    done.
Qed.

Lemma buildCanonicalConditionVectorVariants_assert_witness :
  buildCanonicalConditionVectorVariants 3 2 {[0 := true]} [] = None.
Proof.
  apply (buildCanonicalConditionVectorVariants_assert 3 2 {[0 := true]} [] 1);
    [lia | lia | reflexivity | reflexivity].
Defined.

(** ** loadEvaluators for any function depth *)

Section AnyFunctionDepth.

Variables (D fd : Z).
Hypothesis HD : 0 <= D <= 62.
Hypothesis Hfd : 0 < fd < 2 ^ 30.

(** The number of evaluator levels: D / fd, rounded up. *)
Let levelCount : Z := (D + fd - 1) `div` fd.

Lemma levelCount_spec j :
  0 <= levelCount /\ levelCount <= D /\ (j < levelCount <-> j * fd < D).
Proof.
  unfold levelCount.
  pose proof (Z.div_mod (D + fd - 1) fd ltac:(lia)) as Hdm.
  pose proof (Z.mod_pos_bound (D + fd - 1) fd ltac:(lia)) as Hr.
  assert (0 <= (D + fd - 1) `div` fd) by (apply Z.div_pos; lia).
  split; [done|]. split; nia.
Qed.

Lemma evaluatorLevels_any : forall (fuel : nat) j,
  0 <= j <= levelCount -> (Z.to_nat (levelCount - j) < fuel)%nat ->
  evaluatorLevels fuel (j * fd) D fd
  = Some ((fun i => i * fd) <$> seqZ j (levelCount - j)).
Proof.
  intros fuel. induction fuel as [|fuel IH]; intros j Hj Hfuel; [lia|].
  cbn [evaluatorLevels].
  destruct (levelCount_spec j) as (_ & _ & Hlt).
  destruct (Z.ltb_spec (j * fd) D) as [Hlevel|Hlevel].
  - apply Hlt in Hlevel as Hjn.
    rewrite to_int_small
      by (change (2 ^ 31) with 2147483648;
          change (2 ^ 30) with 1073741824 in Hfd; nia).
    replace (j * fd + fd) with ((j + 1) * fd) by lia.
    rewrite IH by lia. cbn.
    rewrite (seqZ_cons j (levelCount - j)) by lia. cbn.
    replace (Z.succ j) with (j + 1) by lia.
    replace (Z.pred (levelCount - j)) with (levelCount - (j + 1)) by lia.
    done.
  - assert (j = levelCount) as -> by lia. by rewrite Z.sub_diag.
Qed.

Lemma evaluatorLevels_spec_eq :
  evaluatorLevels (S (Z.to_nat D)) 0 D fd = Some (evaluatorLevels_spec D fd).
Proof.
  destruct (levelCount_spec 0) as (Hn0 & HnD & _).
  rewrite <- (Z.mul_0_l fd) at 1.
  rewrite evaluatorLevels_any by lia.
  unfold evaluatorLevels_spec. fold levelCount. by rewrite Z.sub_0_r.
Qed.

Lemma evaluatorLevels_spec_range l :
  l ∈ evaluatorLevels_spec D fd -> 0 <= l <= 61 /\ l < D.
Proof.
  unfold evaluatorLevels_spec. fold levelCount. intros Hl.
  apply list_elem_of_fmap in Hl as (j & -> & Hj).
  apply elem_of_seqZ in Hj.
  destruct (levelCount_spec j) as (_ & _ & Hlt). nia.
Qed.

Lemma evaluatorLevels_spec_nodes i :
  i ∈ evaluatorLevels_spec D fd
        ≫= (fun level => seqZ (2 ^ level - 1) (2 ^ level))
  <-> 0 <= i < 2 ^ D - 1 /\ Z.log2 (i + 1) `mod` fd = 0.
Proof.
  rewrite list_elem_of_bind. split.
  - intros (level & Hi & Hlevel).
    destruct (evaluatorLevels_spec_range level Hlevel) as [Hrange HlD].
    apply level_nodes in Hi as [Hi Hl]; [|lia].
    split; [split; [done|apply internal_level; lia]|].
    unfold evaluatorLevels_spec in Hlevel.
    apply list_elem_of_fmap in Hlevel as (j & -> & _).
    rewrite Hl. apply Z.mod_mul. lia.
  - intros [Hi Hmod].
    apply Z.mod_divide in Hmod as [j Hj]; [|lia].
    pose proof (Z.log2_nonneg (i + 1)).
    assert (Z.log2 (i + 1) < D) by (apply internal_level; lia).
    exists (j * fd). split.
    + apply level_nodes; [lia|]. split; [lia|done].
    + unfold evaluatorLevels_spec. fold levelCount.
      apply list_elem_of_fmap. exists j. split; [done|].
      apply elem_of_seqZ.
      destruct (levelCount_spec j) as (_ & _ & Hlt). nia.
Qed.

Lemma getNumCompiledEvaluators_any :
  getNumCompiledEvaluators D fd
  = foldr Z.add 0 ((fun k => 2 ^ (k * fd)) <$> seqZ 0 levelCount).
Proof.
  unfold getNumCompiledEvaluators.
  destruct (levelCount_spec 0) as (Hn0 & HnD & _).
  assert (Hsmall : D + fd < 2 ^ 31).
  { change (2 ^ 31) with 2147483648.
    change (2 ^ 30) with 1073741824 in Hfd. lia. }
  assert (Hdepth :
    to_int (Z.quot (to_int (to_int (D + fd) - 1)) fd) = levelCount).
  { rewrite (to_int_small (D + fd)), (to_int_small (_ - 1)) by lia.
    rewrite Z.quot_div_nonneg by lia.
    replace (D + fd - 1) with (D + fd - 1) by lia. fold levelCount.
    apply to_int_small. lia. }
  rewrite Hdepth.
  rewrite <- (Z2Nat.id levelCount Hn0).
  assert (Hle : (Z.to_nat levelCount <= Z.to_nat levelCount)%nat) by lia.
  revert Hle. generalize (Z.to_nat levelCount) at 1 3 4 as m.
  induction m as [|m IH]; intros Hm; [done|].
  rewrite seqZ_S, foldl_snoc, fmap_app, foldr_app. cbn.
  rewrite IH by lia. rewrite (foldr_add_init _ (_ + 0)), !Z.add_0_l.
  pose proof (evaluatorTotal_bound fd m ltac:(lia)) as Hb.
  destruct (levelCount_spec (Z.of_nat m)) as (_ & _ & Hlt).
  assert (Z.of_nat m * fd < D) by (apply Hlt; lia).
  pose proof (pow2_le_mono (Z.of_nat m * fd) 61 ltac:(nia)).
  pose proof (pow2_pos (Z.of_nat m * fd) ltac:(nia)).
  change (2 ^ 61) with 2305843009213693952 in *.
  rewrite (Z.mul_comm fd), to_int_small by nia.
  rewrite PowerOf2_small by nia.
  rewrite to_int64_small
    by (change (2 ^ 63) with 9223372036854775808; lia).
  lia.
Qed.

Lemma loadEvaluators_any getFn tree :
  loadEvaluators getFn tree D fd
  = Some (collectEvaluators getFn
            (evaluatorLevels_spec D fd
               ≫= fun level => seqZ (2 ^ level - 1) (2 ^ level))).
Proof.
  unfold loadEvaluators. rewrite evaluatorLevels_spec_eq. cbn.
  rewrite load_level_nodes
    by (intros l Hl; apply evaluatorLevels_spec_range in Hl; lia).
  rewrite getNumCompiledEvaluators_any.
  rewrite collectEvaluators_size.
  2:{ apply evaluator_nodes_NoDup.
      - unfold evaluatorLevels_spec. apply NoDup_fmap_2_strong.
        + intros x y _ _ Heq. nia.
        + apply NoDup_seqZ.
      - intros l Hl. apply evaluatorLevels_spec_range in Hl. lia. }
  destruct (levelCount_spec 0) as (Hn0 & _ & _).
  unfold evaluatorLevels_spec. fold levelCount.
  rewrite <- (Z2Nat.id levelCount Hn0).
  rewrite evaluator_nodes_length by lia.
  by rewrite Z.eqb_refl.
Qed.

End AnyFunctionDepth.

(** X13: loadEvaluators passes its count assertion for every positive
    function depth, also one that does not divide the tree depth (where
    compileEvaluators gives up): it registers, for exactly the nodes on
    the levels 0, fd, 2 fd, ... below the depth, the function that the
    JIT resolves under the name of the node. *)
Theorem loadEvaluators_any_depth
    (getEvaluatorFnPtr : Z -> SubtreeEvaluator_f)
    (tree : gmap Z TreeNode) (D fd : Z) :
  0 <= D <= 62 -> 0 < fd < 2 ^ 30 ->
  exists evaluators,
    loadEvaluators getEvaluatorFnPtr tree D fd = Some evaluators
    /\ evaluatorKeys D fd evaluators
    /\ (forall i evaluator, evaluators !! i = Some evaluator ->
          evaluator = getEvaluatorFnPtr i)
    /\ Z.of_nat (size evaluators) = getNumCompiledEvaluators D fd.
Proof.
  intros HD Hfd. eexists. split; [by apply loadEvaluators_any|].
  split; [|split].
  - intros i. rewrite collectEvaluators_lookup.
    rewrite <- (evaluatorLevels_spec_nodes D fd HD Hfd i).
    destruct (decide (i ∈ _)).
    + split; [done|]. by eexists.
    + split; [by intros [? ?]|done].
  - intros i evaluator. rewrite collectEvaluators_lookup.
    destruct (decide (i ∈ _)); [|done]. by intros [= <-].
  - pose proof (loadEvaluators_any D fd HD Hfd getEvaluatorFnPtr tree)
      as Hload.
    unfold loadEvaluators in Hload.
    destruct (evaluatorLevels _ _ _ _) as [levels|]; [|done].
    cbn in Hload.
    destruct (Z.eqb_spec (getNumCompiledEvaluators D fd)
                (Z.of_nat (size (collectEvaluators getEvaluatorFnPtr
                   (levels ≫= fun level =>
                      (fun offset => to_int64 (TreeNodes level + offset))
                        <$> seqZ 0 (PowerOf2 level))))))
      as [Heq|]; [|done].
    rewrite Heq. f_equal. f_equal. congruence.
Qed.

Lemma loadEvaluators_any_depth_witness :
  exists evaluators,
    loadEvaluators (fun i _ => Some (4 * i + 3)) sampleTree2 3 2
    = Some evaluators
    /\ Z.of_nat (size evaluators) = getNumCompiledEvaluators 3 2.
Proof.
  destruct (loadEvaluators_any_depth (fun i _ => Some (4 * i + 3))
              sampleTree2 3 2 ltac:(lia) ltac:(lia))
    as (evaluators & Hload & _ & _ & Hsize).
  exists evaluators. split; [exact Hload | exact Hsize].
Defined.

(** ** The cases of an emitted switch *)

Lemma emitLeafTarget_cases tree k nested d target :
  emitLeafTarget tree k nested d = Some target ->
  exists vs, leafVariants (TreeNodes k) d = Some vs
             /\ target.2 = caseConstants (TreeNodes k) vs.
Proof.
  unfold emitLeafTarget.
  destruct (match nested with
            | S nested' =>
                StoreSubSwitch <$>
                  emitSubtreeSwitchesRecursively tree (d.1) k nested'
            | O => Some (StoreLeafIdx (d.1))
            end) as [nodeBB|]; [|done].
  cbn. destruct (leafVariants (TreeNodes k) d) as [vs|]; [|done].
  cbn. intros [= <-]. by exists vs.
Qed.

(** X14: the switch emitted for a subtree of k levels has 2^k target
    blocks, and every value that the condition vector of 2^k - 1 bits
    can take is the case value of exactly one of them: no case value
    occurs twice and the default arm is never taken. *)
Theorem emitted_switch_cases_partition
    (tree : gmap Z TreeNode) (D R k : Z) (nested : nat)
    (cv : ConditionVectorCode)
    (targets : list (NodeBlock * list ConstantInt)) :
  perfectTree D tree = true -> D <= 62 ->
  0 <= R -> 0 <= k <= 5 -> Z.log2 (R + 1) + k <= D ->
  emitSubtreeSwitchesRecursively tree R k nested
  = Some (SwitchInst cv targets) ->
  Z.of_nat (length targets) = 2 ^ k
  /\ forall c, 0 <= c < 2 ^ (2 ^ k - 1) ->
       exists i target,
         targets !! i = Some target
         /\ caseMatches c (target.2) = true
         /\ forall j target', targets !! j = Some target' ->
              caseMatches c (target'.2) = true -> j = i.
Proof.
  intros Hperfect HD HR Hk Hfit Hemit.
  rewrite emitSubtreeSwitchesRecursively_unfold in Hemit.
  rewrite TreeNodes_small, PowerOf2_small in Hemit by lia.
  destruct (emitComputeConditionVector_spec tree D R k Hperfect HD HR
              ltac:(lia) Hfit ∅ ltac:(lia))
    as (code & offs & Hecv & _ & _ & _ & Hoffs).
  rewrite Hecv in Hemit. cbn in Hemit.
  assert (Hbuild :
    buildSubtreeLeafNodePathsBitsMapsRecursively
      tree R (Z.to_nat k) offs []
    = Some (leafDescriptors R (Z.to_nat k) 0)).
  { rewrite <- (subtreeIdx_root R) at 1.
    rewrite (build_leafDescriptors tree D R k Hperfect HR ltac:(lia)
               Hfit offs Hoffs);
      [done|done|change (Z.log2 (0 + 1)) with 0; lia|lia
       |rewrite Z2Nat.id by lia;
        pose proof (pow2_le_mono k 5 ltac:(lia)); cbn; lia]. }
  rewrite Hbuild in Hemit. cbn in Hemit.
  rewrite length_leafDescriptors, Z2Nat.id, Z.eqb_refl in Hemit by lia.
  set (descs := leafDescriptors R (Z.to_nat k) 0) in *.
  destruct (mapM (emitLeafTarget tree k nested) descs) as [targets'|]
    eqn:Hmap; [|done].
  cbn in Hemit. assert (targets' = targets) as -> by congruence.
  apply mapM_Some_1 in Hmap.
  assert (Hcases : forall j dj target,
            descs !! j = Some dj -> targets !! j = Some target ->
            forall c, caseMatches c (target.2) = true
                      <-> 0 <= c < 2 ^ (2 ^ k - 1) /\ agrees c (dj.2)).
  { intros j dj target Hdj Htarget c.
    pose proof (Forall2_lookup_lr _ _ _ _ _ _ Hmap Hdj Htarget) as Hleaf.
    assert (Hdj' : dj ∈ descs) by (by eapply list_elem_of_lookup_2).
    apply emitLeafTarget_cases in Hleaf as (vs & Hvs & ->).
    rewrite TreeNodes_small in * by lia.
    pose proof Hvs as Hvs'.
    rewrite (leafVariants_variantsOf R k dj Hk Hdj') in Hvs'.
    injection Hvs' as <-.
    rewrite caseMatches_caseConstants by (by apply (leafVariants_range k Hk R)).
    apply (leafVariants_agrees R k dj _ c Hk Hdj').
    by apply (leafVariants_variantsOf R). }
  split.
  { pose proof (Forall2_length _ _ _ Hmap) as Hlen. rewrite <- Hlen.
    unfold descs. rewrite length_leafDescriptors. f_equal. lia. }
  intros c Hc.
  destruct (leafDescriptors_agree R (Z.to_nat k) 0 c ltac:(lia))
    as (i0 & d0 & Hi0 & _ & Hag & Huniq).
  fold descs in Hi0, Huniq.
  destruct (Forall2_lookup_l _ _ _ _ _ Hmap Hi0) as (t0 & Ht0 & _).
  exists i0, t0. split; [done|]. split.
  - by apply (Hcases i0 d0 t0 Hi0 Ht0).
  - intros j target' Hj Hmatch.
    destruct (lookup_lt_is_Some_2 descs j) as [dj Hdj].
    { rewrite (Forall2_length _ _ _ Hmap). by eapply lookup_lt_Some. }
    destruct (proj1 (Hcases j dj target' Hdj Hj c) Hmatch) as [_ Hagj].
    by apply (Huniq j dj).
Qed.

Lemma emitted_switch_cases_partition_witness :
  exists cv targets,
    emitSubtreeSwitchesRecursively sampleTree2 0 2 0
    = Some (SwitchInst cv targets)
    /\ Z.of_nat (length targets) = 2 ^ 2
    /\ forall c, 0 <= c < 2 ^ (2 ^ 2 - 1) ->
         exists i target,
           targets !! i = Some target
           /\ caseMatches c (target.2) = true.
Proof.
  destruct (emitSubtreeSwitchesRecursively sampleTree2 0 2 0)
    as [[cv targets]|] eqn:Hemit; [|vm_compute in Hemit; discriminate].
  destruct (emitted_switch_cases_partition sampleTree2 2 0 2 0 cv targets
              ltac:(vm_compute; reflexivity) ltac:(lia) ltac:(lia)
              ltac:(lia) ltac:(vm_compute; discriminate) Hemit)
    as [Hlen Hpart].
  exists cv, targets. split; [reflexivity|]. split; [exact Hlen|].
  intros c Hc. destruct (Hpart c Hc) as (i & target & Hi & Hmatch & _).
  exists i, target. split; [exact Hi | exact Hmatch].
Defined.

(** ** The tree that makeDecisionTree builds *)

Section MakeDecisionTreeLoop.

Variable gen : Z -> TreeNode.
Hypothesis gen_children :
  forall i, TrueChildNodeIdx (gen i) = 0 /\ FalseChildNodeIdx (gen i) = 0.
Variable percentStep : Z.

Lemma builtNode_fresh i last :
  last < 2 * i + 1 -> builtNode (gen i) last i = gen i.
Proof.
  intros Hlast. unfold builtNode.
  destruct (Z.leb_spec (2 * i + 2) last); [lia|].
  destruct (Z.leb_spec (2 * i + 1) last); [lia|].
  destruct (gen_children i) as [Ht Hf]. rewrite <- Ht at 1.
  rewrite <- Hf at 1. by destruct (gen i).
Qed.

Lemma makeDecisionTree_loop (n : nat) :
  percentStep <> 0 -> Z.of_nat n < 2 ^ 31 ->
  exists tree,
    foldl (fun acc i =>
             '(tree, parentIdx, parentBranch) ← acc;
             let tree := <[i := gen i]> tree in
             let captured := registerChild (tree, parentIdx, parentBranch) i in
             if percentStep =? 0 then None else Some captured)
          (Some (<[0 := gen 0]> (∅ : gmap Z TreeNode), 0, 0))
          (seqZ 1 (Z.of_nat n))
    = Some (tree, Z.of_nat n `div` 2, Z.of_nat n `mod` 2)
    /\ forall i,
         tree !! i = if decide (0 <= i <= Z.of_nat n)
                     then Some (builtNode (gen i) (Z.of_nat n) i)
                     else None.
Proof.
  intros Hstep Hn. induction n as [|n IH].
  - change (seqZ 1 (Z.of_nat 0)) with (@nil Z). cbn [foldl].
    eexists. split; [done|]. intros i.
    destruct (decide (0 <= i <= Z.of_nat 0)) as [Hi|Hi].
    + assert (i = 0) as -> by lia.
      rewrite lookup_insert_eq, builtNode_fresh by lia. done.
    + rewrite lookup_insert_ne by lia. done.
  - destruct IH as (tree & Hfold & Hlook); [lia|].
    rewrite seqZ_S, foldl_snoc, Hfold.
    set (m := Z.of_nat n) in *.
    assert (Hm : 0 <= m) by lia.
    replace (Z.of_nat (S n)) with (m + 1) by lia.
    cbn [mbind option_bind]. unfold registerChild.
    destruct (Z.eqb_spec percentStep 0); [done|].
    pose proof (Z.div_mod m 2 ltac:(lia)) as Hdm.
    pose proof (Z.mod_pos_bound m 2 ltac:(lia)) as Hr.
    pose proof (Z.div_mod (m + 1) 2 ltac:(lia)) as Hdm'.
    pose proof (Z.mod_pos_bound (m + 1) 2 ltac:(lia)) as Hr'.
    set (p := m `div` 2) in *.
    assert (Hkey : wrap_unsigned 64 p = p).
    { unfold wrap_unsigned. apply Z.mod_small.
      change (2 ^ 31) with 2147483648 in Hn.
      change (2 ^ 64) with 18446744073709551616. lia. }
    rewrite Hkey.
    assert (Hparent : <[1 + m := gen (1 + m)]> tree !! p
                      = Some (builtNode (gen p) m p)).
    { rewrite lookup_insert_ne by lia. rewrite Hlook.
      by rewrite decide_True by lia. }
    rewrite Hparent. cbn [default].
    destruct (Z.eqb_spec (m `mod` 2) 0) as [Heven|Hodd].
    + eexists. split; [f_equal; f_equal; [f_equal|]; lia|].
      intros i. destruct (decide (i = p)) as [->|Hip].
      * rewrite lookup_insert_eq, decide_True by lia. f_equal.
        unfold setFalseChildNodesIdx, builtNode. cbn.
        destruct (Z.leb_spec (2 * p + 2) m); [lia|].
        destruct (Z.leb_spec (2 * p + 2) (m + 1)); [lia|].
        destruct (Z.leb_spec (2 * p + 1) (m + 1)); [|lia].
        f_equal. lia.
      * rewrite lookup_insert_ne by done.
        destruct (decide (i = 1 + m)) as [->|Him].
        -- rewrite lookup_insert_eq, decide_True by lia.
           by rewrite builtNode_fresh by lia.
        -- rewrite lookup_insert_ne by done. rewrite Hlook.
           destruct (decide (0 <= i <= m));
             [rewrite decide_True by lia|by rewrite decide_False by lia].
           f_equal. unfold builtNode.
           destruct (Z.leb_spec (2 * i + 2) m),
                    (Z.leb_spec (2 * i + 2) (m + 1)),
                    (Z.leb_spec (2 * i + 1) m),
                    (Z.leb_spec (2 * i + 1) (m + 1));
             (done || lia).
    + rewrite to_int_small
        by (change (2 ^ 31) with 2147483648 in *; lia).
      eexists. split; [f_equal; f_equal; [f_equal|]; lia|].
      intros i. destruct (decide (i = p)) as [->|Hip].
      * rewrite lookup_insert_eq, decide_True by lia. f_equal.
        unfold setTrueChildNodesIdx, builtNode. cbn.
        destruct (Z.leb_spec (2 * p + 2) (m + 1)); [|lia].
        destruct (Z.leb_spec (2 * p + 1) m); [|lia].
        destruct (Z.leb_spec (2 * p + 1) (m + 1)); [|lia].
        f_equal. lia.
      * rewrite lookup_insert_ne by done.
        destruct (decide (i = 1 + m)) as [->|Him].
        -- rewrite lookup_insert_eq, decide_True by lia.
           by rewrite builtNode_fresh by lia.
        -- rewrite lookup_insert_ne by done. rewrite Hlook.
           destruct (decide (0 <= i <= m));
             [rewrite decide_True by lia|by rewrite decide_False by lia].
           f_equal. unfold builtNode.
           destruct (Z.leb_spec (2 * i + 2) m),
                    (Z.leb_spec (2 * i + 2) (m + 1)),
                    (Z.leb_spec (2 * i + 1) m),
                    (Z.leb_spec (2 * i + 1) (m + 1));
             (done || lia).
Qed.

End MakeDecisionTreeLoop.

Lemma makeDecisionTree_built std_log randomOp randomComp randomFeatureIdx
    nodes :
  100 <= nodes < 2 ^ 31 ->
  exists tree,
    makeDecisionTree std_log randomOp randomComp randomFeatureIdx nodes
    = Some tree
    /\ forall i,
         tree !! i
         = if decide (0 <= i < nodes)
           then Some (builtNode
                        (makeDecisionTreeNode std_log randomOp randomComp
                                              randomFeatureIdx i)
                        (nodes - 1) i)
           else None.
Proof.
  intros Hn. unfold makeDecisionTree.
  destruct (makeDecisionTree_loop
              (makeDecisionTreeNode std_log randomOp randomComp
                                    randomFeatureIdx)
              ltac:(done) (nodes `div` 100) (Z.to_nat (nodes - 1)))
    as (tree & Hfold & Hlook).
  { pose proof (Z.div_le_lower_bound nodes 100 1 ltac:(lia) ltac:(lia)).
    lia. }
  { lia. }
  rewrite Z2Nat.id in Hfold, Hlook by lia.
  cbv zeta in Hfold |- *. rewrite Hfold. cbn.
  exists tree. split; [done|]. intros i. rewrite Hlook.
  destruct (decide (0 <= i <= nodes - 1));
    [by rewrite decide_True by lia|by rewrite decide_False by lia].
Qed.

(** X15: for at least 100 nodes, makeDecisionTree returns a tree with
    exactly the indices below the node count; the node at index i holds
    the data of call i of makeDecisionTreeNode, its false child is
    2i+1 and its true child 2i+2 where these indices are below the node
    count and 0 otherwise.  A node with both children is linked the way
    CompiledResolver expects of a perfect tree. *)
Theorem makeDecisionTree_links
    (std_log : spec_float -> spec_float)
    (randomOp : Z -> OperationType) (randomComp : Z -> ComparatorType)
    (randomFeatureIdx : Z -> Z) (nodes : Z) :
  100 <= nodes < 2 ^ 31 ->
  exists tree,
    makeDecisionTree std_log randomOp randomComp randomFeatureIdx nodes
    = Some tree
    /\ (forall i, is_Some (tree !! i) <-> 0 <= i < nodes)
    /\ (forall i node, tree !! i = Some node ->
          FalseChildNodeIdx node
          = (if 2 * i + 1 <? nodes then 2 * i + 1 else 0)
          /\ TrueChildNodeIdx node
             = (if 2 * i + 2 <? nodes then 2 * i + 2 else 0)
          /\ Op node = randomOp i
          /\ Comp node = randomComp i
          /\ Bias node = makeBalancedBias std_log (randomOp i)
          /\ DataSetFeatureIdx node
             = wrap_unsigned 64 (to_int (randomFeatureIdx i)))
    /\ (forall i, 0 <= i -> 2 * i + 2 < nodes -> perfectNode tree i = true).
Proof.
  intros Hn.
  destruct (makeDecisionTree_built std_log randomOp randomComp
              randomFeatureIdx nodes Hn) as (tree & Hmake & Hlook).
  exists tree. split; [done|]. split; [|split].
  - intros i. rewrite Hlook.
    destruct (decide (0 <= i < nodes)); [|by split; [intros [? ?]|]].
    split; [done|]. by eexists.
  - intros i node. rewrite Hlook.
    destruct (decide (0 <= i < nodes)); [|done]. intros [= <-].
    unfold builtNode. cbn.
    destruct (Z.leb_spec (2 * i + 1) (nodes - 1)),
             (Z.ltb_spec (2 * i + 1) nodes); try lia.
    all: destruct (Z.leb_spec (2 * i + 2) (nodes - 1)),
                  (Z.ltb_spec (2 * i + 2) nodes); try lia.
    all: done.
  - intros i Hi Hchild. unfold perfectNode. rewrite Hlook.
    rewrite decide_True by lia. unfold builtNode. cbn.
    destruct (Z.leb_spec (2 * i + 2) (nodes - 1)); [|lia].
    destruct (Z.leb_spec (2 * i + 1) (nodes - 1)); [|lia].
    by rewrite !Z.eqb_refl.
Qed.

Lemma makeDecisionTree_links_witness :
  exists tree,
    makeDecisionTree (fun x => x) (fun _ => Bypass) (fun _ => LessThan)
                     (fun i => i) 127 = Some tree
    /\ (forall i, is_Some (tree !! i) <-> 0 <= i < 127)
    /\ (forall i, 0 <= i -> 2 * i + 2 < 127 -> perfectNode tree i = true).
Proof.
  destruct (makeDecisionTree_links (fun x => x) (fun _ => Bypass)
              (fun _ => LessThan) (fun i => i) 127 ltac:(lia))
    as (tree & Hmake & Hdom & _ & Hperfect).
  exists tree. split; [exact Hmake|]. split; [exact Hdom | exact Hperfect].
Defined.

(** X16: on a tree that makeDecisionTree built with an odd number of
    nodes, isLeaf passes its assertion at every node and tells the
    nodes without children, those at the indices i with 2i+1 not below
    the node count; with an even number of nodes the last parent has a
    false child only, and isLeaf fails its assertion there. *)
Theorem makeDecisionTree_isLeaf
    (std_log : spec_float -> spec_float)
    (randomOp : Z -> OperationType) (randomComp : Z -> ComparatorType)
    (randomFeatureIdx : Z -> Z) (nodes : Z) (tree : gmap Z TreeNode) :
  100 <= nodes < 2 ^ 31 ->
  makeDecisionTree std_log randomOp randomComp randomFeatureIdx nodes
  = Some tree ->
  (Z.odd nodes = true ->
   forall i node, tree !! i = Some node ->
     isLeaf node = Some (nodes <=? 2 * i + 1))
  /\ (Z.even nodes = true ->
      exists node, tree !! (nodes `div` 2 - 1) = Some node
                   /\ isLeaf node = None).
Proof.
  intros Hn Hmake.
  destruct (makeDecisionTree_built std_log randomOp randomComp
              randomFeatureIdx nodes Hn) as (tree' & Hmake' & Hlook).
  rewrite Hmake in Hmake'. assert (tree' = tree) as -> by congruence.
  split.
  - intros Hodd i node. rewrite Hlook.
    destruct (decide (0 <= i < nodes)); [|done]. intros [= <-].
    apply Z.odd_spec in Hodd as [h Hh].
    unfold isLeaf, builtNode. cbn.
    destruct (Z.leb_spec (2 * i + 1) (nodes - 1)),
             (Z.leb_spec (2 * i + 2) (nodes - 1)),
             (Z.leb_spec nodes (2 * i + 1)); try lia.
    + destruct (Z.eqb_spec (2 * i + 1) 0); [lia|].
      destruct (Z.eqb_spec (2 * i + 2) 0); [lia|]. done.
    + done.
  - intros Heven. apply Z.even_spec in Heven as [h Hh].
    assert (Hp : nodes `div` 2 - 1 = h - 1).
    { rewrite Hh, Z.mul_comm, Z.div_mul by lia. done. }
    rewrite Hp, Hlook, decide_True by lia.
    eexists. split; [done|].
    unfold isLeaf, builtNode. cbn.
    destruct (Z.leb_spec (2 * (h - 1) + 1) (nodes - 1)); [|lia].
    destruct (Z.leb_spec (2 * (h - 1) + 2) (nodes - 1)); [lia|].
    destruct (Z.eqb_spec (2 * (h - 1) + 1) 0); [lia|]. done.
Qed.

Lemma makeDecisionTree_isLeaf_witness :
  exists tree,
    makeDecisionTree (fun x => x) (fun _ => Bypass) (fun _ => LessThan)
                     (fun i => i) 127 = Some tree
    /\ forall i node, tree !! i = Some node ->
         isLeaf node = Some (127 <=? 2 * i + 1).
Proof.
  destruct (makeDecisionTree (fun x => x) (fun _ => Bypass)
              (fun _ => LessThan) (fun i => i) 127)
    as [tree|] eqn:Hmake; [|vm_compute in Hmake; discriminate].
  exists tree. split; [reflexivity|].
  apply (makeDecisionTree_isLeaf (fun x => x) (fun _ => Bypass)
           (fun _ => LessThan) (fun i => i) 127 tree ltac:(lia) Hmake).
  reflexivity.
Defined.

(** X17: for a node count from 2 to 99 the progress step of
    makeDecisionTree is 0, and the first pass of its loop takes a
    remainder by zero: no tree is returned. *)
Theorem makeDecisionTree_small
    (std_log : spec_float -> spec_float)
    (randomOp : Z -> OperationType) (randomComp : Z -> ComparatorType)
    (randomFeatureIdx : Z -> Z) (nodes : Z) :
  2 <= nodes < 100 ->
  makeDecisionTree std_log randomOp randomComp randomFeatureIdx nodes = None.
Proof.
  intros Hn. unfold makeDecisionTree.
  rewrite Z.div_small by lia.
  rewrite (seqZ_cons 1 (nodes - 1)) by lia.
  cbn [foldl mbind option_bind Z.eqb].
  by rewrite foldl_bind_None.
Qed.

Lemma makeDecisionTree_small_witness :
  makeDecisionTree (fun x => x) (fun _ => Bypass) (fun _ => LessThan)
                   (fun i => i) 15 = None.
Proof.
  apply (makeDecisionTree_small (fun x => x) (fun _ => Bypass)
           (fun _ => LessThan) (fun i => i) 15).
  lia.
Defined.

(** ** Benchmark names *)

Lemma to_int_nonnil z :
  Z.to_int z <> Decimal.Pos Decimal.Nil
  /\ Z.to_int z <> Decimal.Neg Decimal.Nil.
Proof.
  destruct z as [|p|p]; cbn; split; try discriminate; intros [= Heq];
    by apply DecimalPos.Unsigned.to_uint_nonnil in Heq.
Qed.

Lemma to_string_inj a b : to_string a = to_string b -> a = b.
Proof.
  unfold to_string. intros Heq.
  apply (f_equal string_of_list_ascii) in Heq.
  rewrite !string_of_list_ascii_of_string in Heq.
  apply (f_equal NilZero.int_of_string) in Heq.
  destruct (to_int_nonnil a), (to_int_nonnil b).
  rewrite !NilZero.isi in Heq by done.
  injection Heq as Heq. apply (f_equal Z.of_int) in Heq.
  by rewrite !DecimalZ.of_to in Heq.
Qed.

Lemma string_of_uint_no_space u :
  Forall (fun c => c <> " "%char)
         (list_ascii_of_string (NilEmpty.string_of_uint u)).
Proof. induction u; cbn; constructor; (discriminate || done). Qed.

Lemma to_string_no_space z : Forall (fun c => c <> " "%char) (to_string z).
Proof.
  unfold to_string, NilZero.string_of_int.
  assert (Huint : forall u,
            Forall (fun c => c <> " "%char)
                   (list_ascii_of_string (NilZero.string_of_uint u))).
  { intros u. destruct u; try apply string_of_uint_no_space.
    cbn. constructor; [discriminate|constructor]. }
  destruct (Z.to_int z); [apply Huint|].
  cbn. constructor; [discriminate|apply Huint].
Qed.

Lemma padded_inj (l1 : list ascii) : forall l2 (a b : nat),
  Forall (fun c => c <> " "%char) l1 ->
  Forall (fun c => c <> " "%char) l2 ->
  l1 ++ replicate a " "%char = l2 ++ replicate b " "%char -> l1 = l2.
Proof.
  induction l1 as [|c l1 IH]; intros [|c' l2] a b H1 H2 Heq.
  - done.
  - destruct a as [|a]; [done|]. cbn in Heq. injection Heq as <- _.
    by inversion H2.
  - destruct b as [|b]; [done|]. cbn in Heq. injection Heq as -> _.
    by inversion H1.
  - cbn in Heq. injection Heq as -> Heq. f_equal.
    inversion H1. inversion H2. by eapply IH.
Qed.

Lemma makeBenchmarkName_columns target depth features :
  (length target <= 20)%nat ->
  (length (to_string depth) <= 7)%nat ->
  (length (to_string features) <= 9)%nat ->
  makeBenchmarkName target depth features
  = target ++ replicate (20 - length target) " "%char
    ++ (to_string depth
        ++ replicate (7 - length (to_string depth)) " "%char)
    ++ (to_string features
        ++ replicate (9 - length (to_string features)) " "%char).
Proof.
  intros Ht Hd Hf. unfold makeBenchmarkName. cbv zeta.
  rewrite (resize_ge target) by done.
  rewrite (resize_ge (_ ++ to_string depth))
    by (rewrite !length_app, length_replicate; lia).
  rewrite (resize_ge (_ ++ to_string features))
    by (rewrite !length_app, !length_replicate; lia).
  rewrite !length_app, !length_replicate, <- !app_assoc.
  replace (27 - _)%nat with (7 - length (to_string depth))%nat by lia.
  replace (36 - _)%nat with (9 - length (to_string features))%nat by lia.
  done.
Qed.

(** X18: a benchmark name is 36 characters long; when the target has
    at most 20 characters, the depth at most 7 and the feature count at
    most 9, the target starts at column 0, the depth at column 20 and
    the feature count at column 27, each filled up with spaces: the
    columns of the header that main prints. *)
Theorem makeBenchmarkName_layout
    (target : list ascii) (depth features : Z) :
  (length target <= 20)%nat ->
  (length (to_string depth) <= 7)%nat ->
  (length (to_string features) <= 9)%nat ->
  length (makeBenchmarkName target depth features) = 36%nat
  /\ take 20 (makeBenchmarkName target depth features)
     = target ++ replicate (20 - length target) " "%char
  /\ take 7 (drop 20 (makeBenchmarkName target depth features))
     = to_string depth ++ replicate (7 - length (to_string depth)) " "%char
  /\ drop 27 (makeBenchmarkName target depth features)
     = to_string features
       ++ replicate (9 - length (to_string features)) " "%char.
Proof.
  intros Ht Hd Hf. split; [apply length_resize|].
  rewrite makeBenchmarkName_columns by done.
  set (col0 := target ++ replicate (20 - length target) " "%char).
  set (col1 := to_string depth ++ _).
  set (col2 := to_string features ++ _).
  assert (H0 : length col0 = 20%nat)
    by (unfold col0; rewrite length_app, length_replicate; lia).
  assert (H1 : length col1 = 7%nat)
    by (unfold col1; rewrite length_app, length_replicate; lia).
  replace (target ++ replicate (20 - length target) " "%char ++ col1 ++ col2)
    with (col0 ++ col1 ++ col2) by (unfold col0; by rewrite <- app_assoc).
  split; [|split].
  - by rewrite take_app_length' by done.
  - rewrite drop_app_length' by done. by rewrite take_app_length' by done.
  - replace 27%nat with (20 + 7)%nat by done.
    rewrite <- drop_drop, drop_app_length' by done.
    by rewrite drop_app_length' by done.
Qed.

Lemma makeBenchmarkName_layout_witness :
  length (makeBenchmarkName (list_ascii_of_string "Interpreter") 12 10000)
  = 36%nat
  /\ take 7 (drop 20 (makeBenchmarkName
                        (list_ascii_of_string "Interpreter") 12 10000))
     = list_ascii_of_string "12     "
  /\ take 27 benchmarkHeader
     = list_ascii_of_string "Target              Depth  ".
Proof.
  destruct (makeBenchmarkName_layout (list_ascii_of_string "Interpreter")
              12 10000
              ltac:(vm_compute; lia) ltac:(vm_compute; lia)
              ltac:(vm_compute; lia))
    as (Hlen & _ & Hdepth & _).
  split; [exact Hlen|]. split; [rewrite Hdepth|]; reflexivity.
Defined.

(** X19: the name tells the configuration: two names made for the same
    target are equal only when the depths and the feature counts are,
    as long as the numbers fit their columns. *)
Theorem makeBenchmarkName_inj
    (target : list ascii) (depth features depth' features' : Z) :
  (length target <= 20)%nat ->
  (length (to_string depth) <= 7)%nat ->
  (length (to_string depth') <= 7)%nat ->
  (length (to_string features) <= 9)%nat ->
  (length (to_string features') <= 9)%nat ->
  makeBenchmarkName target depth features
  = makeBenchmarkName target depth' features' ->
  depth = depth' /\ features = features'.
Proof.
  intros Ht Hd Hd' Hf Hf' Heq.
  rewrite !makeBenchmarkName_columns in Heq by done.
  do 2 apply app_inv_head in Heq.
  apply app_inj_1 in Heq as [Hdepth Hfeatures];
    [|rewrite !length_app, !length_replicate; lia].
  split; apply to_string_inj.
  - eapply padded_inj; [apply to_string_no_space..|exact Hdepth].
  - eapply padded_inj; [apply to_string_no_space..|exact Hfeatures].
Qed.

Lemma makeBenchmarkName_inj_witness : 12 = 12 /\ 10000 = 10000.
Proof.
  apply (makeBenchmarkName_inj (list_ascii_of_string "Interpreter")
           12 10000 12 10000);
    [vm_compute; lia | vm_compute; lia | vm_compute; lia
    | vm_compute; lia | vm_compute; lia | reflexivity].
Defined.

(** ** Benchmark registration *)

Lemma addBenchmark_fold {Benchmark_f : Type} (lambda : Benchmark_f)
    (name : list ascii) (configurations : list (Z * Z)) :
  forall BenchmarkId registered,
  - 2 ^ 31 <= BenchmarkId ->
  BenchmarkId + Z.of_nat (length configurations) < 2 ^ 31 ->
  foldl (fun state (c : Z * Z) => addBenchmark lambda name c.1 c.2 state)
        (BenchmarkId, registered) configurations
  = (BenchmarkId + Z.of_nat (length configurations),
     registered
     ++ imap (fun n (c : Z * Z) =>
                mkBenchmark (makeBenchmarkName name c.1 c.2) lambda
                            (BenchmarkId + Z.of_nat n) c.1 c.2 2)
             configurations).
Proof.
  induction configurations as [|c configurations IH];
    intros BenchmarkId registered Hlow Hhigh.
  - cbn. by rewrite Z.add_0_r, app_nil_r.
  - cbn [foldl length]. unfold addBenchmark at 2.
    rewrite to_int_small by (cbn [length] in Hhigh; lia).
    rewrite IH by (cbn [length] in Hhigh; lia).
    rewrite imap_cons, <- app_assoc. cbn [app].
    f_equal; [lia|]. do 2 f_equal; [by rewrite Z.add_0_r|].
    apply imap_ext. intros n c' _. unfold compose. f_equal. lia.
Qed.

Lemma foldl_bind {A B C} (g : A -> C -> A) (h : B -> list C) (l : list B) :
  forall a, foldl g a (l ≫= h) = foldl (fun a b => foldl g a (h b)) a l.
Proof.
  induction l as [|b l IH]; intros a; [done|].
  cbn. by rewrite foldl_app, IH.
Qed.

Lemma foldl_ext_all {A B} (f g : A -> B -> A) (l : list B) :
  (forall a b, f a b = g a b) -> forall a, foldl f a l = foldl g a l.
Proof.
  intros Hfg. induction l as [|b l IH]; intros a; [done|].
  cbn. by rewrite Hfg, IH.
Qed.

(** X20: the loops of main register one benchmark per pair of a feature
    count and a tree depth, feature counts outside, and hand out the
    ids BenchmarkId, BenchmarkId + 1, ... in that order; every benchmark
    gets the name of its pair, its pair as arguments and two threads,
    and BenchmarkId ends behind the last id. *)
Theorem registerBenchmarks_ids {Benchmark_f : Type}
    (BenchmarkInterpreter : Benchmark_f)
    (treeDepths dataSetFeatures : list Z)
    (BenchmarkId : Z) (registered : list (Benchmark Benchmark_f)) :
  - 2 ^ 31 <= BenchmarkId ->
  BenchmarkId
  + Z.of_nat (length (benchmarkConfigurations treeDepths dataSetFeatures))
  < 2 ^ 31 ->
  registerBenchmarks BenchmarkInterpreter treeDepths dataSetFeatures
                     (BenchmarkId, registered)
  = (BenchmarkId
     + Z.of_nat (length (benchmarkConfigurations treeDepths
                                                 dataSetFeatures)),
     registered
     ++ imap (fun n (c : Z * Z) =>
                mkBenchmark
                  (makeBenchmarkName (list_ascii_of_string "Interpreter")
                                     c.1 c.2)
                  BenchmarkInterpreter (BenchmarkId + Z.of_nat n) c.1 c.2 2)
             (benchmarkConfigurations treeDepths dataSetFeatures))
  /\ length (benchmarkConfigurations treeDepths dataSetFeatures)
     = (length dataSetFeatures * length treeDepths)%nat.
Proof.
  intros Hlow Hhigh. split.
  - rewrite <- (addBenchmark_fold BenchmarkInterpreter) by done.
    unfold registerBenchmarks, benchmarkConfigurations.
    rewrite foldl_bind. apply foldl_ext_all. intros state f.
    by rewrite foldl_fmap.
  - clear Hlow Hhigh. unfold benchmarkConfigurations.
    induction dataSetFeatures as [|f features IH]; [done|].
    cbn. rewrite length_app, length_fmap. f_equal. apply IH.
Qed.

Lemma registerBenchmarks_ids_witness :
  fst (main_benchmarks tt) = 12
  /\ benchId <$> snd (main_benchmarks tt) = seqZ 0 12
  /\ (fun b => (benchDepth b, benchFeatures b)) <$> snd (main_benchmarks tt)
     = [(3, 5); (4, 5); (6, 5); (8, 5); (9, 5); (12, 5);
        (3, 10000); (4, 10000); (6, 10000); (8, 10000); (9, 10000);
        (12, 10000)].
Proof.
  unfold main_benchmarks.
  destruct (registerBenchmarks_ids tt [3; 4; 6; 8; 9; 12] [5; 10000] 0 []
              ltac:(lia) ltac:(vm_compute; reflexivity)) as [-> _].
  split; [reflexivity|]. split; reflexivity.
Defined.

(** ** The fixed template and the marking loop *)

(** X21: for a path map over bit offsets below 32, the fixed template
    is a 32-bit value that has a bit set exactly where the map requires
    true; it agrees with the map, and its bits outside the keys of the
    map are clear. *)
Theorem buildFixedConditionVectorTemplate_bits
    (leafNodePathBitsMap : gmap Z bool) :
  (forall b v, leafNodePathBitsMap !! b = Some v -> 0 <= b < 32) ->
  0 <= buildFixedConditionVectorTemplate leafNodePathBitsMap < 2 ^ 32
  /\ agrees (buildFixedConditionVectorTemplate leafNodePathBitsMap)
            leafNodePathBitsMap
  /\ forall n, 0 <= n ->
       Z.testbit (buildFixedConditionVectorTemplate leafNodePathBitsMap) n
       = true
       <-> leafNodePathBitsMap !! n = Some true.
Proof.
  intros Hkeys. destruct (template_bits leafNodePathBitsMap Hkeys)
    as [Hrange Hbits].
  split; [done|]. split.
  - intros b v Hb. rewrite Hbits by (apply Hkeys in Hb; lia).
    by rewrite Hb.
  - intros n Hn. rewrite Hbits by done.
    destruct (leafNodePathBitsMap !! n) as [[]|]; cbn; split; congruence.
Qed.

Lemma buildFixedConditionVectorTemplate_bits_witness :
  buildFixedConditionVectorTemplate {[0 := true; 2 := false]} = 1
  /\ agrees (buildFixedConditionVectorTemplate {[0 := true; 2 := false]})
            {[0 := true; 2 := false]}.
Proof.
  destruct (buildFixedConditionVectorTemplate_bits
              {[0 := true; 2 := false]}) as (_ & Hagrees & _).
  - intros b v Hb.
    apply lookup_insert_Some in Hb as [[<- _]|[_ Hb]]; [lia|].
    apply lookup_singleton_Some in Hb as [<- _]. lia.
  - split; [reflexivity | exact Hagrees].
Defined.

Lemma setPathBit_out_of_range off bit result :
  Z.of_nat (length result) < 2 ^ 64 ->
  setPathBit off bit result (Z.of_nat (length result)) = None.
Proof.
  intros Hlen. unfold setPathBit.
  replace (Z.of_nat (length result) - Z.of_nat (length result) - 1)
    with (-1) by lia.
  rewrite lookup_ge_None_2; [done|].
  change (wrap_unsigned 64 (-1)) with 18446744073709551615.
  change (2 ^ 64) with 18446744073709551616 in Hlen. lia.
Qed.

(** X22: the marking loop sets the bit of the current node in the path
    maps of the last [count] descriptors and leaves the others and all
    leaf indices as they are; with a count beyond the number of
    descriptors it indexes before the start of the vector, which is
    undefined. *)
Theorem markPathBits_last (thisBitOffset : Z) (bit : bool) (count : nat)
    (result : list (Z * gmap Z bool)) :
  Z.of_nat (length result) < 2 ^ 64 ->
  markPathBits thisBitOffset bit (Z.of_nat count) result
  = if decide (count <= length result)%nat
    then Some (take (length result - count) result
               ++ (markDescriptor thisBitOffset bit
                     <$> drop (length result - count) result))
    else None.
Proof.
  intros Hlen. destruct (decide (count <= length result)%nat) as [Hle|Hgt].
  - apply (markPathBits_prefix thisBitOffset bit [] result count Hle).
    cbn. lia.
  - unfold markPathBits.
    replace (Z.of_nat count)
      with (Z.of_nat (length result)
            + Z.of_nat (S (count - S (length result)))) by lia.
    rewrite seqZ_app by lia. rewrite foldl_app.
    pose proof (markPathBits_prefix thisBitOffset bit [] result
                  (length result) ltac:(lia) ltac:(cbn; lia)) as Hall.
    unfold markPathBits in Hall. cbn [app] in Hall. rewrite Hall.
    rewrite Nat.sub_diag, take_0, drop_0. cbn [app].
    rewrite Z.add_0_l, seqZ_cons by lia. cbn [foldl mbind option_bind].
    replace (setPathBit thisBitOffset bit
               (markDescriptor thisBitOffset bit <$> result)
               (Z.of_nat (length result)))
      with (@None (list (Z * gmap Z bool))).
    + apply (foldl_bind_None
               (fun i (r : list (Z * gmap Z bool)) =>
                  setPathBit thisBitOffset bit r i)).
    + symmetry.
      rewrite <- (length_fmap (markDescriptor thisBitOffset bit) result).
      apply setPathBit_out_of_range. by rewrite length_fmap.
Qed.

Lemma markPathBits_last_witness :
  markPathBits 0 true (Z.of_nat 1) [(6, ∅); (5, ∅)]
  = Some [(6, ∅); (5, {[0 := true]})]
  /\ markPathBits 0 true (Z.of_nat 3) [(6, ∅); (5, ∅)] = None.
Proof.
  split.
  - rewrite (markPathBits_last 0 true 1 [(6, ∅); (5, ∅)]);
      [reflexivity | vm_compute; reflexivity].
  - rewrite (markPathBits_last 0 true 3 [(6, ∅); (5, ∅)]);
      [reflexivity | vm_compute; reflexivity].
Defined.

(** ** The shape of an evaluator's code *)

Lemma emitSubtreeSwitchesRecursively_nesting tree k (nested : nat) :
  forall R code,
  emitSubtreeSwitchesRecursively tree R k nested = Some code ->
  switchNesting nested code = true.
Proof.
  induction nested as [|nested IH]; intros R code Hemit.
  all: rewrite emitSubtreeSwitchesRecursively_unfold in Hemit.
  all: destruct (emitComputeConditionVector _ _ _ _ _)
         as [[cv offs]|]; [|done].
  all: cbn in Hemit.
  all: destruct (buildSubtreeLeafNodePathsBitsMapsRecursively _ _ _ _ _)
         as [descs|]; [|done].
  all: cbn in Hemit; destruct (_ =? _); [|done].
  all: destruct (mapM _ descs) as [targets|] eqn:Hmap; [|done].
  all: cbn in Hemit; assert (code = SwitchInst cv targets) as ->
         by congruence.
  all: apply mapM_Some_1 in Hmap.
  all: cbn [switchNesting]; apply forallb_forall; intros target Htarget.
  all: apply list_elem_of_In, list_elem_of_lookup in Htarget
         as [j Htarget].
  all: destruct (Forall2_lookup_r _ _ _ _ _ Hmap Htarget)
         as (d & _ & Hleaf).
  all: unfold emitLeafTarget in Hleaf.
  - cbn in Hleaf. destruct (leafVariants _ _); [|done].
    cbn in Hleaf. by injection Hleaf as <-.
  - destruct (emitSubtreeSwitchesRecursively tree (d.1) k nested)
      as [sub|] eqn:Hsub; [|done].
    cbn in Hleaf. destruct (leafVariants _ _); [|done].
    cbn in Hleaf. injection Hleaf as <-. cbn. by eapply IH.
Qed.

(** X23: in the code that emitSubtreeEvaluation emits for an evaluator,
    every path from the first switch passes the same number of nested
    switches, subtreeLevels / switchLevels - 1, and then stores a
    constant index: a call decides subtreeLevels / switchLevels
    switches, whatever the data set. *)
Theorem emitSubtreeEvaluation_nesting
    (tree : gmap Z TreeNode) (rootNodeIdx subtreeLevels switchLevels : Z)
    (code : SwitchCode) :
  emitSubtreeEvaluation tree rootNodeIdx subtreeLevels switchLevels
  = Some code ->
  Z.rem subtreeLevels switchLevels = 0
  /\ switchNesting
       (Z.to_nat (to_int (Z.quot subtreeLevels switchLevels - 1))) code
     = true.
Proof.
  unfold emitSubtreeEvaluation.
  destruct (Z.eqb_spec (Z.rem subtreeLevels switchLevels) 0); [|done].
  intros Hemit. split; [done|].
  by eapply emitSubtreeSwitchesRecursively_nesting.
Qed.

Lemma emitSubtreeEvaluation_nesting_witness :
  exists code,
    emitSubtreeEvaluation sampleTree2 0 2 1 = Some code
    /\ switchNesting 1 code = true.
Proof.
  destruct (emitSubtreeEvaluation sampleTree2 0 2 1) as [code|] eqn:Hemit;
    [|vm_compute in Hemit; discriminate].
  exists code. split; [reflexivity|].
  exact (proj2 (emitSubtreeEvaluation_nesting sampleTree2 0 2 1 code Hemit)).
Defined.

(** ** The balanced bias *)

Lemma SFcompare_refl x : SFcompare x x = Some Eq \/ SFcompare x x = None.
Proof.
  destruct x as [s|s| |s m e]; cbn; try destruct s; auto;
    rewrite Z.compare_refl, ?Pos.compare_cont_refl, ?Pos.compare_refl;
    auto.
Qed.

(** X24: the bias that makeDecisionTreeNode gives a node is the node's
    operation applied to 0.5, computed as the evaluator computes it when
    std::log and llvm.log agree; so the compiled predicate of such a
    node, whatever its operation and comparator, is false on the feature
    value 0.5. *)
Theorem makeDecisionTreeNode_balanced
    (log : spec_float -> spec_float)
    (randomOp : Z -> OperationType) (randomComp : Z -> ComparatorType)
    (randomFeatureIdx : Z -> Z) (call : Z) (dataSet : list spec_float) :
  dataSet !! Z.to_nat
    (to_unsigned
       (DataSetFeatureIdx
          (makeDecisionTreeNode log randomOp randomComp randomFeatureIdx
                                call)))
  = Some half ->
  Bias (makeDecisionTreeNode log randomOp randomComp randomFeatureIdx call)
  = emitOperator log (randomOp call) half
  /\ emitSingleNodeEvaluaton log
       (makeDecisionTreeNode log randomOp randomComp randomFeatureIdx call)
       dataSet
     = Some false.
Proof.
  intros Hfeature.
  assert (Hbias : makeBalancedBias log (randomOp call)
                  = emitOperator log (randomOp call) half)
    by (by destruct (randomOp call)).
  split; [exact Hbias|].
  unfold emitSingleNodeEvaluaton. rewrite Hfeature. cbn.
  rewrite Hbias. f_equal.
  destruct (randomComp call); cbn;
    by destruct (SFcompare_refl (emitOperator log (randomOp call) half))
      as [->| ->].
Qed.

Lemma makeDecisionTreeNode_balanced_witness :
  emitSingleNodeEvaluaton (fun x => x)
    (makeDecisionTreeNode (fun x => x) (fun _ => Sqrt)
                          (fun _ => GreaterThan) (fun i => i) 1)
    [quarter; half]
  = Some false.
Proof.
  apply (makeDecisionTreeNode_balanced (fun x => x) (fun _ => Sqrt)
           (fun _ => GreaterThan) (fun i => i) 1 [quarter; half]).
  reflexivity.
Defined.

(** ** The types in every emitted switch *)

Lemma variantsOf_nonempty bits : forall cv, variantsOf cv bits <> [].
Proof.
  induction bits as [|b bits IH]; intros cv; cbn; [done|].
  intros Happ. apply app_eq_nil in Happ as [Hnil _]. by apply IH in Hnil.
Qed.

(** X25: for a perfect tree and a switch depth from 0 to 5, the switch
    that the generator emits has a condition of type i64 and, in every
    target, at least one case constant, all of type i<2^k>: the rule of
    the IR verifier that case constants have the type of the condition
    is broken by every switch emitted, not by particular trees. *)
Theorem emitted_switch_types_differ
    (tree : gmap Z TreeNode) (D R k : Z) (nested : nat)
    (cv : ConditionVectorCode)
    (targets : list (NodeBlock * list ConstantInt)) :
  perfectTree D tree = true -> D <= 62 ->
  0 <= R -> 0 <= k <= 5 -> Z.log2 (R + 1) + k <= D ->
  emitSubtreeSwitchesRecursively tree R k nested
  = Some (SwitchInst cv targets) ->
  cvTy cv = 64
  /\ targets <> []
  /\ Forall (fun target : NodeBlock * list ConstantInt =>
               target.2 <> []
               /\ Forall (fun caseVal => intTy caseVal = 2 ^ k) (target.2))
            targets
  /\ verifySwitchTypes (SwitchInst cv targets) = true.
Proof.
  intros Hperfect HD HR Hk Hfit Hemit.
  destruct (emitSubtreeSwitchesRecursively_types tree R k nested cv targets
              Hemit) as [Hty Hcases].
  rewrite TreeNodes_small in Hcases by lia.
  replace (2 ^ k - 1 + 1) with (2 ^ k) in Hcases by lia.
  rewrite emitSubtreeSwitchesRecursively_unfold in Hemit.
  rewrite TreeNodes_small, PowerOf2_small in Hemit by lia.
  destruct (emitComputeConditionVector_spec tree D R k Hperfect HD HR
              ltac:(lia) Hfit ∅ ltac:(lia))
    as (code & offs & Hecv & _ & _ & _ & Hoffs).
  rewrite Hecv in Hemit. cbn in Hemit.
  assert (Hbuild :
    buildSubtreeLeafNodePathsBitsMapsRecursively
      tree R (Z.to_nat k) offs []
    = Some (leafDescriptors R (Z.to_nat k) 0)).
  { rewrite <- (subtreeIdx_root R) at 1.
    rewrite (build_leafDescriptors tree D R k Hperfect HR ltac:(lia)
               Hfit offs Hoffs);
      [done|done|change (Z.log2 (0 + 1)) with 0; lia|lia
       |rewrite Z2Nat.id by lia;
        pose proof (pow2_le_mono k 5 ltac:(lia)); cbn; lia]. }
  rewrite Hbuild in Hemit. cbn in Hemit.
  rewrite length_leafDescriptors, Z2Nat.id, Z.eqb_refl in Hemit by lia.
  set (descs := leafDescriptors R (Z.to_nat k) 0) in *.
  destruct (mapM (emitLeafTarget tree k nested) descs) as [targets'|]
    eqn:Hmap; [|done].
  cbn in Hemit. assert (targets' = targets) as -> by congruence.
  apply mapM_Some_1 in Hmap.
  pose proof (pow2_pos k ltac:(lia)) as Hpos.
  pose proof (pow2_le_mono k 5 ltac:(lia)) as Hle.
  change (2 ^ 5) with 32 in Hle.
  assert (Hnonempty : Forall (fun target : NodeBlock * list ConstantInt =>
                                target.2 <> []) targets).
  { apply Forall_forall. intros target Htarget.
    apply list_elem_of_lookup in Htarget as [j Htarget].
    destruct (Forall2_lookup_r _ _ _ _ _ Hmap Htarget) as (d & Hd & Hleaf).
    assert (Hd' : d ∈ descs) by (by eapply list_elem_of_lookup_2).
    apply emitLeafTarget_cases in Hleaf as (vs & Hvs & ->).
    rewrite TreeNodes_small in Hvs by lia.
    rewrite (leafVariants_variantsOf R k d Hk Hd') in Hvs.
    injection Hvs as <-. intros Hnil. apply fmap_nil_inv in Hnil.
    by apply variantsOf_nonempty in Hnil. }
  assert (Htargets : targets <> []).
  { intros ->. apply Forall2_length in Hmap. cbn in Hmap.
    pose proof (length_leafDescriptors R (Z.to_nat k) 0) as Hlen.
    fold descs in Hlen. rewrite Hmap in Hlen.
    rewrite Z2Nat.id in Hlen by lia. cbn in Hlen. lia. }
  split; [done|]. split; [done|]. split.
  - apply Forall_forall. intros target Htarget. split.
    + by apply (proj1 (Forall_forall _ _) Hnonempty).
    + by apply (proj1 (Forall_forall _ _) Hcases).
  - destruct targets as [|target targets]; [done|].
    apply Forall_cons in Hnonempty as [Hfirst _].
    apply Forall_cons in Hcases as [Hfirstty _].
    destruct target as [nodeBB [|caseVal cases]]; [done|].
    apply Forall_cons in Hfirstty as [Hcase _].
    cbn. rewrite Hcase, Hty.
    destruct (Z.eqb_spec (2 ^ k) 64); [lia|]. done.
Qed.

Lemma emitted_switch_types_differ_witness :
  exists cv targets,
    emitSubtreeSwitchesRecursively sampleTree2 0 2 0
    = Some (SwitchInst cv targets)
    /\ cvTy cv = 64
    /\ verifySwitchTypes (SwitchInst cv targets) = true.
Proof.
  destruct (emitSubtreeSwitchesRecursively sampleTree2 0 2 0)
    as [[cv targets]|] eqn:Hemit; [|vm_compute in Hemit; discriminate].
  destruct (emitted_switch_types_differ sampleTree2 2 0 2 0 cv targets
              ltac:(vm_compute; reflexivity) ltac:(lia) ltac:(lia)
              ltac:(lia) ltac:(vm_compute; discriminate) Hemit)
    as (Hty & _ & _ & Hbroken).
  exists cv, targets. split; [reflexivity|].
  split; [exact Hty | exact Hbroken].
Defined.

(** ** The number of evaluator calls *)

Lemma runFrom_short evaluators D fd dataSet :
  0 <= D <= 62 -> 0 < fd -> (fd | D) ->
  evaluatorKeys D fd evaluators -> evaluatorContract D fd evaluators ->
  forall (m : nat) idx (fuel : nat),
  0 <= idx -> Z.log2 (idx + 1) + Z.of_nat m * fd = D -> (fuel < m)%nat ->
  runFrom fuel evaluators (2 ^ D - 1) dataSet idx = OutOfFuel.
Proof.
  intros HD Hfd HfdD Hkeys Hcontract m.
  induction m as [|m IH]; intros idx fuel Hidx Hlev Hfuel; [lia|].
  assert (Hint : idx < 2 ^ D - 1) by (apply internal_level; lia || nia).
  destruct fuel as [|fuel]; cbn [runFrom];
    destruct (Z.ltb_spec idx (2 ^ D - 1)); try lia; [done|].
  assert (Hmod : Z.log2 (idx + 1) `mod` fd = 0).
  { destruct HfdD as [n Hn].
    replace (Z.log2 (idx + 1)) with ((n - Z.of_nat (S m)) * fd) by lia.
    apply Z.mod_mul. lia. }
  destruct (evaluator_step evaluators D fd dataSet HD Hfd HfdD Hkeys
              (evaluatorContract_at D fd evaluators dataSet Hcontract)
              idx Hidx ltac:(nia) Hmod)
    as (evaluator & next & Hev & Hnext & Hwrap & Hn0 & Hnl & _).
  rewrite Hev, Hnext, Hwrap. apply IH; [done|lia|lia].
Qed.

(** X26: with one contract-satisfying evaluator per internal node on
    the levels that are multiples of functionDepth, the loop of run
    makes exactly D / functionDepth evaluator calls: it has returned a
    leaf index after that many passes and not after fewer. *)
Theorem run_call_count (tree : gmap Z TreeNode)
    (evaluators : gmap Z SubtreeEvaluator_f) (D fd : Z)
    (dataSet : list spec_float) (fuel : nat) :
  Z.of_nat (size tree) = 2 ^ D - 1 -> 0 <= D <= 62 ->
  0 < fd -> (fd | D) ->
  evaluatorKeys D fd evaluators -> evaluatorContract D fd evaluators ->
  (Z.of_nat fuel < D `div` fd ->
   run fuel evaluators tree dataSet = OutOfFuel)
  /\ (D `div` fd <= Z.of_nat fuel ->
      exists leaf, run fuel evaluators tree dataSet = Returned leaf).
Proof.
  intros Hsize HD Hfd HfdD Hkeys Hcontract.
  pose proof HfdD as [n Hn]. assert (Hn0 : 0 <= n) by nia.
  assert (Hroot : Z.log2 (0 + 1) + Z.of_nat (Z.to_nat n) * fd = D).
  { change (Z.log2 (0 + 1)) with 0. lia. }
  unfold run. rewrite Hsize, Hn, Z.div_mul by lia. split; intros Hfuel.
  - rewrite <- Hn.
    apply (runFrom_short evaluators D fd dataSet HD Hfd HfdD Hkeys
             Hcontract (Z.to_nat n)); [lia|done|lia].
  - rewrite <- Hn.
    destruct (runFrom_leaf evaluators D fd dataSet HD Hfd HfdD Hkeys
                (evaluatorContract_at D fd evaluators dataSet Hcontract)
                (Z.to_nat n) 0 fuel ltac:(lia) Hroot ltac:(lia))
      as (leaf & Hrun & _).
    by exists leaf.
Qed.

Lemma run_call_count_witness :
  run 1 (collectEvaluators
           (fun i _ => Some (2 * i + 1)) (evaluatorNodes 2 1))
      sampleTree2 [half] = OutOfFuel
  /\ exists leaf,
       run 2 (collectEvaluators
                (fun i _ => Some (2 * i + 1)) (evaluatorNodes 2 1))
           sampleTree2 [half] = Returned leaf.
Proof.
  destruct (run_call_count sampleTree2
              (collectEvaluators
                 (fun i _ => Some (2 * i + 1)) (evaluatorNodes 2 1))
              2 1 [half] 1
              ltac:(vm_compute; reflexivity) ltac:(lia) ltac:(lia)
              ltac:(exists 2; lia)) as [Hshort _].
  - intros i. rewrite collectEvaluators_lookup.
    rewrite <- (evaluatorNodes_elem 2 1 i) by (lia || (exists 2; lia)).
    destruct (decide (i ∈ evaluatorNodes 2 1)).
    + split; [done|]. by eexists.
    + split; [by intros [? ?]|done].
  - intros i evaluator dataSet Hev Hi.
    rewrite collectEvaluators_lookup in Hev.
    destruct (decide (i ∈ evaluatorNodes 2 1)); [|done].
    injection Hev as <-. eexists. split; [done|].
    unfold levelsBelow. apply andb_true_intro.
    split; [apply Z.leb_le|apply Z.ltb_lt]; lia.
  - split; [apply Hshort; vm_compute; reflexivity|].
    eexists. vm_compute. reflexivity.
Defined.

(** ** The lookup in the loop of run, for compiled evaluators *)

Lemma compileEvaluators_contract_at llvm_log verifyFunction tree D fd sd
    dataSet evaluators :
  perfectTree D tree = true -> 0 <= D <= 62 ->
  1 <= sd <= 5 -> 0 < fd < 2 ^ 31 -> (sd | fd) -> (fd | D) ->
  featuresInRange D tree dataSet = true ->
  compileEvaluators llvm_log verifyFunction tree D fd sd = Some evaluators ->
  evaluatorContractAt D fd evaluators dataSet.
Proof.
  intros Hperfect HD Hsd Hfd Hsdfd HfdD Hfeat Hcompile.
  destruct (compileEvaluators_spec llvm_log verifyFunction tree D fd sd
              Hperfect HD Hsd Hfd Hsdfd HfdD) as (module & Hcompile' & Hmod).
  rewrite Hcompile in Hcompile'.
  assert (evaluators
          = collectEvaluators (getEvaluatorFnPtr llvm_log module)
                              (reverse (evaluatorNodes D fd)))
    as -> by congruence.
  intros i evaluator Hev _.
  rewrite collectEvaluators_lookup in Hev.
  destruct (decide (i ∈ reverse (evaluatorNodes D fd))) as [Hin|]; [|done].
  rewrite elem_of_reverse in Hin.
  assert (evaluator = getEvaluatorFnPtr llvm_log module i) as ->
    by congruence.
  destruct (evaluatorNodes_fit tree D fd Hperfect HD Hfd HfdD i Hin)
    as [Hi Hfit].
  rewrite (evaluator_descend llvm_log tree D fd sd dataSet Hperfect HD Hsd
             Hfd Hsdfd Hfeat module i (Hmod i Hin) ltac:(lia) Hfit).
  destruct (descend_defined llvm_log tree D dataSet Hperfect Hfeat
              (Z.to_nat fd) i ltac:(lia) ltac:(lia))
    as (r & Hdesc & _).
  exists r. split; [done|].
  replace fd with (Z.of_nat (Z.to_nat fd)) at 1 by lia.
  apply (descend_levelsBelow llvm_log tree dataSet _ i r); [lia|done].
Qed.

Lemma run_lookup_never_fails_witness :
  (exists evaluators,
     loadEvaluators (fun i _ => Some (2 * i + 1)) sampleTree2 2 1
     = Some evaluators
     /\ forall (fuel : nat) idx,
          run fuel evaluators sampleTree2 [half] <> LookupFailed idx)
  /\ (exists evaluators,
        compileEvaluators (fun x => x) (fun _ => false) sampleTree2 2 1 1
        = Some evaluators
        /\ evaluatorContractAt 2 1 evaluators [half]
        /\ forall (fuel : nat) idx,
             run fuel evaluators sampleTree2 [half] <> LookupFailed idx).
Proof.
  split.
  - exists (collectEvaluators (fun i _ => Some (2 * i + 1))
                              (evaluatorNodes 2 1)).
    assert (Hload :
      loadEvaluators (fun i _ => Some (2 * i + 1)) sampleTree2 2 1
      = Some (collectEvaluators (fun i _ => Some (2 * i + 1))
                                (evaluatorNodes 2 1)))
      by (vm_compute; reflexivity).
    split; [exact Hload|].
    apply (run_lookup_never_fails (fun x => x) (fun _ => false)
             (fun i _ => Some (2 * i + 1)) sampleTree2 2 1 1 _ [half]
             ltac:(vm_compute; reflexivity) ltac:(lia) ltac:(lia)
             ltac:(exists 2; lia) (or_introl Hload)).
    intros i evaluator Hev Hi.
    rewrite collectEvaluators_lookup in Hev.
    destruct (decide (i ∈ evaluatorNodes 2 1)); [|done].
    injection Hev as <-. eexists. split; [done|].
    unfold levelsBelow. apply andb_true_intro.
    split; [apply Z.leb_le|apply Z.ltb_lt]; lia.
  - destruct (compileEvaluators_spec (fun x => x) (fun _ => false)
                sampleTree2 2 1 1
                ltac:(vm_compute; reflexivity) ltac:(lia) ltac:(lia)
                ltac:(lia) ltac:(exists 1; lia) ltac:(exists 2; lia))
      as (module & Hcompile & _).
    eexists. split; [exact Hcompile|].
    assert (Hcontract :
      evaluatorContractAt 2 1
        (collectEvaluators (getEvaluatorFnPtr (fun x => x) module)
                           (reverse (evaluatorNodes 2 1))) [half]).
    { apply (compileEvaluators_contract_at (fun x => x) (fun _ => false)
               sampleTree2 2 1 1 [half] _
               ltac:(vm_compute; reflexivity) ltac:(lia) ltac:(lia)
               ltac:(lia) ltac:(exists 1; lia) ltac:(exists 2; lia)
               ltac:(vm_compute; reflexivity) Hcompile). }
    split; [exact Hcontract|].
    apply (run_lookup_never_fails (fun x => x) (fun _ => false)
             (fun i _ => Some (2 * i + 1)) sampleTree2 2 1 1 _ [half]
             ltac:(vm_compute; reflexivity) ltac:(lia) ltac:(lia)
             ltac:(exists 2; lia) (or_intror Hcompile) Hcontract).
Defined.
